(** * xdsl: the immutable IR mirror and the constraint matcher

    A shallow embedding of [src/xdsl/immutable_ir.py] and
    [xdsl/sasha_rewrite_pattern.py].

    Python objects are compared by identity in most of this code, so every
    object that the source compares with [is] (or through an identity-based
    [__eq__]/[__hash__]) carries an identity of type [ident], handed out by
    an allocator that is threaded through every constructor.  Exceptions are
    the [Raise] case of [Result]. *)

From stdpp Require Import gmap strings list fin_maps.
From Stdlib Require Import ZArith Lia.

Local Open Scope string_scope.
Local Open Scope list_scope.

(** ** Exceptions and results *)

Inductive PyExc : Type :=
| Exception (msg : string)
| KeyError (key : string)
| IndexError (msg : string)
| ValueError (msg : string)
| TypeError (msg : string)
| AttributeError (name : string)
| AssertionError.

Inductive Result (A : Type) : Type :=
| Ok (a : A)
| Raise (e : PyExc).
Arguments Ok {A} a.
Arguments Raise {A} e.


(** ** IList: a list that can be frozen (immutable_ir.py, lines 14-48) *)

Module IListModel.
Section IList.
Context {A : Type}.
(** Python's [==] on the elements ([list.remove] uses it). *)
Variable eqb : A -> A -> bool.

Record IList : Type := MkIList { items : list A; _frozen : bool }.

Definition frozen_msg : string := "frozen list can not be modified".

(** [IList(xs)]: a new list, [_frozen] is the class default [False]. *)
Definition new (xs : list A) : IList := MkIList xs false.

Definition freeze (l : IList) : IList := MkIList (items l) true.

(** The mutators of Python's built-in [list], on the items. *)
Definition norm_index (i : Z) (n : nat) : Z :=
  if (i <? 0)%Z then (i + Z.of_nat n)%Z else i.

Definition list_insert_at (i : Z) (x : A) (xs : list A) : list A :=
  let j := Z.to_nat (Z.min (Z.max 0 (norm_index i (length xs)))
                           (Z.of_nat (length xs))) in
  take j xs ++ x :: drop j xs.

Fixpoint list_remove (x : A) (xs : list A) : option (list A) :=
  match xs with
  | [] => None
  | y :: ys => if eqb y x then Some ys
               else option_map (cons y) (list_remove x ys)
  end.

Definition list_pop (i : Z) (xs : list A) : option (A * list A) :=
  let j := norm_index i (length xs) in
  if ((0 <=? j)%Z && (j <? Z.of_nat (length xs))%Z)%bool
  then match xs !! Z.to_nat j with
       | Some x => Some (x, take (Z.to_nat j) xs ++ drop (S (Z.to_nat j)) xs)
       | None => None
       end
  else None.

(** The six overridden methods: each one tests [_frozen] first. *)
Definition append (l : IList) (x : A) : Result IList :=
  if _frozen l then Raise (Exception frozen_msg)
  else Ok (MkIList (items l ++ [x]) (_frozen l)).

Definition extend (l : IList) (xs : list A) : Result IList :=
  if _frozen l then Raise (Exception frozen_msg)
  else Ok (MkIList (items l ++ xs) (_frozen l)).

Definition insert (l : IList) (i : Z) (x : A) : Result IList :=
  if _frozen l then Raise (Exception frozen_msg)
  else Ok (MkIList (list_insert_at i x (items l)) (_frozen l)).

Definition remove (l : IList) (x : A) : Result IList :=
  if _frozen l then Raise (Exception frozen_msg)
  else match list_remove x (items l) with
       | Some xs => Ok (MkIList xs (_frozen l))
       | None => Raise (ValueError "list.remove(x): x not in list")
       end.

(** [pop]'s default argument is the [Ellipsis] object, which the built-in
    [list.pop] rejects; [None] stands for a call without an index. *)
Definition pop (l : IList) (i : option Z) : Result (A * IList) :=
  if _frozen l then Raise (Exception frozen_msg)
  else match i with
       | None => Raise (TypeError "'ellipsis' object cannot be interpreted as an integer")
       | Some i =>
           match list_pop i (items l) with
           | Some (x, xs) => Ok (x, MkIList xs (_frozen l))
           | None => Raise (IndexError "pop index out of range")
           end
       end.

Definition clear (l : IList) : Result IList :=
  if _frozen l then Raise (Exception frozen_msg)
  else Ok (MkIList [] (_frozen l)).

(** Mutators that [IList] inherits from [list] without overriding them:
    they never look at [_frozen]. *)
Definition reverse (l : IList) : Result IList :=
  Ok (MkIList (rev (items l)) (_frozen l)).

Definition __iadd__ (l : IList) (xs : list A) : Result IList :=
  Ok (MkIList (items l ++ xs) (_frozen l)).

Definition __delitem__ (l : IList) (i : Z) : Result IList :=
  match list_pop i (items l) with
  | Some (_, xs) => Ok (MkIList xs (_frozen l))
  | None => Raise (IndexError "list assignment index out of range")
  end.

Definition __setitem__ (l : IList) (i : Z) (x : A) : Result IList :=
  let j := norm_index i (length (items l)) in
  if ((0 <=? j)%Z && (j <? Z.of_nat (length (items l)))%Z)%bool
  then Ok (MkIList (<[Z.to_nat j := x]> (items l)) (_frozen l))
  else Raise (IndexError "list assignment index out of range").

(** A call of one of the six overridden mutators. *)
Inductive Mutation : Type :=
| CallAppend (x : A)
| CallExtend (xs : list A)
| CallInsert (i : Z) (x : A)
| CallRemove (x : A)
| CallPop (i : option Z)
| CallClear.

Definition call (l : IList) (m : Mutation) : Result IList :=
  match m with
  | CallAppend x => append l x
  | CallExtend xs => extend l xs
  | CallInsert i x => insert l i x
  | CallRemove x => remove l x
  | CallPop i => match pop l i with
                 | Ok (_, l') => Ok l'
                 | Raise e => Raise e
                 end
  | CallClear => clear l
  end.
End IList.
Arguments IList A : clear implicits.
End IListModel.

(** ** Object identities, the allocator and the output stream *)

Definition ident : Type := nat.

(** [next_id]: the identity the next constructed object receives;
    [stdout]: the lines written by [print], oldest first. *)
Record Heap : Type := MkHeap { next_id : ident; stdout : list string }.

Definition M (A : Type) : Type := Heap -> Result (A * Heap).

Definition ret {A} (a : A) : M A := fun h => Ok (a, h).

Definition bind {A B} (m : M A) (f : A -> M B) : M B :=
  fun h => match m h with
           | Ok (a, h') => f a h'
           | Raise e => Raise e
           end.

Definition raise {A} (e : PyExc) : M A := fun _ => Raise e.

Definition lift {A} (r : Result A) : M A :=
  fun h => match r with Ok a => Ok (a, h) | Raise e => Raise e end.

Definition fresh : M ident :=
  fun h => Ok (next_id h, MkHeap (S (next_id h)) (stdout h)).

Definition print (line : string) : M unit :=
  fun h => Ok (tt, MkHeap (next_id h) (stdout h ++ [line])).

Notation "'let*' x ':=' m 'in' k" := (bind m (fun x => k))
  (at level 10, x pattern, m at level 100, k at level 200, only parsing).

(** A [for] loop that builds a list while it updates loop-carried state. *)
Section Loops.
Context {A B S : Type}.
Variable body : A -> S -> M (B * S).

Fixpoint mapS (l : list A) (s : S) : M (list B * S) :=
  match l with
  | [] => ret ([], s)
  | x :: l' =>
      let* (y, s1) := body x s in
      let* (ys, s2) := mapS l' s1 in
      ret (y :: ys, s2)
  end.
End Loops.

(** ** Attributes and operation kinds *)

(** Modelled from the spec: [xdsl.ir.Attribute] is not among the sources.
    Section 3 of the specification: an immutable, comparable value (type tag
    and payload) whose equality is structural. *)
Record Attribute : Type := MkAttribute { attr_name : string; attr_payload : list Z }.

Global Instance Attribute_eq_dec : EqDecision Attribute.
Proof. solve_decision. Defined.

Definition Attribute_eqb (a b : Attribute) : bool := bool_decide (a = b).

(** Modelled from the spec: the operation classes ([type[Operation]]) live
    in [xdsl.ir] and the dialects, which are not among the sources.  A class
    is known by its identity; [RewriteId] is the class imported from
    [xdsl.dialects.rewrite.dialect], every other class is [OpClass] with its
    operation name.  [name] is a class attribute ([new_op] reads
    [op_type.name]). *)
Inductive OpType : Type :=
| RewriteId
| OpClass (cls_name : string).

Global Instance OpType_eq_dec : EqDecision OpType.
Proof. solve_decision. Defined.

Definition OpType_eqb (a b : OpType) : bool := bool_decide (a = b).

Definition OpType_name (t : OpType) : string :=
  match t with
  | RewriteId => "rewrite.id"
  | OpClass n => n
  end.

(** ** The immutable IR (immutable_ir.py) *)

(** [OpData]: the shared record of name, kind and attributes.  [od_id] is the
    identity of the record instance. *)
Record OpData : Type := MkOpData {
  od_id : ident;
  od_name : string;
  od_op_type : OpType;
  od_attributes : gmap string Attribute
}.

(** [IBlockArg]: compared by identity ([arg_id]).  The back-link [block] is
    assigned by [IBlock.__init__] after the argument exists and is read by
    no function embedded here; the owning block is the one whose [args]
    holds the argument. *)
Record IBlockArg : Type := MkIBlockArg {
  arg_id : ident;
  arg_typ : Attribute;
  arg_index : nat
}.

(** The sequence fields are the frozen [IList]s of the source, held here by
    their items.  [IOp] keeps the result types; its [results] are the
    [IResult]s built from them ([IOp_results]). *)
Inductive IOp : Type :=
| MkIOp (iop_id : ident) (_op_data : OpData) (operands : list ISSAValue)
        (result_types : list Attribute) (successors : list IBlock)
        (regions : list IRegion)
with ISSAValue : Type :=
| IResult (typ : Attribute) (op : IOp) (result_index : nat)
| IArg (a : IBlockArg)
with IBlock : Type :=
| MkIBlock (iblock_id : ident) (args : list IBlockArg) (ops : list IOp)
with IRegion : Type :=
| MkIRegion (iregion_id : ident) (blocks : list IBlock).

Definition IOp_id (o : IOp) : ident := let 'MkIOp i _ _ _ _ _ := o in i.
Definition IOp_op_data (o : IOp) : OpData := let 'MkIOp _ d _ _ _ _ := o in d.
Definition IOp_operands (o : IOp) : list ISSAValue := let 'MkIOp _ _ x _ _ _ := o in x.
Definition IOp_result_types (o : IOp) : list Attribute := let 'MkIOp _ _ _ x _ _ := o in x.
Definition IOp_successors (o : IOp) : list IBlock := let 'MkIOp _ _ _ _ x _ := o in x.
Definition IOp_regions (o : IOp) : list IRegion := let 'MkIOp _ _ _ _ _ x := o in x.

Definition IOp_name (o : IOp) : string := od_name (IOp_op_data o).
Definition IOp_op_type (o : IOp) : OpType := od_op_type (IOp_op_data o).
Definition IOp_attributes (o : IOp) : gmap string Attribute :=
  od_attributes (IOp_op_data o).

(** [results]: [IResult(type, self, idx) for idx, type in enumerate(result_types)]. *)
Definition IOp_results (o : IOp) : list ISSAValue :=
  imap (fun idx typ => IResult typ o idx) (IOp_result_types o).

(** The property [result]: the first result, or [None]. *)
Definition IOp_result (o : IOp) : option ISSAValue := head (IOp_results o).

Definition ISSAValue_typ (v : ISSAValue) : Attribute :=
  match v with
  | IResult t _ _ => t
  | IArg a => arg_typ a
  end.

Definition IBlock_id (b : IBlock) : ident := let 'MkIBlock i _ _ := b in i.
Definition IBlock_args (b : IBlock) : list IBlockArg := let 'MkIBlock _ a _ := b in a.
Definition IBlock_ops (b : IBlock) : list IOp := let 'MkIBlock _ _ o := b in o.
Definition IBlock_arg_types (b : IBlock) : list Attribute := map arg_typ (IBlock_args b).

Definition IRegion_blocks (r : IRegion) : list IBlock := let 'MkIRegion _ b := r in b.

(** *** [__eq__] of the immutable nodes *)

Definition IOp_eq (a b : IOp) : bool := Nat.eqb (IOp_id a) (IOp_id b).
Definition IBlockArg_eq (a b : IBlockArg) : bool := Nat.eqb (arg_id a) (arg_id b).

(** [IResult.__eq__]: same producing op and same index (an [IBlockArg] on
    the other side is not an [IResult]); [IBlockArg.__eq__]: [self is o]. *)
Definition ISSAValue_eq (a b : ISSAValue) : bool :=
  match a, b with
  | IResult _ oa ia, IResult _ ob ib => IOp_eq oa ob && Nat.eqb ia ib
  | IArg x, IArg y => IBlockArg_eq x y
  | _, _ => false
  end.

(** *** Constructors *)

(** [IOp.__init__]. *)
Definition IOp_init (op_data : OpData) (operands : list ISSAValue)
    (result_types : list Attribute) (successors : list IBlock)
    (regions : list IRegion) : M IOp :=
  let* i := fresh in
  ret (MkIOp i op_data operands result_types successors regions).

(** [IOp.get]: a new [OpData], then the op. *)
Definition IOp_get (name : string) (op_type : OpType)
    (operands : list ISSAValue) (result_types : list Attribute)
    (attributes : gmap string Attribute) (successors : list IBlock)
    (regions : list IRegion) : M IOp :=
  let* d := fresh in
  IOp_init (MkOpData d name op_type attributes) operands result_types
           successors regions.

(** [IBlockArg(typ, None, idx)]. *)
Definition IBlockArg_init (typ : Attribute) (idx : nat) : M IBlockArg :=
  let* i := fresh in ret (MkIBlockArg i typ idx).

(** One round of [IBlockArg(type, self, idx) for idx, type in enumerate(args)]. *)
Definition make_arg (typ : Attribute) (idx : nat) : M (IBlockArg * nat) :=
  let* a := IBlockArg_init typ idx in ret (a, S idx).

(** [IBlock.__init__]: [args] is a sequence of types ([inl]), for which the
    arguments are made here, or a sequence of existing arguments ([inr]).
    The branch that raises "args for IBlock ill structured" needs a sequence
    that is neither, which this type has not. *)
Definition IBlock_init (args : list Attribute + list IBlockArg)
    (ops : list IOp) : M IBlock :=
  let* i := fresh in
  let* block_args :=
    match args with
    | inl types =>
        let* (l, _) := mapS make_arg types 0 in
        ret l
    | inr block_args => ret block_args
    end in
  ret (MkIBlock i block_args ops).

(** [IRegion.__init__]. *)
Definition IRegion_init (blocks : list IBlock) : M IRegion :=
  let* i := fresh in ret (MkIRegion i blocks).

(** *** Traversal *)

(** [walk]: [fun] is called on the op, then on everything nested in its
    regions; the callback's effect is its update of [S]. *)
Section Walk.
Context {S : Type}.
Variable fn : IOp -> S -> S.

Fixpoint IOp_walk (o : IOp) (s : S) : S :=
  match o with
  | MkIOp _ _ _ _ _ regions =>
      fold_left (fun s r =>
        match r with
        | MkIRegion _ blocks =>
            fold_left (fun s b =>
              match b with
              | MkIBlock _ _ ops => fold_left (fun s o' => IOp_walk o' s) ops s
              end) blocks s
        end) regions (fn o s)
  end.

Definition IBlock_walk (b : IBlock) (s : S) : S :=
  fold_left (fun s o => IOp_walk o s) (IBlock_ops b) s.

Definition IRegion_walk (r : IRegion) (s : S) : S :=
  fold_left (fun s b => IBlock_walk b s) (IRegion_blocks r) s.
End Walk.

(** *** Dictionaries keyed by immutable values and blocks

    A [dict] finds a key through [__hash__] and [__eq__]: an [IResult] by
    the identity of its op and its index, an [IBlockArg] and an [IBlock] by
    identity. *)
Inductive IKey : Type :=
| KResult (op : ident) (result_index : nat)
| KArg (arg : ident).

Global Instance IKey_eq_dec : EqDecision IKey.
Proof. solve_decision. Defined.

Global Instance IKey_countable : Countable IKey.
Proof.
  refine (inj_countable'
    (fun k => match k with KResult o i => inl (o, i) | KArg a => inr a end)
    (fun s => match s with inl (o, i) => KResult o i | inr a => KArg a end) _).
  by intros [].
Defined.

Definition ikey (v : ISSAValue) : IKey :=
  match v with
  | IResult _ o i => KResult (IOp_id o) i
  | IArg a => KArg (arg_id a)
  end.

Abbreviation Env := (gmap IKey ISSAValue).

(** [operand in env]. *)
Definition in_env (env : Env) (v : ISSAValue) : bool :=
  bool_decide (is_Some (env !! ikey v)).

(** *** The rewrite combinators (lines 606-718) *)

(** What a caller may pass as one operand: a value, an op, or a list of ops. *)
Inductive Operand : Type :=
| OpndValue (v : ISSAValue)
| OpndOp (o : IOp)
| OpndList (ops : list IOp).

(** [rewritten_ops.remove(op)]: drops the first element equal to [op]. *)
Fixpoint list_remove_op (o : IOp) (l : list IOp) : list IOp :=
  match l with
  | [] => []
  | x :: l' => if IOp_eq x o then l' else x :: list_remove_op o l'
  end.

(** One round of the inner loop over [reversed(ops)]. *)
Definition push_front (rewritten_ops : list IOp) (o : IOp) : list IOp :=
  o :: (if existsb (fun x => IOp_eq x o) rewritten_ops
        then list_remove_op o rewritten_ops
        else rewritten_ops).

(** The tail of the loop body, once [operand] is an [ISSAValue]. *)
Definition resolve_operand (env : Env) (operand : ISSAValue) : Result ISSAValue :=
  let operand := match env !! ikey operand with
                 | Some v => v
                 | None => operand
                 end in
  match operand with
  | IResult _ o _ =>
      if OpType_eqb (IOp_op_type o) RewriteId
      then match last (IOp_operands o) with
           | Some v => Ok v
           | None => Raise (IndexError "list index out of range")
           end
      else Ok operand
  | IArg _ => Ok operand
  end.

Definition unpack_step (env : Env) (operand : Operand)
    (acc : list ISSAValue * list IOp) : Result (list ISSAValue * list IOp) :=
  let '(unpacked_operands, rewritten_ops) := acc in
  match (match operand with
         | OpndOp o =>
             match IOp_result o with
             | Some r => Ok (r, rewritten_ops)
             | None => Raise AssertionError
             end
         | OpndList ops =>
             match last ops with
             | None => Raise (IndexError "list index out of range")
             | Some l =>
                 match IOp_result l with
                 | None => Raise AssertionError
                 | Some r => Ok (r, fold_left push_front (rev ops) rewritten_ops)
                 end
             end
         | OpndValue v => Ok (v, rewritten_ops)
         end) with
  | Raise e => Raise e
  | Ok (v, rewritten_ops) =>
      match resolve_operand env v with
      | Raise e => Raise e
      | Ok v' => Ok (unpacked_operands ++ [v'], rewritten_ops)
      end
  end.

Fixpoint unpack_loop (env : Env) (operands : list Operand)
    (acc : list ISSAValue * list IOp) : Result (list ISSAValue * list IOp) :=
  match operands with
  | [] => Ok acc
  | operand :: rest =>
      match unpack_step env operand acc with
      | Ok acc' => unpack_loop env rest acc'
      | Raise e => Raise e
      end
  end.

(** [_unpack_operands(operands, env)]; [env = None] reads as the empty dict. *)
Definition _unpack_operands (operands : list Operand) (env : option Env)
    : Result (list ISSAValue * list IOp) :=
  unpack_loop (default ∅ env) operands ([], []).

(** [new_op]: absent arguments default to empty. *)
Definition new_op (op_type : OpType) (operands : option (list Operand))
    (result_types : option (list Attribute))
    (attributes : option (gmap string Attribute))
    (successors : option (list IBlock)) (regions : option (list IRegion))
    : M (list IOp) :=
  let operands := default [] operands in
  let result_types := default [] result_types in
  let attributes := default ∅ attributes in
  let successors := default [] successors in
  let regions := default [] regions in
  let* (new_operands, rewritten_ops) := lift (_unpack_operands operands None) in
  let* o := IOp_get (OpType_name op_type) op_type new_operands result_types
                    attributes successors regions in
  ret (rewritten_ops ++ [o]).

(** [env[old_op.results[idx]] = result for idx, result in enumerate(op.results)];
    [old_op.results[idx]] raises when the old op has fewer results. *)
Fixpoint record_results (old_results new_results : list ISSAValue) (env : Env)
    : Result Env :=
  match new_results with
  | [] => Ok env
  | r :: new_rest =>
      match old_results with
      | [] => Raise (IndexError "list index out of range")
      | old :: old_rest => record_results old_rest new_rest (<[ikey old := r]> env)
      end
  end.

(** [from_op]: absent arguments are taken from [old_op]; the dict [env], when
    given, is updated in place and handed back. *)
Definition from_op (old_op : IOp) (operands : option (list Operand))
    (result_types : option (list Attribute))
    (attributes : option (gmap string Attribute))
    (successors : option (list IBlock)) (regions : option (list IRegion))
    (env : option Env) : M (list IOp * option Env) :=
  let operands := default (map OpndValue (IOp_operands old_op)) operands in
  let result_types := default (IOp_result_types old_op) result_types in
  let successors := default (IOp_successors old_op) successors in
  let regions := default (IOp_regions old_op) regions in
  let* (new_operands, rewritten_ops) := lift (_unpack_operands operands env) in
  let* o :=
    match attributes with
    | None => IOp_init (IOp_op_data old_op) new_operands result_types
                       successors regions
    | Some attributes =>
        IOp_get (IOp_name old_op) (IOp_op_type old_op) new_operands
                result_types attributes successors regions
    end in
  let rewritten_ops := rewritten_ops ++ [o] in
  match env with
  | None => ret (rewritten_ops, None)
  | Some env =>
      let* env' := lift (record_results (IOp_results old_op) (IOp_results o) env) in
      ret (rewritten_ops, Some env')
  end.

(** *** Rebuilding a block ([IBlock.from_iblock], lines 236-323) *)

(** The first loop: a new argument per old one, recorded in [env]. *)
Definition mint_arg (old_arg : IBlockArg) (st : nat * Env)
    : M (IBlockArg * (nat * Env)) :=
  let* new_block_arg := IBlockArg_init (arg_typ old_arg) st.1 in
  ret (new_block_arg,
       (S st.1, <[KArg (arg_id old_arg) := IArg new_block_arg]> st.2)).

Definition mint_block_args (old_args : list IBlockArg) (env : Env)
    : M (list IBlockArg * Env) :=
  let* (block_args, st) := mapS mint_arg old_args (0, env) in
  ret (block_args, st.2).

(** [subst_necessary], the callback handed to [block.walk]. *)
Definition subst_necessary (env : Env) (o : IOp) (flag : bool) : bool :=
  fold_left (fun flag operand => if in_env env operand then true else flag)
            (IOp_operands o) flag.

(** [IBlock.from_iblock] with its inner function as a parameter. *)
Definition from_iblock_with (substitute : IOp -> Env -> M (IOp * Env))
    (ops : list IOp) (old_args : list IBlockArg) (env : Env) : M (IBlock * Env) :=
  let* (block_args, env) := mint_block_args old_args env in
  let* (ops, env) := mapS substitute ops env in
  let* b := IBlock_init (inr block_args) ops in
  ret (b, env).

(** [substitute_if_required], the inner function of [from_iblock]. *)
Fixpoint substitute_if_required (o : IOp) (env : Env) {struct o} : M (IOp * Env) :=
  match o with
  | MkIOp _ _ operands _ _ regions =>
      let* (new_regions, (env, substitution_required)) :=
        mapS (fun region '(env, substitution_required) =>
          match region with
          | MkIRegion _ blocks =>
              let* (new_blocks, (env, region_substitution_required)) :=
                mapS (fun block '(env, region_substitution_required) =>
                  match block with
                  | MkIBlock _ bargs bops =>
                      if IBlock_walk (subst_necessary env) block false
                      then
                        let* (new_block, env) :=
                          from_iblock_with substitute_if_required bops bargs env in
                        ret (new_block, (env, true))
                      else ret (block, (env, region_substitution_required))
                  end) blocks (env, false) in
              if region_substitution_required
              then let* r := IRegion_init new_blocks in ret (r, (env, true))
              else ret (region, (env, substitution_required))
          end) regions (env, false) in
      let new_operands :=
        map (fun operand => default operand (env !! ikey operand)) operands in
      let substitution_required :=
        fold_left (fun flag operand => if in_env env operand then true else flag)
                  operands substitution_required in
      if substitution_required
      then
        let* (substituted_op, env') :=
          from_op o (Some (map OpndValue new_operands)) None None None
                  (Some new_regions) (Some env) in
        match substituted_op, env' with
        | [new], Some env' => ret (new, env')
        | _, _ => raise AssertionError
        end
      else ret (o, env)
  end.

Definition IBlock_from_iblock (ops : list IOp) (old_block : IBlock)
    (env : option Env) : M (IBlock * Env) :=
  from_iblock_with substitute_if_required ops (IBlock_args old_block)
                   (default ∅ env).

(** ** The mutable IR *)

(** Modelled from the spec: [xdsl.ir] (Operation, OpResult, BlockArgument,
    Block, Region) is not among the sources.  Section 3 of the
    specification: an operation has a kind, operand values, owned results,
    successor blocks, named attributes and owned regions; a block owns its
    arguments and operations; a region owns blocks.  Every node and every
    value is compared by identity.  A reference to another node (the op
    behind an operand, a successor block) is held as that node; what the
    conversions modelled here read through it is its identity and, for
    [operand.op], the op itself.  [parent] is the region a block was added
    to, if any. *)
Record BlockArgument : Type := MkBlockArgument {
  barg_id : ident;
  barg_typ : Attribute;
  barg_index : nat
}.

Record OpResultCell : Type := MkOpResultCell { res_id : ident; res_typ : Attribute }.

Inductive Operation : Type :=
| MkOperation (op_id : ident) (op_type : OpType) (operands : list SSAValue)
              (results : list OpResultCell) (successors : list Block)
              (attributes : gmap string Attribute) (regions : list Region)
with SSAValue : Type :=
| OpResult (val_id : ident) (typ : Attribute) (op : option Operation)
           (result_index : nat)
| BlockArg (a : BlockArgument)
with Block : Type :=
| MkBlock (block_id : ident) (parent : option ident)
          (args : list BlockArgument) (ops : list Operation)
with Region : Type :=
| MkRegion (region_id : ident) (blocks : list Block).

Definition Operation_id (o : Operation) : ident := let 'MkOperation i _ _ _ _ _ _ := o in i.
Definition Operation_op_type (o : Operation) : OpType := let 'MkOperation _ t _ _ _ _ _ := o in t.
Definition Operation_operands (o : Operation) : list SSAValue := let 'MkOperation _ _ x _ _ _ _ := o in x.
Definition Operation_results (o : Operation) : list OpResultCell := let 'MkOperation _ _ _ x _ _ _ := o in x.
Definition Operation_successors (o : Operation) : list Block := let 'MkOperation _ _ _ _ x _ _ := o in x.
Definition Operation_attributes (o : Operation) : gmap string Attribute := let 'MkOperation _ _ _ _ _ x _ := o in x.
Definition Operation_regions (o : Operation) : list Region := let 'MkOperation _ _ _ _ _ _ x := o in x.
(** [op.name] is the class attribute of [op.__class__]. *)
Definition Operation_name (o : Operation) : string := OpType_name (Operation_op_type o).

Definition Block_id (b : Block) : ident := let 'MkBlock i _ _ _ := b in i.
Definition Block_parent (b : Block) : option ident := let 'MkBlock _ p _ _ := b in p.
Definition Block_args (b : Block) : list BlockArgument := let 'MkBlock _ _ a _ := b in a.
Definition Block_ops (b : Block) : list Operation := let 'MkBlock _ _ _ o := b in o.
Definition Region_id (r : Region) : ident := let 'MkRegion i _ := r in i.
Definition Region_blocks (r : Region) : list Block := let 'MkRegion _ b := r in b.

(** The identity under which a mutable value is found in a [dict]. *)
Definition SSAValue_id (v : SSAValue) : ident :=
  match v with
  | OpResult i _ _ _ => i
  | BlockArg a => barg_id a
  end.

Definition SSAValue_typ (v : SSAValue) : Attribute :=
  match v with
  | OpResult _ t _ _ => t
  | BlockArg a => barg_typ a
  end.

(** The [i]-th result of a mutable op, as the value an operand would hold. *)
Definition Operation_result (o : Operation) (i : nat) (c : OpResultCell) : SSAValue :=
  OpResult (res_id c) (res_typ c) (Some o) i.

(** Modelled from the spec: [Operation.create] (section 4.1): the results
    are made by the op, one per declared type, with indices from zero. *)
Definition make_result (typ : Attribute) (_ : unit) : M (OpResultCell * unit) :=
  let* r := fresh in ret (MkOpResultCell r typ, tt).

Definition Operation_create (op_type : OpType) (operands : list SSAValue)
    (result_types : list Attribute) (attributes : gmap string Attribute)
    (successors : list Block) (regions : list Region) : M Operation :=
  let* i := fresh in
  let* results := mapS make_result result_types tt in
  ret (MkOperation i op_type operands results.1 successors attributes regions).

(** Modelled from the spec: [Block.from_arg_types]: a block without
    operations whose arguments are stamped with their index (section 3). *)
Definition make_block_argument (typ : Attribute) (idx : nat)
    : M (BlockArgument * nat) :=
  let* a := fresh in ret (MkBlockArgument a typ idx, S idx).

Definition Block_from_arg_types (arg_types : list Attribute) : M Block :=
  let* i := fresh in
  let* args := mapS make_block_argument arg_types 0 in
  ret (MkBlock i None args.1 []).

(** Modelled from the spec: [Block.add_op] appends an operation. *)
Definition Block_add_op (b : Block) (o : Operation) : Block :=
  let 'MkBlock i p a ops := b in MkBlock i p a (ops ++ [o]).

(** Modelled from the spec: [Region.from_block_list]: the region becomes the
    parent of each block it is given. *)
Definition Region_from_block_list (blocks : list Block) : M Region :=
  let* i := fresh in
  ret (MkRegion i (map (fun b => let 'MkBlock j _ a ops := b in
                                 MkBlock j (Some i) a ops) blocks)).

(** ** Conversions between the two representations *)

Abbreviation ValueMap := (gmap ident ISSAValue).
Abbreviation BlockMap := (gmap ident IBlock).
Abbreviation ValueMapping := (gmap IKey SSAValue).
Abbreviation BlockMapping := (gmap ident Block).

(** *** [from_mutable] (lines 119-134, 326-350, 520-585) *)

(** One round of the loop over [block.args] in [IBlock.from_mutable]. *)
Definition convert_arg (arg : BlockArgument) (value_map : ValueMap)
    : M (IBlockArg * ValueMap) :=
  let* immutable_arg := IBlockArg_init (barg_typ arg) (barg_index arg) in
  ret (immutable_arg, <[barg_id arg := IArg immutable_arg]> value_map).

(** [IBlock.from_mutable], with [IOp.from_mutable] as a parameter. *)
Definition IBlock_from_mutable_with
    (op_from_mutable : Operation -> ValueMap * BlockMap -> M (IOp * (ValueMap * BlockMap)))
    (bargs : list BlockArgument) (bops : list Operation)
    (maps : ValueMap * BlockMap) : M (IBlock * (ValueMap * BlockMap)) :=
  let '(value_map, block_map) := maps in
  let* (args, value_map) := mapS convert_arg bargs value_map in
  let* (immutable_ops, maps) := mapS op_from_mutable bops (value_map, block_map) in
  let* b := IBlock_init (inr args) immutable_ops in
  ret (b, maps).

Fixpoint IOp_from_mutable_maps (o : Operation) (maps : ValueMap * BlockMap)
    (existing_operands : option (list ISSAValue)) {struct o}
    : M (IOp * (ValueMap * BlockMap)) :=
  match o with
  | MkOperation _ op_type m_operands m_results m_successors m_attributes m_regions =>
      let '(value_map, block_map) := maps in
      let* operands :=
        match existing_operands with
        | None =>
            let* r := mapS (fun operand (_ : unit) =>
              match operand with
              | OpResult vid typ owner result_index =>
                  let* producer :=
                    match value_map !! vid with
                    | Some (IResult _ p _) => ret p
                    | Some (IArg _) => raise (AttributeError "op")
                    | None =>
                        match owner with
                        | Some owner =>
                            let* r := IOp_from_mutable_maps owner (∅, ∅) None in
                            ret r.1
                        | None => raise AssertionError
                        end
                    end in
                  ret (IResult typ producer result_index, tt)
              | BlockArg a =>
                  match value_map !! barg_id a with
                  | None => raise (Exception
                      ("Block argument expected in mapping for op: " +:+ OpType_name op_type))
                  | Some v => ret (v, tt)
                  end
              end) m_operands tt in
            ret r.1
        | Some existing_operands => ret existing_operands
        end in
      let attributes := m_attributes in
      let* (successors, block_map) :=
        mapS (fun successor block_map =>
          match block_map !! Block_id successor with
          | Some b => ret (b, block_map)
          | None =>
              match successor with
              | MkBlock sid _ sargs sops =>
                  let* (newImmutableSuccessor, _) :=
                    IBlock_from_mutable_with
                      (fun o' maps => IOp_from_mutable_maps o' maps None)
                      sargs sops (∅, ∅) in
                  ret (newImmutableSuccessor, <[sid := newImmutableSuccessor]> block_map)
              end
          end) m_successors block_map in
      let* (regions, maps) :=
        mapS (fun region maps =>
          match region with
          | MkRegion _ blocks =>
              let* (immutable_blocks, maps) :=
                mapS (fun block maps =>
                  match block with
                  | MkBlock _ _ bargs bops =>
                      IBlock_from_mutable_with
                        (fun o' maps => IOp_from_mutable_maps o' maps None)
                        bargs bops maps
                  end) blocks maps in
              match blocks with
              | [] => raise (IndexError "list index out of range")
              | first :: _ =>
                  match Block_parent first with
                  | None => raise AssertionError
                  | Some _ =>
                      let* r := IRegion_init immutable_blocks in
                      ret (r, maps)
                  end
              end
          end) m_regions (value_map, block_map) in
      let* immutable_op :=
        IOp_get (OpType_name op_type) op_type operands (map res_typ m_results)
                attributes successors regions in
      let value_map :=
        fold_left (fun vm '(result, r) => <[res_id result := r]> vm)
                  (zip m_results (IOp_results immutable_op)) maps.1 in
      ret (immutable_op, (value_map, maps.2))
  end.

(** [IOp.from_mutable(op, value_map, block_map, existing_operands)]; an
    absent dict is a new empty one. *)
Definition IOp_from_mutable (o : Operation) (value_map : option ValueMap)
    (block_map : option BlockMap) (existing_operands : option (list ISSAValue))
    : M (IOp * (ValueMap * BlockMap)) :=
  IOp_from_mutable_maps o (default ∅ value_map, default ∅ block_map)
                        existing_operands.

Definition IBlock_from_mutable (block : Block) (value_map : option ValueMap)
    (block_map : option BlockMap) : M (IBlock * (ValueMap * BlockMap)) :=
  IBlock_from_mutable_with (fun o maps => IOp_from_mutable_maps o maps None)
    (Block_args block) (Block_ops block)
    (default ∅ value_map, default ∅ block_map).

Definition IRegion_from_mutable (blocks : list Block) (value_map : option ValueMap)
    (block_map : option BlockMap) : M (IRegion * (ValueMap * BlockMap)) :=
  let* (immutable_blocks, maps) :=
    mapS (fun block maps => IBlock_from_mutable block (Some maps.1) (Some maps.2))
         blocks (default ∅ value_map, default ∅ block_map) in
  match blocks with
  | [] => raise (IndexError "list index out of range")
  | first :: _ =>
      match Block_parent first with
      | None => raise AssertionError
      | Some _ => let* r := IRegion_init immutable_blocks in ret (r, maps)
      end
  end.

(** [get_immutable_copy]. *)
Definition get_immutable_copy (o : Operation) : M IOp :=
  let* r := IOp_from_mutable o (Some ∅) None None in ret r.1.

(** *** [get_mutable_copy] (lines 136-149, 352-370, 471-518) *)

(** The loop over [self.operands]: a value that is not in [value_mapping] is
    reported on the output and replaced by [OpResult(operand.typ, None, 0)]. *)
Definition mutable_operand (name : string) (value_mapping : ValueMapping)
    (operand : ISSAValue) (_ : unit) : M (SSAValue * unit) :=
  match value_mapping !! ikey operand with
  | Some v => ret (v, tt)
  | None =>
      let* _ := print ("ERROR: op " +:+ name +:+ " uses SSAValue before definition") in
      let* i := fresh in
      ret (OpResult i (ISSAValue_typ operand) None 0, tt)
  end.

(** The loop over [self.successors]. *)
Definition mutable_successor (block_mapping : BlockMapping) (successor : IBlock)
    (_ : unit) : M (Block * unit) :=
  match block_mapping !! IBlock_id successor with
  | Some b => ret (b, tt)
  | None => raise (Exception "Block used before definition")
  end.

(** [IBlock.get_mutable_copy], with [IOp.get_mutable_copy] as a parameter. *)
Definition IBlock_get_mutable_copy_with
    (op_copy : IOp -> ValueMapping * BlockMapping -> M (Operation * (ValueMapping * BlockMapping)))
    (self_id : ident) (self_args : list IBlockArg) (self_ops : list IOp)
    (maps : ValueMapping * BlockMapping) : M (Block * (ValueMapping * BlockMapping)) :=
  let '(value_mapping, block_mapping) := maps in
  let* new_block := Block_from_arg_types (map arg_typ self_args) in
  let value_mapping :=
    fold_left (fun vm '(arg, new_arg) => <[KArg (arg_id arg) := BlockArg new_arg]> vm)
              (zip self_args (Block_args new_block)) value_mapping in
  let block_mapping := <[self_id := new_block]> block_mapping in
  let* (new_ops, maps) := mapS op_copy self_ops (value_mapping, block_mapping) in
  ret (fold_left Block_add_op new_ops new_block, maps).

Fixpoint IOp_get_mutable_copy_maps (self : IOp) (maps : ValueMapping * BlockMapping)
    {struct self} : M (Operation * (ValueMapping * BlockMapping)) :=
  match self with
  | MkIOp _ op_data operands result_types successors regions =>
      let '(value_mapping, block_mapping) := maps in
      let* (mutable_operands, _) :=
        mapS (mutable_operand (od_name op_data) value_mapping) operands tt in
      let* (mutable_successors, _) :=
        mapS (mutable_successor block_mapping) successors tt in
      let* (mutable_regions, maps) :=
        mapS (fun region maps =>
          match region with
          | MkIRegion _ blocks =>
              let* (mutable_blocks, maps) :=
                mapS (fun block maps =>
                  match block with
                  | MkIBlock bid bargs bops =>
                      IBlock_get_mutable_copy_with IOp_get_mutable_copy_maps
                        bid bargs bops maps
                  end) blocks maps in
              let* r := Region_from_block_list mutable_blocks in
              ret (r, maps)
          end) regions (value_mapping, block_mapping) in
      let* new_op :=
        Operation_create (od_op_type op_data) mutable_operands result_types
                         (od_attributes op_data) mutable_successors mutable_regions in
      let value_mapping :=
        fold_left (fun vm '(result, m_result) => <[ikey result := m_result]> vm)
                  (zip (IOp_results self)
                       (imap (Operation_result new_op) (Operation_results new_op)))
                  maps.1 in
      ret (new_op, (value_mapping, maps.2))
  end.

Definition IOp_get_mutable_copy (self : IOp) (value_mapping : option ValueMapping)
    (block_mapping : option BlockMapping)
    : M (Operation * (ValueMapping * BlockMapping)) :=
  IOp_get_mutable_copy_maps self (default ∅ value_mapping, default ∅ block_mapping).

Definition IBlock_get_mutable_copy (self : IBlock) (value_mapping : option ValueMapping)
    (block_mapping : option BlockMapping)
    : M (Block * (ValueMapping * BlockMapping)) :=
  IBlock_get_mutable_copy_with IOp_get_mutable_copy_maps
    (IBlock_id self) (IBlock_args self) (IBlock_ops self)
    (default ∅ value_mapping, default ∅ block_mapping).

Definition IRegion_get_mutable_copy (self : IRegion) (value_mapping : option ValueMapping)
    (block_mapping : option BlockMapping)
    : M (Region * (ValueMapping * BlockMapping)) :=
  let* (mutable_blocks, maps) :=
    mapS (fun block maps => IBlock_get_mutable_copy block (Some maps.1) (Some maps.2))
         (IRegion_blocks self) (default ∅ value_mapping, default ∅ block_mapping) in
  let* r := Region_from_block_list mutable_blocks in
  ret (r, maps).

(** ** The constraint matcher (sasha_rewrite_pattern.py) *)

(** What a match context can hold: the IR nodes of a [Match], and [None]
    (the [op] of a result that has no owner). *)
Inductive PyVal : Type :=
| VOperation (o : Operation)
| VAttribute (a : Attribute)
| VSSAValue (v : SSAValue)
| VNone.

(** Python's [==] on these values: operations and SSA values compare by
    identity, attributes by structure. *)
Definition PyVal_eq (a b : PyVal) : bool :=
  match a, b with
  | VOperation x, VOperation y => Nat.eqb (Operation_id x) (Operation_id y)
  | VAttribute x, VAttribute y => Attribute_eqb x y
  | VSSAValue x, VSSAValue y => Nat.eqb (SSAValue_id x) (SSAValue_id y)
  | VNone, VNone => true
  | _, _ => false
  end.

(** The classes a [TypeConstraint] can name. *)
Inductive PyType : Type :=
| ClsOp (t : OpType)
| ClsOperation
| ClsAttribute
| ClsSSAValue
| ClsOpResult
| ClsBlockArgument.

Definition isinstance (v : PyVal) (t : PyType) : bool :=
  match v, t with
  | VOperation o, ClsOp k => OpType_eqb (Operation_op_type o) k
  | VOperation _, ClsOperation => true
  | VAttribute _, ClsAttribute => true
  | VSSAValue _, ClsSSAValue => true
  | VSSAValue (OpResult _ _ _ _), ClsOpResult => true
  | VSSAValue (BlockArg _), ClsBlockArgument => true
  | _, _ => false
  end.

Abbreviation MatchContext := (gmap string PyVal).
Abbreviation Match := (gmap string PyVal).

(** The class [Variable] ([Variable] is a keyword here). *)
Record QVariable : Type := MkVariable { name : string }.

(** [Variable.get]: [ctx.ctx[self.name]]. *)
Definition Variable_get (v : QVariable) (ctx : MatchContext) : Result PyVal :=
  match ctx !! name v with
  | Some x => Ok x
  | None => Raise (KeyError (name v))
  end.

(** [Variable.set]: the answer and the context after the call. *)
Definition Variable_set (v : QVariable) (ctx : MatchContext) (val : PyVal)
    : bool * MatchContext :=
  match ctx !! name v with
  | Some old => (PyVal_eq val old, ctx)
  | None => (true, <[name v := val]> ctx)
  end.

Inductive Constraint : Type :=
| EqConstraint (lhs_var rhs_var : QVariable)
| TypeConstraint (var : QVariable) (type : PyType)
| AttributeValueConstraint (attr_var : QVariable) (attr : Attribute)
| OperationAttributeConstraint (op_var : QVariable) (attr_name : string) (attr_var : QVariable)
| OperationOperandConstraint (op_var : QVariable) (operand_name : string) (operand_var : QVariable)
| OperationResultConstraint (op_var : QVariable) (res_name : string) (res_var : QVariable)
| OpResultOpConstraint (op_var res_var : QVariable).

Record Query : Type := MkQuery {
  variables : list QVariable;
  constraints : list Constraint
}.

Section Matcher.
(** Python's [getattr(obj, name)].  The accessors of the operation classes
    are generated by their definitions, which are not among the sources. *)
Context (getattr : PyVal -> string -> Result PyVal).

(** [op_result.op]. *)
Definition get_op (v : PyVal) : Result PyVal :=
  match v with
  | VSSAValue (OpResult _ _ (Some o) _) => Ok (VOperation o)
  | VSSAValue (OpResult _ _ None _) => Ok VNone
  | _ => Raise (AttributeError "op")
  end.

(** For a constraint that ends in [var.set(ctx, value)]: the variable and
    the value it computes from the context. *)
Definition binding (c : Constraint) (ctx : MatchContext)
    : option (QVariable * Result PyVal) :=
  match c with
  | EqConstraint lhs_var rhs_var => Some (rhs_var, Variable_get lhs_var ctx)
  | OperationAttributeConstraint op_var attr_name attr_var =>
      Some (attr_var, match Variable_get op_var ctx with
                      | Ok a_obj => getattr a_obj attr_name
                      | Raise e => Raise e
                      end)
  | OperationOperandConstraint op_var operand_name operand_var =>
      Some (operand_var, match Variable_get op_var ctx with
                         | Ok a_obj => getattr a_obj operand_name
                         | Raise e => Raise e
                         end)
  | OperationResultConstraint op_var res_name res_var =>
      Some (res_var, match Variable_get op_var ctx with
                     | Ok a_obj => getattr a_obj res_name
                     | Raise e => Raise e
                     end)
  | OpResultOpConstraint op_var res_var =>
      Some (res_var, match Variable_get op_var ctx with
                     | Ok op_result => get_op op_result
                     | Raise e => Raise e
                     end)
  | TypeConstraint _ _ | AttributeValueConstraint _ _ => None
  end.

(** [constraint.match(ctx)]. *)
Definition Constraint_match (c : Constraint) (ctx : MatchContext)
    : Result (bool * MatchContext) :=
  match c with
  | TypeConstraint var type =>
      match Variable_get var ctx with
      | Ok o => Ok (isinstance o type, ctx)
      | Raise e => Raise e
      end
  | AttributeValueConstraint attr_var attr =>
      match Variable_get attr_var ctx with
      | Ok a => Ok (PyVal_eq a (VAttribute attr), ctx)
      | Raise e => Raise e
      end
  | _ =>
      match binding c ctx with
      | Some (var, Ok val) => Ok (Variable_set var ctx val)
      | Some (_, Raise e) => Raise e
      | None => Raise AssertionError
      end
  end.

(** The loop of [Query.match]: [None] when a constraint answered [False]. *)
Fixpoint match_loop (cs : list Constraint) (ctx : MatchContext)
    : Result (option MatchContext) :=
  match cs with
  | [] => Ok (Some ctx)
  | c :: rest =>
      match Constraint_match c ctx with
      | Raise e => Raise e
      | Ok (false, _) => Ok None
      | Ok (true, ctx') => match_loop rest ctx'
      end
  end.

(** [{name: ctx.ctx[name] for name in var_names}].  Python walks the set of
    names in an order of its own; the name reported by [KeyError] is here
    the first unbound one in declaration order. *)
Fixpoint collect (vars : list QVariable) (ctx : MatchContext) : Result Match :=
  match vars with
  | [] => Ok ∅
  | v :: rest =>
      match ctx !! name v with
      | None => Raise (KeyError (name v))
      | Some x =>
          match collect rest ctx with
          | Ok m => Ok (<[name v := x]> m)
          | Raise e => Raise e
          end
      end
  end.

(** [Query.match]. *)
Definition Query_match (q : Query) (operation : Operation)
    : Result (option Match) :=
  let ctx : MatchContext := {["root" := VOperation operation]} in
  match match_loop (constraints q) ctx with
  | Raise e => Raise e
  | Ok None => Ok None
  | Ok (Some ctx) =>
      match collect (variables q) ctx with
      | Ok m => Ok (Some m)
      | Raise e => Raise e
      end
  end.
End Matcher.


(** * Properties *)

(** ** Sealed lists *)

Import IListModel.

(** Every overridden mutator raises on a frozen list, whatever its arguments. *)
Lemma frozen_call_raises {A} (eqb : A -> A -> bool) (l : IList A) (m : Mutation) :
  _frozen l = true -> call eqb l m = Raise (Exception frozen_msg).
Proof.
  intros Hf. destruct m; simpl;
    unfold append, extend, insert, remove, pop, clear; by rewrite Hf.
Qed.

(** A call that is refused leaves nothing behind: the only lists a call
    returns come from an unfrozen receiver. *)
Lemma call_ok_unfrozen {A} (eqb : A -> A -> bool) (l l' : IList A) (m : Mutation) :
  call eqb l m = Ok l' -> _frozen l = false.
Proof.
  destruct (_frozen l) eqn:Hf; [|done].
  by rewrite (frozen_call_raises eqb l m Hf).
Qed.

(** C2 (evaluation at the failing input): on the frozen list [[1; 2; 3]] the
    six overridden mutators raise "frozen list can not be modified", while
    the inherited [reverse], [__iadd__], [__delitem__] and [__setitem__]
    succeed and change the order, the length or an element of the sealed
    list. *)
Theorem frozen_list_still_mutable :
  let l := freeze (new [1; 2; 3]%Z) in
  (forall m, call Z.eqb l m = Raise (Exception frozen_msg)) /\
  reverse l = Ok (MkIList [3; 2; 1]%Z true) /\
  __iadd__ l [4%Z] = Ok (MkIList [1; 2; 3; 4]%Z true) /\
  __delitem__ l 0 = Ok (MkIList [2; 3]%Z true) /\
  __setitem__ l (-1) 7%Z = Ok (MkIList [1; 2; 7]%Z true).
Proof.
  repeat split. intros m. by apply frozen_call_raises.
Qed.

(** ** Identity and equality of immutable nodes *)


Lemma ISSAValue_eq_ikey (a b : ISSAValue) :
  ISSAValue_eq a b = true <-> ikey a = ikey b.
Proof.
  destruct a as [ta oa ia|xa], b as [tb ob ib|xb]; simpl;
    unfold IOp_eq, IBlockArg_eq;
    rewrite ?andb_true_iff, ?Nat.eqb_eq; split; try done;
    try (intros [-> ->]; done); intros [= ]; auto.
Qed.

(** The arguments [IBlock.__init__] makes from a sequence of types. *)
Lemma make_args_spec (types : list Attribute) (n : nat) (h : Heap) :
  exists l,
    mapS make_arg types n h
    = Ok ((l, n + length types), MkHeap (next_id h + length types) (stdout h))
    /\ map arg_typ l = types
    /\ map arg_index l = seq n (length types)
    /\ map arg_id l = seq (next_id h) (length types).
Proof.
  revert n h. induction types as [|t types IH]; intros n h.
  - exists []. simpl. unfold ret. rewrite !Nat.add_0_r. by destruct h.
  - destruct (IH (S n) (MkHeap (S (next_id h)) (stdout h))) as (l & Hl & Ht & Hi & Hd).
    exists (MkIBlockArg (next_id h) t n :: l). simpl in *.
    unfold bind at 1. unfold make_arg at 1, IBlockArg_init, bind, fresh, ret. simpl.
    unfold bind. rewrite Hl. simpl. unfold ret.
    rewrite Ht, Hi, Hd. repeat split; try done.
    do 2 f_equal; [f_equal; lia | f_equal; lia].
Qed.


(** ** The constraint matcher *)

Section MatcherFacts.
Context (getattr : PyVal -> string -> Result PyVal).

Lemma PyVal_eq_refl (x : PyVal) : PyVal_eq x x = true.
Proof.
  destruct x; simpl; rewrite ?Nat.eqb_refl; try done.
  unfold Attribute_eqb. by rewrite bool_decide_eq_true.
Qed.

Lemma PyVal_eq_sym (x y : PyVal) : PyVal_eq x y = PyVal_eq y x.
Proof.
  destruct x, y; simpl; try done; try apply Nat.eqb_sym.
  unfold Attribute_eqb. apply bool_decide_ext. naive_solver.
Qed.

Lemma PyVal_eq_trans (x y z : PyVal) :
  PyVal_eq x y = true -> PyVal_eq y z = true -> PyVal_eq x z = true.
Proof.
  destruct x, y, z; simpl; try done; rewrite ?Nat.eqb_eq; try congruence.
  unfold Attribute_eqb. rewrite !bool_decide_eq_true. congruence.
Qed.

Lemma Variable_set_mono (v : QVariable) (ctx ctx' : MatchContext) x b :
  Variable_set v ctx x = (b, ctx') -> ctx ⊆ ctx'.
Proof.
  unfold Variable_set. destruct (ctx !! name v) eqn:E; intros [= <- <-].
  - done.
  - by apply insert_subseteq.
Qed.

Lemma Constraint_match_mono (c : Constraint) (ctx ctx' : MatchContext) b :
  Constraint_match getattr c ctx = Ok (b, ctx') -> ctx ⊆ ctx'.
Proof.
  destruct c; simpl; intros H;
    repeat match type of H with
           | match ?x with _ => _ end = _ => destruct x eqn:?; try done
           end;
    try (injection H as <- <-; done);
    try (eapply Variable_set_mono; injection H as H; exact H).
Qed.

(** What a constraint that answered [True] has established about the
    variable it sets. *)
Lemma Constraint_match_binding (c : Constraint) (ctx ctx' : MatchContext) v r :
  binding getattr c ctx = Some (v, r) ->
  Constraint_match getattr c ctx = Ok (true, ctx') ->
  exists x y, r = Ok x /\ ctx' !! name v = Some y /\ PyVal_eq x y = true.
Proof.
  intros Hb Hm.
  assert (Constraint_match getattr c ctx =
          match r with
          | Ok val => Ok (Variable_set v ctx val)
          | Raise e => Raise e
          end) as Heq.
  { destruct c; simpl in *; try done; by injection Hb as <- <-. }
  rewrite Heq in Hm. destruct r as [x|]; [|done]. injection Hm as Hs.
  exists x.
  enough (exists y, ctx' !! name v = Some y /\ PyVal_eq x y = true)
    as (y & ? & ?); [by exists y|].
  unfold Variable_set in Hs. destruct (ctx !! name v) as [y|] eqn:E.
  - injection Hs as Hxy <-. eauto.
  - injection Hs as <-. exists x. rewrite lookup_insert_eq.
    eauto using PyVal_eq_refl.
Qed.

Lemma match_loop_app (l1 l2 : list Constraint) (ctx : MatchContext) :
  match_loop getattr (l1 ++ l2) ctx =
  match match_loop getattr l1 ctx with
  | Ok (Some mid) => match_loop getattr l2 mid
  | r => r
  end.
Proof.
  revert ctx. induction l1 as [|c l1 IH]; intros ctx; simpl; [done|].
  destruct (Constraint_match getattr c ctx) as [[[] ?]|]; auto.
Qed.

Lemma match_loop_mono (cs : list Constraint) (ctx ctx' : MatchContext) :
  match_loop getattr cs ctx = Ok (Some ctx') -> ctx ⊆ ctx'.
Proof.
  revert ctx. induction cs as [|c cs IH]; intros ctx; simpl.
  - by intros [= <-].
  - destruct (Constraint_match getattr c ctx) as [[[] mid]|] eqn:E; try done.
    intros H. etrans; [by eapply Constraint_match_mono | by apply IH].
Qed.

Lemma collect_spec (vars : list QVariable) (ctx : MatchContext) :
  match collect vars ctx with
  | Ok m => (forall v, v ∈ vars -> is_Some (ctx !! name v)) /\
            (forall k, m !! k = if bool_decide (k ∈ map name vars)
                                then ctx !! k else None)
  | Raise e => exists v, v ∈ vars /\ ctx !! name v = None /\ e = KeyError (name v)
  end.
Proof.
  induction vars as [|v vars IH]; simpl.
  - split; [by intros ? ?%elem_of_nil|]. intros k.
    by rewrite lookup_empty.
  - destruct (ctx !! name v) as [x|] eqn:E.
    + destruct (collect vars ctx) as [m|e].
      * destruct IH as [IH1 IH2]. split.
        -- intros w [->|?]%elem_of_cons; eauto.
        -- intros k. destruct (decide (k = name v)) as [->|Hne].
           ++ rewrite lookup_insert_eq, bool_decide_eq_true_2; [done|]. left.
           ++ rewrite lookup_insert_ne, IH2 by done.
              apply (f_equal (fun b : bool => if b then ctx !! k else None)).
              apply bool_decide_ext. rewrite elem_of_cons.
              split; [by right | by intros [?|?]].
      * destruct IH as (w & ? & ? & ->). exists w. split; [by right|done].
    + exists v. split; [left|done].
Qed.

(** C5 (as amended): [Query.match] answers [None] as soon as a constraint
    answers [False] after the earlier ones answered [True]; when every
    constraint answers [True] and a declared variable is left unbound it
    raises [KeyError] for an unbound declared name instead of answering
    [None]; when every declared variable is bound it answers the bindings
    of exactly the declared names. *)
Theorem Query_match_outcomes (q : Query) (operation : Operation) :
  let ctx0 : MatchContext := {["root" := VOperation operation]} in
  (forall pre c post ctx ctx',
      constraints q = pre ++ c :: post ->
      match_loop getattr pre ctx0 = Ok (Some ctx) ->
      Constraint_match getattr c ctx = Ok (false, ctx') ->
      Query_match getattr q operation = Ok None) /\
  (forall ctx v,
      match_loop getattr (constraints q) ctx0 = Ok (Some ctx) ->
      v ∈ variables q -> ctx !! name v = None ->
      exists w, w ∈ variables q /\ ctx !! name w = None /\
                Query_match getattr q operation = Raise (KeyError (name w))) /\
  (forall ctx,
      match_loop getattr (constraints q) ctx0 = Ok (Some ctx) ->
      (forall v, v ∈ variables q -> is_Some (ctx !! name v)) ->
      exists m, Query_match getattr q operation = Ok (Some m) /\
                forall k, m !! k = if bool_decide (k ∈ map name (variables q))
                                   then ctx !! k else None).
Proof.
  intros ctx0. repeat split.
  - intros pre c post ctx ctx' Hq Hpre Hc. unfold Query_match. fold ctx0.
    rewrite Hq, match_loop_app, Hpre. simpl. by rewrite Hc.
  - intros ctx v Hl Hv Hn. unfold Query_match. fold ctx0. rewrite Hl.
    pose proof (collect_spec (variables q) ctx) as Hc.
    destruct (collect (variables q) ctx) as [m|e].
    + destruct Hc as [Hc _]. destruct (Hc v Hv) as [? ?]. congruence.
    + destruct Hc as (w & ? & ? & ->). eauto.
  - intros ctx Hl Hb. unfold Query_match. fold ctx0. rewrite Hl.
    pose proof (collect_spec (variables q) ctx) as Hc.
    destruct (collect (variables q) ctx) as [m|e].
    + destruct Hc as [_ Hc]. eauto.
    + destruct Hc as (w & Hw & Hn & _). destruct (Hb w Hw) as [? ?]. congruence.
Qed.

(** C6: [set] binds an unbound variable and answers [True]; on a bound one
    it leaves the context alone and answers whether the new value equals
    the bound one.  Hence, when a query matches and two of its constraints
    set the same variable name, the values the two computed are equal. *)
Theorem Variable_set_unifies :
  (forall v ctx x, ctx !! name v = None ->
                   Variable_set v ctx x = (true, <[name v := x]> ctx)) /\
  (forall v ctx x y, ctx !! name v = Some y ->
                     Variable_set v ctx x = (PyVal_eq x y, ctx)) /\
  (forall q operation m pre c1 mid c2 post v1 v2,
      Query_match getattr q operation = Ok (Some m) ->
      constraints q = pre ++ c1 :: mid ++ c2 :: post ->
      fst <$> binding getattr c1 ∅ = Some v1 ->
      fst <$> binding getattr c2 ∅ = Some v2 ->
      name v1 = name v2 ->
      exists ctx1 ctx2 x1 x2,
        match_loop getattr pre {["root" := VOperation operation]} = Ok (Some ctx1) /\
        binding getattr c1 ctx1 = Some (v1, Ok x1) /\
        match_loop getattr (pre ++ c1 :: mid) {["root" := VOperation operation]}
          = Ok (Some ctx2) /\
        binding getattr c2 ctx2 = Some (v2, Ok x2) /\
        PyVal_eq x2 x1 = true).
Proof.
  repeat split.
  - intros v ctx x H. unfold Variable_set. by rewrite H.
  - intros v ctx x y H. unfold Variable_set. by rewrite H.
  - intros q operation m pre c1 mid c2 post v1 v2 Hm Hq Hb1 Hb2 Hn.
    unfold Query_match in Hm. rewrite Hq in Hm.
    set (ctx0 := {["root" := VOperation operation]} : MatchContext) in *.
    destruct (match_loop getattr (pre ++ c1 :: mid ++ c2 :: post) ctx0)
      as [[ctxf|]|] eqn:Hl; try done. clear Hm.
    rewrite match_loop_app in Hl.
    destruct (match_loop getattr pre ctx0) as [[ctx1|]|] eqn:Hpre; try done.
    simpl in Hl.
    destruct (Constraint_match getattr c1 ctx1) as [[[] ctx1']|] eqn:Hc1; try done.
    rewrite match_loop_app in Hl.
    destruct (match_loop getattr mid ctx1') as [[ctx2|]|] eqn:Hmid; try done.
    simpl in Hl.
    destruct (Constraint_match getattr c2 ctx2) as [[[] ctx2']|] eqn:Hc2; try done.
    assert (exists r1, binding getattr c1 ctx1 = Some (v1, r1)) as [r1 Hr1].
    { destruct c1; simpl in *; simplify_eq/=; eauto. }
    assert (exists r2, binding getattr c2 ctx2 = Some (v2, r2)) as [r2 Hr2].
    { destruct c2; simpl in *; simplify_eq/=; eauto. }
    destruct (Constraint_match_binding _ _ _ _ _ Hr1 Hc1) as (x1 & y1 & -> & Hy1 & E1).
    destruct (Constraint_match_binding _ _ _ _ _ Hr2 Hc2) as (x2 & y2 & -> & Hy2 & E2).
    exists ctx1, ctx2, x1, x2. repeat split; try done.
    + rewrite match_loop_app, Hpre. simpl. by rewrite Hc1.
    + assert (ctx2' !! name v1 = Some y1) as Hy1'.
      { eapply lookup_weaken; [exact Hy1|].
        etrans; [by eapply match_loop_mono | by eapply Constraint_match_mono]. }
      rewrite Hn in Hy1'. simplify_eq.
      eapply PyVal_eq_trans; [exact E2|]. by rewrite PyVal_eq_sym.
Qed.
End MatcherFacts.

(** *** The matcher on a concrete operation *)

Definition i32 : Attribute := MkAttribute "i32" [32%Z].

(** Accessors in the style of a binary arithmetic operation: [lhs], [rhs],
    [result], and the named attributes. *)
Definition example_getattr (obj : PyVal) (field : string) : Result PyVal :=
  match obj with
  | VOperation o =>
      if String.eqb field "lhs" then
        match Operation_operands o !! 0 with
        | Some v => Ok (VSSAValue v) | None => Raise (AttributeError field) end
      else if String.eqb field "rhs" then
        match Operation_operands o !! 1 with
        | Some v => Ok (VSSAValue v) | None => Raise (AttributeError field) end
      else if String.eqb field "result" then
        match Operation_results o !! 0 with
        | Some c => Ok (VSSAValue (Operation_result o 0 c))
        | None => Raise (AttributeError field) end
      else match Operation_attributes o !! field with
           | Some a => Ok (VAttribute a)
           | None => Raise (AttributeError field)
           end
  | _ => Raise (AttributeError field)
  end.

Definition example_arg (i : ident) (idx : nat) : SSAValue :=
  BlockArg (MkBlockArgument i i32 idx).

(** [addi(a, a)] and [addi(a, b)] on block arguments [a], [b]. *)
Definition addi_same : Operation :=
  MkOperation 10 (OpClass "arith.addi") [example_arg 1 0; example_arg 1 0]
              [MkOpResultCell 11 i32] [] ∅ [].

Definition addi_distinct : Operation :=
  MkOperation 20 (OpClass "arith.addi") [example_arg 1 0; example_arg 2 1]
              [MkOpResultCell 21 i32] [] ∅ [].

Definition root_var : QVariable := MkVariable "root".
Definition x_var : QVariable := MkVariable "x".

(** Both operands of the root must be the value [x]. *)
Definition same_operands_query : Query :=
  MkQuery [root_var; x_var]
          [TypeConstraint root_var (ClsOp (OpClass "arith.addi"));
           OperationOperandConstraint root_var "lhs" x_var;
           OperationOperandConstraint root_var "rhs" x_var].

(** A declared variable that no constraint binds. *)
Definition unbound_query : Query :=
  MkQuery [root_var; x_var]
          [TypeConstraint root_var (ClsOp (OpClass "arith.addi"))].

(** C5 (counterexample): with the declared variable [x] left unbound after
    every constraint answered [True], [Query.match] raises [KeyError]; it
    does not answer [None]. *)
Lemma Query_match_unbound_raises :
  (exists ctx,
      match_loop example_getattr (constraints unbound_query)
                 {["root" := VOperation addi_same]} = Ok (Some ctx)
      /\ ctx !! "x" = None) /\
  Query_match example_getattr unbound_query addi_same = Raise (KeyError "x") /\
  Query_match example_getattr unbound_query addi_same <> Ok None.
Proof.
  split; [|split].
  - eexists. split; [reflexivity|]. by vm_compute.
  - by vm_compute.
  - by vm_compute.
Qed.

(** C5 (witness): a constraint that answers [False] gives [None]; the
    unbound variable gives [KeyError]; a full binding gives the match. *)
Lemma Query_match_outcomes_witness :
  Query_match example_getattr same_operands_query addi_distinct = Ok None /\
  (exists w, w ∈ variables unbound_query /\
             Query_match example_getattr unbound_query addi_same
             = Raise (KeyError (name w))) /\
  (exists m, Query_match example_getattr same_operands_query addi_same = Ok (Some m)
             /\ m !! "x" = Some (VSSAValue (example_arg 1 0))).
Proof.
  split; [|split].
  - pose proof (Query_match_outcomes example_getattr same_operands_query
                  addi_distinct) as (H & _ & _).
    eapply (H [TypeConstraint root_var (ClsOp (OpClass "arith.addi"));
               OperationOperandConstraint root_var "lhs" x_var]
              (OperationOperandConstraint root_var "rhs" x_var) []);
      [reflexivity | reflexivity | reflexivity].
  - pose proof (Query_match_outcomes example_getattr unbound_query addi_same)
      as (_ & H & _).
    destruct (H {["root" := VOperation addi_same]} x_var) as (w & Hw & _ & Hr);
      [reflexivity | set_solver | by vm_compute |].
    by exists w.
  - pose proof (Query_match_outcomes example_getattr same_operands_query addi_same)
      as (_ & _ & H).
    destruct (H (<["x" := VSSAValue (example_arg 1 0)]>
                   {["root" := VOperation addi_same]})) as (m & Hm & Hk).
    + reflexivity.
    + intros v Hv. apply list_elem_of_In in Hv. simpl in Hv.
      destruct Hv as [<-|[<-|[]]]; eexists; reflexivity.
    + exists m. split; [done|]. rewrite Hk. by vm_compute.
Defined.

(** C6 (witness): the query that sets [x] from both operands matches
    [addi(a, a)], and the two values it computed are equal. *)
Lemma Variable_set_unifies_witness :
  exists ctx1 ctx2 x1 x2,
    match_loop example_getattr
      [TypeConstraint root_var (ClsOp (OpClass "arith.addi"))]
      {["root" := VOperation addi_same]} = Ok (Some ctx1) /\
    binding example_getattr (OperationOperandConstraint root_var "lhs" x_var) ctx1
      = Some (x_var, Ok x1) /\
    match_loop example_getattr
      ([TypeConstraint root_var (ClsOp (OpClass "arith.addi"))]
         ++ OperationOperandConstraint root_var "lhs" x_var :: [])
      {["root" := VOperation addi_same]} = Ok (Some ctx2) /\
    binding example_getattr (OperationOperandConstraint root_var "rhs" x_var) ctx2
      = Some (x_var, Ok x2) /\
    PyVal_eq x2 x1 = true.
Proof.
  pose proof (Variable_set_unifies example_getattr) as (_ & _ & H).
  eapply (H same_operands_query addi_same _
            [TypeConstraint root_var (ClsOp (OpClass "arith.addi"))]
            (OperationOperandConstraint root_var "lhs" x_var) []
            (OperationOperandConstraint root_var "rhs" x_var) []);
    by vm_compute.
Defined.

(** The same query on [addi(a, b)]: the second [set] disagrees with the
    first, and the query does not match. *)
Lemma disagreeing_bindings_do_not_match :
  Query_match example_getattr same_operands_query addi_distinct = Ok None.
Proof. reflexivity. Qed.

(** ** The rewrite combinators *)

(** The value an operand stands for before [env] is consulted. *)
Definition operand_value (x : Operand) : Result ISSAValue :=
  match x with
  | OpndValue v => Ok v
  | OpndOp o =>
      match IOp_result o with Some r => Ok r | None => Raise AssertionError end
  | OpndList ops =>
      match last ops with
      | None => Raise (IndexError "list index out of range")
      | Some l =>
          match IOp_result l with Some r => Ok r | None => Raise AssertionError end
      end
  end.

(** The ops an operand adds to [rewritten_ops]. *)
Definition push_operand (rewritten_ops : list IOp) (x : Operand) : list IOp :=
  match x with
  | OpndList ops => fold_left push_front (rev ops) rewritten_ops
  | _ => rewritten_ops
  end.

(** An operand the loop body accepts. *)
Definition operand_ok (env : Env) (x : Operand) : Prop :=
  exists v v', operand_value x = Ok v /\ resolve_operand env v = Ok v'.

Lemma unpack_step_eq (env : Env) (x : Operand) (u : list ISSAValue) (r : list IOp) :
  unpack_step env x (u, r) =
  match operand_value x with
  | Raise e => Raise e
  | Ok v => match resolve_operand env v with
            | Raise e => Raise e
            | Ok v' => Ok (u ++ [v'], push_operand r x)
            end
  end.
Proof.
  unfold unpack_step, operand_value, push_operand.
  destruct x as [v|o|ops]; try done.
  - by destruct (IOp_result o).
  - destruct (last ops) as [l|]; [|done]. by destruct (IOp_result l).
Qed.

Lemma unpack_loop_ok (env : Env) (xs : list Operand) (u : list ISSAValue)
    (r : list IOp) :
  Forall (operand_ok env) xs ->
  exists vs,
    unpack_loop env xs (u, r) = Ok (u ++ vs, fold_left push_operand xs r) /\
    Forall2 (fun x v' => exists v, operand_value x = Ok v
                                   /\ resolve_operand env v = Ok v') xs vs.
Proof.
  intros H. revert u r. induction H as [|x xs (v & v' & Hv & Hv') _ IH]; intros u r.
  - exists []. simpl. by rewrite app_nil_r.
  - destruct (IH (u ++ [v']) (push_operand r x)) as (vs & E & F).
    exists (v' :: vs). cbn [unpack_loop]. rewrite unpack_step_eq, Hv, Hv', E.
    rewrite <- app_assoc. split; [done|]. constructor; eauto.
Qed.

Lemma unpack_loop_inv (env : Env) (xs : list Operand) (u u' : list ISSAValue)
    (r r' : list IOp) :
  unpack_loop env xs (u, r) = Ok (u', r') ->
  Forall (operand_ok env) xs /\ r' = fold_left push_operand xs r.
Proof.
  revert u r. induction xs as [|x xs IH]; intros u r; cbn [unpack_loop].
  - intros [= <- <-]. by split.
  - rewrite unpack_step_eq.
    destruct (operand_value x) as [v|] eqn:Hv; [|done].
    destruct (resolve_operand env v) as [v'|] eqn:Hv'; [|done].
    intros H. destruct (IH _ _ H) as [HF ->]. split; [|done].
    constructor; [by exists v, v'|done].
Qed.

(** [record_results] written as the updates it performs. *)
Definition record_all (old_results new_results : list ISSAValue) (env : Env) : Env :=
  fold_left (fun e '(old, r) => <[ikey old := r]> e) (zip old_results new_results) env.

Lemma record_results_ok (old_results new_results : list ISSAValue) (env : Env) :
  length new_results <= length old_results ->
  record_results old_results new_results env
  = Ok (record_all old_results new_results env).
Proof.
  revert old_results env.
  induction new_results as [|r new_results IH]; intros [|o old_results] env Hl;
    simpl in *; try done; try lia.
  unfold record_all. simpl. apply IH. lia.
Qed.

Lemma IOp_results_length (o : IOp) : length (IOp_results o) = length (IOp_result_types o).
Proof. unfold IOp_results. by rewrite length_imap. Qed.

(** What [from_op] returns once its operands have been unpacked. *)
Lemma from_op_ok (old_op : IOp) operands result_types attributes successors regions
    (env : option Env) (h : Heap) unpacked rewritten :
  _unpack_operands (default (map OpndValue (IOp_operands old_op)) operands) env
    = Ok (unpacked, rewritten) ->
  (env = None \/
   length (default (IOp_result_types old_op) result_types)
     <= length (IOp_result_types old_op)) ->
  let data := match attributes with
              | None => IOp_op_data old_op
              | Some a => MkOpData (next_id h) (IOp_name old_op) (IOp_op_type old_op) a
              end in
  let i := match attributes with None => next_id h | Some _ => S (next_id h) end in
  let o := MkIOp i data unpacked (default (IOp_result_types old_op) result_types)
                 (default (IOp_successors old_op) successors)
                 (default (IOp_regions old_op) regions) in
  from_op old_op operands result_types attributes successors regions env h
  = Ok ((rewritten ++ [o],
         (fun e => record_all (IOp_results old_op) (IOp_results o) e) <$> env),
        MkHeap (S i) (stdout h)).
Proof.
  intros Hu Hl. unfold from_op. cbv zeta. unfold bind at 1. unfold lift at 1.
  rewrite Hu. unfold bind at 1.
  destruct attributes as [a|]; simpl.
  - unfold IOp_get, IOp_init, bind, fresh, ret. simpl.
    destruct env as [e|]; simpl; [|done].
    unfold bind, lift. rewrite record_results_ok; [done|].
    rewrite !IOp_results_length. simpl. by destruct Hl.
  - unfold IOp_init, bind, fresh, ret. simpl.
    destruct env as [e|]; simpl; [|done].
    unfold bind, lift. rewrite record_results_ok; [done|].
    rewrite !IOp_results_length. simpl. by destruct Hl.
Qed.

(** What [new_op] returns once its operands have been unpacked. *)
Lemma new_op_ok (op_type : OpType) operands result_types attributes successors
    regions (h : Heap) unpacked rewritten :
  _unpack_operands (default [] operands) None = Ok (unpacked, rewritten) ->
  new_op op_type operands result_types attributes successors regions h
  = Ok (rewritten ++
          [MkIOp (S (next_id h))
             (MkOpData (next_id h) (OpType_name op_type) op_type (default ∅ attributes))
             unpacked (default [] result_types) (default [] successors)
             (default [] regions)],
        MkHeap (S (S (next_id h))) (stdout h)).
Proof.
  intros Hu. unfold new_op. cbv zeta. unfold bind at 1, lift at 1. by rewrite Hu.
Qed.


(** With [attributes] given, the record is a new instance instead. *)
Lemma from_op_new_op_data (old_op : IOp) operands result_types attributes
    successors regions (h : Heap) unpacked rewritten :
  _unpack_operands (default (map OpndValue (IOp_operands old_op)) operands) None
    = Ok (unpacked, rewritten) ->
  exists o h',
    from_op old_op operands result_types (Some attributes) successors regions None h
      = Ok ((rewritten ++ [o], None), h') /\
    od_id (IOp_op_data o) = next_id h /\
    IOp_attributes o = attributes /\
    IOp_name o = IOp_name old_op /\ IOp_op_type o = IOp_op_type old_op.
Proof.
  intros Hu.
  pose proof (from_op_ok old_op operands result_types (Some attributes) successors
                regions None h unpacked rewritten Hu (or_introl eq_refl)) as E.
  cbv zeta in E. do 2 eexists. split; [exact E|]. by repeat split.
Qed.

(** The nesting of producers below an op's operands; an operand's producer
    lies strictly below the op that uses it. *)
Fixpoint IOp_height (o : IOp) : nat :=
  match o with
  | MkIOp _ _ operands _ _ _ =>
      S (foldr (fun v acc =>
                  Nat.max (match v with
                           | IResult _ p _ => IOp_height p
                           | IArg _ => 0
                           end) acc) 0 operands)
  end.

Lemma IOp_height_operand (o p : IOp) t i :
  IResult t p i ∈ IOp_operands o -> IOp_height p < IOp_height o.
Proof.
  destruct o as [? ? operands ? ? ?]. simpl. intros H.
  apply Nat.lt_succ_r. induction operands as [|v operands IH]; [by apply elem_of_nil in H|].
  apply elem_of_cons in H as [<-|H]; simpl; [lia|]. specialize (IH H). lia.
Qed.

Lemma operand_not_own_result (o : IOp) t i : IResult t o i ∉ IOp_operands o.
Proof. intros H%IOp_height_operand. lia. Qed.

Lemma resolve_operand_RewriteId (env : Env) (v : ISSAValue) t r i :
  default v (env !! ikey v) = IResult t r i ->
  IOp_op_type r = RewriteId ->
  resolve_operand env v =
  match last (IOp_operands r) with
  | Some w => Ok w
  | None => Raise (IndexError "list index out of range")
  end.
Proof.
  intros Hd Ht. unfold resolve_operand.
  replace (match env !! ikey v with Some v0 => v0 | None => v end)
    with (IResult t r i) by (by destruct (env !! ikey v)).
  rewrite Ht. unfold OpType_eqb. by rewrite bool_decide_eq_true_2.
Qed.

(** C10: an operand that resolves (after [env]) to a result of an op of kind
    [RewriteId] is replaced by the last operand of that op: that is what
    [_unpack_operands] hands back at its position, and what the op built by
    [new_op] or [from_op] holds there; it is not the [RewriteId] result. *)
Theorem RewriteId_operand_forwarded (operands : list Operand) (env : option Env)
    (k : nat) (x : Operand) (v : ISSAValue) t (r : IOp) i :
  Forall (operand_ok (default ∅ env)) operands ->
  operands !! k = Some x ->
  operand_value x = Ok v ->
  default v (default ∅ env !! ikey v) = IResult t r i ->
  IOp_op_type r = RewriteId ->
  exists unpacked rewritten w,
    _unpack_operands operands env = Ok (unpacked, rewritten) /\
    last (IOp_operands r) = Some w /\
    unpacked !! k = Some w /\
    w <> IResult t r i /\
    (forall op_type result_types attributes successors regions h,
        env = None ->
        exists o h',
          new_op op_type (Some operands) result_types attributes successors regions h
            = Ok (rewritten ++ [o], h') /\
          IOp_operands o !! k = Some w) /\
    (forall old_op result_types attributes successors regions h,
        env = None \/
        length (default (IOp_result_types old_op) result_types)
          <= length (IOp_result_types old_op) ->
        exists o env' h',
          from_op old_op (Some operands) result_types attributes successors regions
                  env h = Ok ((rewritten ++ [o], env'), h') /\
          IOp_operands o !! k = Some w).
Proof.
  intros HF Hk Hv Hd Ht.
  destruct (unpack_loop_ok _ _ [] [] HF) as (vs & E & F2).
  simpl in E.
  destruct (Forall2_lookup_l _ _ _ _ _ F2 Hk) as (w & Hw & v0 & Hv0 & Hr).
  rewrite Hv in Hv0. injection Hv0 as <-.
  rewrite (resolve_operand_RewriteId _ _ _ _ _ Hd Ht) in Hr.
  destruct (last (IOp_operands r)) as [w'|] eqn:Hl; [|done]. injection Hr as ->.
  exists vs, (fold_left push_operand operands []), w.
  split; [exact E|]. split; [done|]. split; [done|]. split.
  { intros ->. apply (operand_not_own_result r t i).
    apply last_Some in Hl as [l' ->]. set_solver. }
  split.
  - intros op_type result_types attributes successors regions h ->.
    do 2 eexists. split; [by apply new_op_ok|]. done.
  - intros old_op result_types attributes successors regions h Hlen.
    pose proof (from_op_ok old_op (Some operands) result_types attributes successors
                  regions env h _ _ E Hlen) as E'.
    cbv zeta in E'. do 3 eexists. split; [exact E'|]. done.
Qed.

(** *** The combinators on concrete operations *)

Definition const_attrs : gmap string Attribute := {["value" := MkAttribute "int" [7%Z]]}.

(** [c = arith.constant], [rid = rewrite.id(c)], both with one result. *)
Definition const_op : IOp :=
  MkIOp 2 (MkOpData 1 "arith.constant" (OpClass "arith.constant") const_attrs)
        [] [i32] [] [].

Definition rid_op : IOp :=
  MkIOp 4 (MkOpData 3 "rewrite.id" RewriteId ∅) [IResult i32 const_op 0] [i32] [] [].

Definition neg_op : IOp :=
  MkIOp 6 (MkOpData 5 "arith.neg" (OpClass "arith.neg") ∅)
        [IResult i32 const_op 0] [i32] [] [].

Definition heap0 : Heap := MkHeap 100 [].


(** C10 (witness): [neg(rid(c))] is built as [neg(c)]. *)
Lemma RewriteId_operand_forwarded_witness :
  exists unpacked rewritten w,
    _unpack_operands [OpndOp rid_op] None = Ok (unpacked, rewritten) /\
    last (IOp_operands rid_op) = Some w /\
    unpacked !! 0 = Some w /\
    w <> IResult i32 rid_op 0 /\
    (forall op_type result_types attributes successors regions h,
        @None Env = None ->
        exists o h',
          new_op op_type (Some [OpndOp rid_op]) result_types attributes successors
                 regions h = Ok (rewritten ++ [o], h') /\
          IOp_operands o !! 0 = Some w) /\
    (forall old_op result_types attributes successors regions h,
        @None Env = None \/
        length (default (IOp_result_types old_op) result_types)
          <= length (IOp_result_types old_op) ->
        exists o env' h',
          from_op old_op (Some [OpndOp rid_op]) result_types attributes successors
                  regions None h = Ok ((rewritten ++ [o], env'), h') /\
          IOp_operands o !! 0 = Some w).
Proof.
  apply (RewriteId_operand_forwarded [OpndOp rid_op] None 0 (OpndOp rid_op)
           (IResult i32 rid_op 0) i32 rid_op 0).
  - constructor; [|constructor].
    exists (IResult i32 rid_op 0), (IResult i32 const_op 0). by split.
  - reflexivity.
  - reflexivity.
  - reflexivity.
  - reflexivity.
Defined.

(** *** The list of operations to insert *)

Definition ids (l : list IOp) : list ident := map IOp_id l.

(** The ops handed over in the list operands. *)
Definition list_ops (xs : list Operand) : list IOp :=
  concat (map (fun x => match x with OpndList ops => ops | _ => [] end) xs).

(** The identities of the ops whose results [o] has as operands. *)
Definition operand_producers (o : IOp) : list ident :=
  omap (fun v => match v with
                 | IResult _ q _ => Some (IOp_id q)
                 | IArg _ => None
                 end) (IOp_operands o).

(** [a] references a result of the op with identity [p]: [a], or an op
    nested in its regions, has such a result as operand. *)
Definition references (a : IOp) (p : ident) : Prop :=
  exists b, b ∈ IOp_walk (fun o acc => acc ++ [o]) a [] /\ p ∈ operand_producers b.

Section Ordering.
(** [S]: the identities of the ops that are being inserted. *)
Variable S : ident -> Prop.




End Ordering.

(** A list operand is self-contained with respect to [S]: each of its ops
    finds the ops of [S] it references earlier in the same list. *)
Definition self_contained (S : ident -> Prop) (L : list IOp) : Prop :=
  forall l1 x l2, L = l1 ++ x :: l2 ->
    forall p, references x p -> S p -> p ∈ ids l1.















(** The walk of an op without regions visits the op alone. *)
Lemma references_leaf (a : IOp) (p : ident) :
  IOp_regions a = [] -> references a p -> p ∈ operand_producers a.
Proof.
  destruct a as [? ? ? ? ? regions]. simpl. intros -> (b & Hb & Hp).
  simpl in Hb. by apply list_elem_of_singleton in Hb as ->.
Qed.


(** The list operand of the witness is self-contained. *)
Lemma witness_list_self_contained :
  self_contained (fun p => p ∈ ids (list_ops [OpndList [const_op; neg_op]]))
                 [const_op; neg_op].
Proof.
  intros l1 x l2 E p Hp _.
  destruct l1 as [|y [|z l1]]; simpl in E.
  - injection E as <- _. apply references_leaf in Hp; [|done].
    by apply elem_of_nil in Hp.
  - injection E as <- <- _. apply references_leaf in Hp; [|done].
    apply list_elem_of_In in Hp. simpl in Hp. destruct Hp as [<-|[]]. left.
  - injection E as _ _ E. by destruct l1.
Qed.

(** ** Reasoning about the allocator monad *)

Lemma bind_eq {A B} (m : M A) (f : A -> M B) (h : Heap) :
  bind m f h = match m h with
               | Ok (a, h') => f a h'
               | Raise e => Raise e
               end.
Proof. done. Qed.

Lemma bind_ext {A B} (m : M A) (f g : A -> M B) (h : Heap) :
  (forall a h', f a h' = g a h') -> bind m f h = bind m g h.
Proof. intros E. unfold bind. destruct (m h) as [[a h']|]; auto. Qed.

Lemma bind_Ok {A B} (m : M A) (f : A -> M B) (h : Heap) (r : B * Heap) :
  bind m f h = Ok r <-> exists a h', m h = Ok (a, h') /\ f a h' = Ok r.
Proof.
  unfold bind. destruct (m h) as [[a h']|]; split.
  - eauto.
  - by intros (? & ? & [= <- <-] & ?).
  - done.
  - by intros (? & ? & ? & ?).
Qed.

Lemma mapS_ext {A B S} (f g : A -> S -> M (B * S)) (l : list A) (s : S) (h : Heap) :
  (forall x s h, x ∈ l -> f x s h = g x s h) -> mapS f l s h = mapS g l s h.
Proof.
  revert s h. induction l as [|x l IH]; intros s h E; simpl; [done|].
  unfold bind. rewrite E by left. destruct (g x s h) as [[[y s1] h1]|]; [|done].
  rewrite IH; [done|]. intros. apply E. by right.
Qed.

Lemma mapS_app {A B S} (f : A -> S -> M (B * S)) (l1 l2 : list A) (s : S) (h : Heap) :
  mapS f (l1 ++ l2) s h =
  match mapS f l1 s h with
  | Ok ((ys1, s1), h1) =>
      match mapS f l2 s1 h1 with
      | Ok ((ys2, s2), h2) => Ok ((ys1 ++ ys2, s2), h2)
      | Raise e => Raise e
      end
  | Raise e => Raise e
  end.
Proof.
  revert s h. induction l1 as [|x l1 IH]; intros s h; simpl.
  - unfold ret. by destruct (mapS f l2 s h) as [[[? ?] ?]|].
  - unfold bind, ret. destruct (f x s h) as [[[y s1] h1]|]; [|done].
    rewrite IH. destruct (mapS f l1 s1 h1) as [[[ys1 s2] h2]|]; [|done].
    by destruct (mapS f l2 s2 h2) as [[[? ?] ?]|].
Qed.

(** A loop whose body keeps an invariant of the state and relates each
    element with what it made of it. *)
Lemma mapS_inv {A B S} (f : A -> S -> M (B * S)) (P : S -> Heap -> Prop)
    (Q : A -> B -> Prop) (l : list A) :
  (forall x s h y s' h', x ∈ l -> P s h -> f x s h = Ok ((y, s'), h') ->
                         P s' h' /\ Q x y) ->
  forall s h ys s' h',
    P s h -> mapS f l s h = Ok ((ys, s'), h') -> P s' h' /\ Forall2 Q l ys.
Proof.
  induction l as [|x l IH]; intros Hf s h ys s' h' HP; simpl.
  - intros [= <- <- <-]. by split.
  - intros ([y s1] & h1 & E1 & E2)%bind_Ok.
    apply bind_Ok in E2 as ([ys' s2] & h2 & E2 & [= <- <- <-]).
    destruct (Hf x s h y s1 h1) as [HP1 HQ]; [left|done|done|].
    assert (forall x s h y s' h', x ∈ l -> P s h -> f x s h = Ok ((y, s'), h') ->
                                  P s' h' /\ Q x y) as Hf'.
    { intros. eapply Hf; [by right|done|done]. }
    destruct (IH Hf' s1 h1 ys' s2 h2 HP1 E2) as [HP2 HF].
    split; [done|]. by constructor.
Qed.

(** ** Reconstruction of a mutable operation *)

(** [IBlock.get_mutable_copy] and [IRegion.get_mutable_copy] on given dicts. *)
Definition IBlock_get_mutable_copy_maps (b : IBlock)
    (maps : ValueMapping * BlockMapping) : M (Block * (ValueMapping * BlockMapping)) :=
  IBlock_get_mutable_copy_with IOp_get_mutable_copy_maps
    (IBlock_id b) (IBlock_args b) (IBlock_ops b) maps.

Definition IRegion_get_mutable_copy_maps (r : IRegion)
    (maps : ValueMapping * BlockMapping) : M (Region * (ValueMapping * BlockMapping)) :=
  let* (mutable_blocks, maps) :=
    mapS IBlock_get_mutable_copy_maps (IRegion_blocks r) maps in
  let* r := Region_from_block_list mutable_blocks in
  ret (r, maps).

(** The results of the new op, recorded for the old ones. *)
Definition record_mutable_results (self : IOp) (new_op : Operation)
    (value_mapping : ValueMapping) : ValueMapping :=
  fold_left (fun vm '(result, m_result) => <[ikey result := m_result]> vm)
            (zip (IOp_results self)
                 (imap (Operation_result new_op) (Operation_results new_op)))
            value_mapping.

Lemma IOp_get_mutable_copy_maps_eq i d operands result_types successors regions
    (vm : ValueMapping) (bm : BlockMapping) (h : Heap) :
  let self := MkIOp i d operands result_types successors regions in
  IOp_get_mutable_copy_maps self (vm, bm) h =
  (let* (mutable_operands, _) := mapS (mutable_operand (od_name d) vm) operands tt in
   let* (mutable_successors, _) := mapS (mutable_successor bm) successors tt in
   let* (mutable_regions, maps) :=
     mapS IRegion_get_mutable_copy_maps regions (vm, bm) in
   let* new_op := Operation_create (od_op_type d) mutable_operands result_types
                                   (od_attributes d) mutable_successors
                                   mutable_regions in
   ret (new_op, (record_mutable_results self new_op maps.1, maps.2))) h.
Proof.
  intros self. cbn [IOp_get_mutable_copy_maps].
  apply bind_ext. intros [mo []] h1. apply bind_ext. intros [ms []] h2.
  unfold bind at 1 3.
  rewrite (mapS_ext _ IRegion_get_mutable_copy_maps); [done|].
  intros [rid blocks] maps h3 _. unfold IRegion_get_mutable_copy_maps. simpl.
  unfold bind at 1 3.
  rewrite (mapS_ext _ IBlock_get_mutable_copy_maps); [done|].
  by intros [bid bargs bops] maps' h4 _.
Qed.

(** What the loop over the operands puts in place of one operand. *)
Definition operand_copy (vm : ValueMapping) (operand : ISSAValue) (m : SSAValue) : Prop :=
  match vm !! ikey operand with
  | Some v => m = v
  | None => exists i, m = OpResult i (ISSAValue_typ operand) None 0
  end.

(** An operand that [value_mapping] does not know. *)
Definition unresolved (vm : ValueMapping) (operand : ISSAValue) : bool :=
  match vm !! ikey operand with
  | None => true
  | Some _ => false
  end.

Definition diagnostic (op_name : string) : string :=
  "ERROR: op " +:+ op_name +:+ " uses SSAValue before definition".

(** The loop over the operands never raises. *)
Lemma mutable_operands_ok (op_name : string) (vm : ValueMapping)
    (operands : list ISSAValue) (h : Heap) :
  exists vs h',
    mapS (mutable_operand op_name vm) operands tt h = Ok ((vs, tt), h') /\
    Forall2 (operand_copy vm) operands vs /\
    stdout h' = stdout h ++
      map (fun _ => diagnostic op_name)
          (List.filter (unresolved vm) operands) /\
    next_id h <= next_id h'.
Proof.
  revert h. induction operands as [|x operands IH]; intros h.
  - exists [], h. simpl. rewrite app_nil_r. by repeat split.
  - simpl. unfold bind at 1. unfold mutable_operand at 1, operand_copy.
    destruct (vm !! ikey x) as [v|] eqn:Ex.
    + destruct (IH h) as (vs & h' & E & F & Ho & Hn).
      exists (v :: vs), h'. unfold ret at 1. unfold bind. rewrite E. unfold ret.
      split; [done|]. split.
      * constructor; [|done]. unfold operand_copy. by rewrite Ex.
      * simpl. unfold unresolved at 1. rewrite Ex. by split.
    + unfold bind at 1 2, print, fresh, ret at 1. simpl.
      destruct (IH (MkHeap (S (next_id h)) (stdout h ++ [diagnostic op_name])))
        as (vs & h' & E & F & Ho & Hn).
      eexists (_ :: vs), h'. unfold bind. unfold diagnostic in E. rewrite E. unfold ret.
      split; [done|]. split.
      * constructor; [|done]. unfold operand_copy. rewrite Ex. eauto.
      * simpl List.filter. unfold unresolved at 1. rewrite Ex.
        simpl in *. rewrite Ho, <- app_assoc. split; [done|lia].
Qed.

(** The loop over the successors raises at the first block that is not in
    [block_mapping], and allocates nothing. *)
Lemma mutable_successors_spec (bm : BlockMapping) (successors : list IBlock) (h : Heap) :
  match mapS (mutable_successor bm) successors tt h with
  | Ok ((bs, _), h') =>
      h' = h /\ Forall2 (fun s b => bm !! IBlock_id s = Some b) successors bs
  | Raise e =>
      e = Exception "Block used before definition" /\
      exists s, s ∈ successors /\ bm !! IBlock_id s = None
  end.
Proof.
  induction successors as [|s successors IH]; simpl; [by split|].
  unfold bind at 1. unfold mutable_successor at 1.
  destruct (bm !! IBlock_id s) as [b|] eqn:Es.
  - unfold ret at 1. unfold bind.
    destruct (mapS (mutable_successor bm) successors tt h) as [[[bs []] h']|e].
    + destruct IH as [-> IH]. split; [done|]. by constructor.
    + destruct IH as [-> (s' & ? & ?)]. split; [done|]. exists s'. split; [by right|done].
  - unfold raise. split; [done|]. exists s. split; [left|done].
Qed.

(** [Operation.create] never raises: one identity for the op, then one per
    result. *)
Lemma make_results_ok (types : list Attribute) (h : Heap) :
  mapS make_result types tt h
  = Ok ((imap (fun k t => MkOpResultCell (next_id h + k) t) types, tt),
        MkHeap (next_id h + length types) (stdout h)).
Proof.
  revert h. induction types as [|t types IH]; intros h; simpl.
  - unfold ret. rewrite Nat.add_0_r. by destruct h.
  - unfold bind at 1. unfold make_result at 1, bind, fresh, ret. simpl.
    unfold bind. rewrite IH. simpl. unfold ret. rewrite Nat.add_0_r.
    do 3 f_equal.
    + f_equal. apply imap_ext. intros k t' _. simpl. f_equal. lia.
    + f_equal. lia.
Qed.

Lemma Operation_create_ok op_type operands result_types attributes successors
    regions (h : Heap) :
  Operation_create op_type operands result_types attributes successors regions h
  = Ok (MkOperation (next_id h) op_type operands
          (imap (fun k t => MkOpResultCell (S (next_id h) + k) t) result_types)
          successors attributes regions,
        MkHeap (S (next_id h) + length result_types) (stdout h)).
Proof.
  unfold Operation_create, bind, fresh. rewrite make_results_ok. done.
Qed.


(** An op that branches to a block. *)
Definition target_block : IBlock := MkIBlock 7 [] [].

Definition br_op : IOp :=
  MkIOp 9 (MkOpData 8 "cf.br" (OpClass "cf.br") ∅) [] [] [target_block] [].



(** ** Structural induction through regions and blocks *)

(** The ops an op holds in its regions, in order. *)
Definition IOp_children (o : IOp) : list IOp :=
  concat (map (fun r => concat (map IBlock_ops (IRegion_blocks r))) (IOp_regions o)).

Lemma IOp_nested_ind (P : IOp -> Prop) :
  (forall i d operands result_types successors regions,
      Forall (fun r => Forall (fun b => Forall P (IBlock_ops b)) (IRegion_blocks r))
             regions ->
      P (MkIOp i d operands result_types successors regions)) ->
  forall o, P o.
Proof.
  intros H. fix IH 1. intros [i d operands result_types successors regions].
  apply H. induction regions as [|[rid blocks] regions IHr]; constructor; [|done].
  simpl. induction blocks as [|[bid bargs bops] blocks IHb]; constructor; [|done].
  simpl. induction bops as [|o bops IHo]; constructor; [apply IH | done].
Qed.

(** The ops a walk visits, in order. *)
Fixpoint walk_list (o : IOp) : list IOp :=
  o :: concat (map (fun r =>
         concat (map (fun b => concat (map walk_list (IBlock_ops b)))
                     (IRegion_blocks r))) (IOp_regions o)).

Definition block_walk_list (b : IBlock) : list IOp :=
  concat (map walk_list (IBlock_ops b)).

Definition region_walk_list (r : IRegion) : list IOp :=
  concat (map block_walk_list (IRegion_blocks r)).

Lemma walk_list_eq (o : IOp) :
  walk_list o = o :: concat (map region_walk_list (IOp_regions o)).
Proof. by destruct o. Qed.

Lemma fold_left_ext_in {A B} (f g : B -> A -> B) (l : list A) (s : B) :
  (forall x s, x ∈ l -> f s x = g s x) -> fold_left f l s = fold_left g l s.
Proof.
  revert s. induction l as [|x l IH]; intros s E; simpl; [done|].
  rewrite E by left. apply IH. intros. apply E. by right.
Qed.

Lemma fold_left_concat_map {A B S} (g : B -> list A) (f : S -> A -> S)
    (F : S -> B -> S) (l : list B) (s : S) :
  (forall x s, x ∈ l -> F s x = fold_left f (g x) s) ->
  fold_left F l s = fold_left f (concat (map g l)) s.
Proof.
  revert s. induction l as [|x l IH]; intros s E; simpl; [done|].
  rewrite fold_left_app, E by left. apply IH. intros. apply E. by right.
Qed.

Lemma IOp_walk_regions_eq {S} (fn : IOp -> S -> S) (o : IOp) (s : S) :
  IOp_walk fn o s = fold_left (fun s r => IRegion_walk fn r s) (IOp_regions o) (fn o s).
Proof.
  destruct o as [i d operands result_types successors regions].
  cbn [IOp_walk IOp_regions]. apply fold_left_ext_in. intros [rid blocks] s' _.
  unfold IRegion_walk. simpl. apply fold_left_ext_in. by intros [bid bargs bops] s'' _.
Qed.

(** A walk is a fold over the visited ops. *)
Lemma IOp_walk_fold {S} (fn : IOp -> S -> S) (o : IOp) (s : S) :
  IOp_walk fn o s = fold_left (fun s o => fn o s) (walk_list o) s.
Proof.
  revert s.
  induction o as [i d operands result_types successors regions IH] using IOp_nested_ind.
  intros s. rewrite IOp_walk_regions_eq, walk_list_eq. simpl.
  apply fold_left_concat_map. intros r s1 Hr.
  unfold IRegion_walk, region_walk_list.
  apply fold_left_concat_map. intros b s2 Hb.
  unfold IBlock_walk, block_walk_list.
  apply fold_left_concat_map. intros o s3 Ho.
  rewrite Forall_forall in IH. specialize (IH r Hr).
  rewrite Forall_forall in IH. specialize (IH b Hb).
  rewrite Forall_forall in IH. by apply IH.
Qed.

Lemma IBlock_walk_fold {S} (fn : IOp -> S -> S) (b : IBlock) (s : S) :
  IBlock_walk fn b s = fold_left (fun s o => fn o s) (block_walk_list b) s.
Proof.
  unfold IBlock_walk, block_walk_list. apply fold_left_concat_map.
  intros o s' _. apply IOp_walk_fold.
Qed.

(** ** Rebuilding a block with a substitution *)

(** Some operand of [o] is a key of [env]. *)
Definition uses_env (env : Env) (o : IOp) : bool := existsb (in_env env) (IOp_operands o).

(** Some op of [l] has an operand that is a key of [env]. *)
Definition touched (env : Env) (l : list IOp) : bool := existsb (uses_env env) l.

(** The test of [substitute_if_required] seen from outside: [o], or an op
    nested in its regions, has an operand that is a key of [env]. *)
Definition needs_subst (env : Env) (o : IOp) : bool :=
  IOp_walk (subst_necessary env) o false.

(** The two inner loops of [substitute_if_required], by name. *)
Definition rebuild_block (block : IBlock) (st : Env * bool) : M (IBlock * (Env * bool)) :=
  if IBlock_walk (subst_necessary st.1) block false
  then
    let* (new_block, env) :=
      from_iblock_with substitute_if_required (IBlock_ops block) (IBlock_args block)
                       st.1 in
    ret (new_block, (env, true))
  else ret (block, st).

Definition rebuild_region (region : IRegion) (st : Env * bool)
    : M (IRegion * (Env * bool)) :=
  let* (new_blocks, st') := mapS rebuild_block (IRegion_blocks region) (st.1, false) in
  if st'.2
  then let* r := IRegion_init new_blocks in ret (r, (st'.1, true))
  else ret (region, (st'.1, st.2)).

Lemma substitute_if_required_eq (o : IOp) (env : Env) (h : Heap) :
  substitute_if_required o env h =
  (let* (new_regions, st) := mapS rebuild_region (IOp_regions o) (env, false) in
   let new_operands :=
     map (fun operand => default operand (st.1 !! ikey operand)) (IOp_operands o) in
   if (st.2 || uses_env st.1 o)%bool
   then
     let* (substituted_op, env') :=
       from_op o (Some (map OpndValue new_operands)) None None None
               (Some new_regions) (Some st.1) in
     match substituted_op, env' with
     | [new], Some env' => ret (new, env')
     | _, _ => raise AssertionError
     end
   else ret (o, st.1)) h.
Proof.
  destruct o as [i d operands result_types successors regions].
  cbn [substitute_if_required IOp_regions IOp_operands].
  rewrite !bind_eq.
  rewrite (mapS_ext _ rebuild_region).
  - destruct (mapS rebuild_region regions (env, false) h) as [[[nr [env1 flag]] h1]|];
      [|done].
    simpl.
    assert (fold_left (fun (flag0 : bool) operand =>
                         if in_env env1 operand then true else flag0) operands flag
            = (flag || uses_env env1 (MkIOp i d operands result_types successors regions))%bool)
      as ->; [|done].
    unfold uses_env. simpl. clear. revert flag.
    induction operands as [|v operands IH]; intros flag; simpl.
    + by rewrite orb_false_r.
    + rewrite IH. by destruct (in_env env1 v), flag.
  - intros [rid blocks] [env0 flag0] h0 _. unfold rebuild_region. simpl.
    rewrite !bind_eq.
    rewrite (mapS_ext _ rebuild_block).
    + by destruct (mapS rebuild_block blocks (env0, false) h0) as [[[nb [env1 flag1]] h1]|].
    + intros [bid bargs bops] [env1 flag1] h1 _. unfold rebuild_block. simpl.
      destruct (IBlock_walk _ _ _); [|done].
      rewrite !bind_eq.
      by destruct (from_iblock_with substitute_if_required bops bargs env1 h1)
        as [[[? ?] ?]|].
Qed.

Lemma subst_necessary_eq (env : Env) (o : IOp) (flag : bool) :
  subst_necessary env o flag = (flag || uses_env env o)%bool.
Proof.
  unfold subst_necessary, uses_env. revert flag.
  induction (IOp_operands o) as [|v operands IH]; intros flag; simpl.
  - by rewrite orb_false_r.
  - rewrite IH. by destruct (in_env env v), flag.
Qed.

Lemma fold_subst_necessary (env : Env) (l : list IOp) (flag : bool) :
  fold_left (fun s o => subst_necessary env o s) l flag = (flag || touched env l)%bool.
Proof.
  revert flag. induction l as [|o l IH]; intros flag; simpl.
  - by rewrite orb_false_r.
  - by rewrite IH, subst_necessary_eq, orb_assoc.
Qed.

Lemma needs_subst_touched (env : Env) (o : IOp) :
  needs_subst env o = touched env (walk_list o).
Proof. unfold needs_subst. by rewrite IOp_walk_fold, fold_subst_necessary. Qed.

Lemma block_check_touched (env : Env) (b : IBlock) :
  IBlock_walk (subst_necessary env) b false = touched env (block_walk_list b).
Proof. by rewrite IBlock_walk_fold, fold_subst_necessary. Qed.

Lemma in_env_dom (env : Env) (v : ISSAValue) :
  in_env env v = true <-> ikey v ∈ dom env.
Proof. unfold in_env. by rewrite bool_decide_eq_true, elem_of_dom. Qed.

Lemma touched_mono (env env2 : Env) (l : list IOp) :
  dom env ⊆ dom env2 -> touched env l = true -> touched env2 l = true.
Proof.
  intros Hd. unfold touched, uses_env. rewrite !existsb_exists.
  intros (o & Ho & Hu). exists o. split; [done|].
  apply existsb_exists in Hu as (v & Hv & Hin). apply existsb_exists.
  exists v. split; [done|]. apply in_env_dom. apply Hd. by apply in_env_dom.
Qed.

Lemma touched_app (env : Env) (l1 l2 : list IOp) :
  touched env (l1 ++ l2) = (touched env l1 || touched env l2)%bool.
Proof. unfold touched. apply existsb_app. Qed.

(** [_unpack_operands] reads [operand.op.operands[-1]] of a [RewriteId] op,
    which raises when that op has no operand.  The rebuild is stated for
    blocks and substitutions in which every [RewriteId] op has one. *)
Definition rewrite_id_ok (o : IOp) : Prop :=
  IOp_op_type o = RewriteId -> IOp_operands o <> [].

Definition value_ok (v : ISSAValue) : Prop :=
  match v with
  | IResult _ p _ => rewrite_id_ok p
  | IArg _ => True
  end.

Definition env_ok (env : Env) : Prop := forall k v, env !! k = Some v -> value_ok v.

Definition op_ok (o : IOp) : Prop :=
  Forall (fun b => rewrite_id_ok b /\ Forall value_ok (IOp_operands b)) (walk_list o).

(** The values defined by an op: its results, and what its regions define. *)
Fixpoint IOp_defs (o : IOp) : list IKey :=
  map ikey (IOp_results o) ++
  concat (map (fun r =>
    concat (map (fun b =>
      map (fun a => KArg (arg_id a)) (IBlock_args b) ++
      concat (map IOp_defs (IBlock_ops b))) (IRegion_blocks r))) (IOp_regions o)).

Definition IBlock_defs (b : IBlock) : list IKey :=
  map (fun a => KArg (arg_id a)) (IBlock_args b) ++ concat (map IOp_defs (IBlock_ops b)).

Definition IRegion_defs (r : IRegion) : list IKey :=
  concat (map IBlock_defs (IRegion_blocks r)).

Lemma IOp_defs_eq (o : IOp) :
  IOp_defs o = map ikey (IOp_results o) ++ concat (map IRegion_defs (IOp_regions o)).
Proof. by destruct o. Qed.

(** How a step may change the substitution and the allocator: the
    substitution stays well-formed, keeps its keys, and changes only at the
    keys of [D]; identities are only added. *)
Definition evolves (D : list IKey) (env : Env) (h : Heap) (env' : Env) (h' : Heap)
    : Prop :=
  env_ok env' /\ dom env ⊆ dom env' /\
  (forall k, k ∉ D -> env' !! k = env !! k) /\
  next_id h <= next_id h'.

Lemma evolves_refl (D : list IKey) (env : Env) (h : Heap) :
  env_ok env -> evolves D env h env h.
Proof. by repeat split. Qed.

Lemma evolves_trans (D1 D2 : list IKey) env h env1 h1 env2 h2 :
  evolves D1 env h env1 h1 -> evolves D2 env1 h1 env2 h2 ->
  evolves (D1 ++ D2) env h env2 h2.
Proof.
  intros (_ & Hd1 & Hf1 & Hn1) (Ho2 & Hd2 & Hf2 & Hn2). repeat split; [done| | |lia].
  - set_solver.
  - intros k Hk. rewrite Hf2, Hf1; [done| |]; intros ?; apply Hk, elem_of_app; auto.
Qed.

Lemma evolves_weaken (D D' : list IKey) env h env' h' :
  (forall k, k ∈ D -> k ∈ D') -> evolves D env h env' h' -> evolves D' env h env' h'.
Proof.
  intros Hsub (Ho & Hd & Hf & Hn). repeat split; try done.
  intros k Hk. apply Hf. intros ?. by apply Hk, Hsub.
Qed.

(** The loop that mints the new block arguments. *)
Definition minted_env (old_args new_args : list IBlockArg) (env : Env) : Env :=
  fold_left (fun e '(old, new) => <[KArg (arg_id old) := IArg new]> e)
            (zip old_args new_args) env.

Lemma mint_loop_ok (old_args : list IBlockArg) (n : nat) (env : Env) (h : Heap) :
  exists new_args,
    mapS mint_arg old_args (n, env) h
    = Ok ((new_args, (n + length old_args, minted_env old_args new_args env)),
          MkHeap (next_id h + length old_args) (stdout h)) /\
    map arg_typ new_args = map arg_typ old_args /\
    map arg_index new_args = seq n (length old_args) /\
    map arg_id new_args = seq (next_id h) (length old_args).
Proof.
  revert n env h. induction old_args as [|a old_args IH]; intros n env h.
  - exists []. simpl. unfold ret. rewrite !Nat.add_0_r. by destruct h.
  - destruct (IH (S n) (<[KArg (arg_id a) := IArg (MkIBlockArg (next_id h) (arg_typ a) n)]> env)
                 (MkHeap (S (next_id h)) (stdout h))) as (l & Hl & Ht & Hi & Hd).
    exists (MkIBlockArg (next_id h) (arg_typ a) n :: l). cbn [mapS].
    rewrite bind_eq. unfold mint_arg at 1, IBlockArg_init. rewrite !bind_eq.
    unfold fresh, ret at 1 2. simpl fst. simpl snd. rewrite bind_eq, Hl. simpl.
    unfold ret. rewrite Ht, Hi, Hd. repeat split; try done.
    do 2 f_equal; [f_equal; f_equal; lia | f_equal; lia].
Qed.

Lemma minted_env_cons a b (old_args new_args : list IBlockArg) (env : Env) :
  minted_env (a :: old_args) (b :: new_args) env
  = minted_env old_args new_args (<[KArg (arg_id a) := IArg b]> env).
Proof. done. Qed.

Lemma minted_env_lookup (old_args new_args : list IBlockArg) (env : Env) (k : IKey) :
  length new_args = length old_args ->
  (k ∉ map (fun a => KArg (arg_id a)) old_args -> minted_env old_args new_args env !! k = env !! k)
  /\ (forall v, minted_env old_args new_args env !! k = Some v ->
                env !! k = Some v \/ exists a, v = IArg a)
  /\ (is_Some (env !! k) -> is_Some (minted_env old_args new_args env !! k))
  /\ (k ∈ map (fun a => KArg (arg_id a)) old_args ->
      is_Some (minted_env old_args new_args env !! k)).
Proof.
  revert new_args env. induction old_args as [|a old_args IH]; intros [|b new_args] env Hl;
    simpl in *; try done.
  - repeat split; eauto. by intros ?%elem_of_nil.
  - injection Hl as Hl. rewrite minted_env_cons.
    destruct (IH new_args (<[KArg (arg_id a) := IArg b]> env) Hl) as (H1 & H2 & H3 & H4).
    repeat split.
    + intros Hk. rewrite H1, lookup_insert_ne; [done| |].
      * intros <-. apply Hk. left.
      * intros ?. apply Hk. by right.
    + intros v Hv. destruct (H2 v Hv) as [Hin|?]; [|by right].
      destruct (decide (KArg (arg_id a) = k)) as [<-|Hne].
      * rewrite lookup_insert_eq in Hin. right. exists b. congruence.
      * rewrite lookup_insert_ne in Hin by done. by left.
    + intros [v Hv]. apply H3. destruct (decide (KArg (arg_id a) = k)) as [<-|Hne].
      * rewrite lookup_insert_eq. eauto.
      * rewrite lookup_insert_ne by done. eauto.
    + intros [->|Hin]%elem_of_cons; [|by apply H4].
      apply H3. rewrite lookup_insert_eq. eauto.
Qed.

Lemma mint_block_args_ok (old_args : list IBlockArg) (env : Env) (h : Heap) :
  env_ok env ->
  exists new_args,
    mint_block_args old_args env h
    = Ok ((new_args, minted_env old_args new_args env),
          MkHeap (next_id h + length old_args) (stdout h)) /\
    map arg_typ new_args = map arg_typ old_args /\
    map arg_index new_args = seq 0 (length old_args) /\
    map arg_id new_args = seq (next_id h) (length old_args) /\
    evolves (map (fun a => KArg (arg_id a)) old_args) env h
            (minted_env old_args new_args env)
            (MkHeap (next_id h + length old_args) (stdout h)) /\
    (forall a, a ∈ old_args ->
               is_Some (minted_env old_args new_args env !! KArg (arg_id a))).
Proof.
  intros Hok. destruct (mint_loop_ok old_args 0 env h) as (l & Hl & Ht & Hi & Hd).
  exists l. unfold mint_block_args. rewrite bind_eq, Hl. simpl.
  assert (length l = length old_args) as Hlen.
  { by rewrite <- (length_map arg_typ l), Ht, length_map. }
  repeat split; try done.
  - intros k v Hv. destruct (minted_env_lookup old_args l env k Hlen) as (_ & H2 & _).
    destruct (H2 v Hv) as [?|[a ->]]; [by apply (Hok k v) | exact I].
  - intros k Hk%elem_of_dom. apply elem_of_dom.
    destruct (minted_env_lookup old_args l env k Hlen) as (_ & _ & H3 & _). by apply H3.
  - intros k Hk.
    destruct (minted_env_lookup old_args l env k Hlen) as (H1 & _). by apply H1.
  - simpl. lia.
  - intros a Ha.
    destruct (minted_env_lookup old_args l env (KArg (arg_id a)) Hlen) as (_ & _ & _ & H4).
    apply H4. apply list_elem_of_fmap. by exists a.
Qed.

Lemma Forall2_map_left {A B C} (f : A -> B) (P : B -> C -> Prop) (l : list A)
    (k : list C) :
  Forall2 P (map f l) k <-> Forall2 (fun x => P (f x)) l k.
Proof. exact (Forall2_fmap_l f P l k). Qed.

Lemma resolve_operand_ok (env : Env) (v : ISSAValue) :
  env_ok env -> value_ok v -> exists v', resolve_operand env v = Ok v'.
Proof.
  intros He Hv. unfold resolve_operand.
  assert (value_ok (match env !! ikey v with Some v0 => v0 | None => v end)) as Hv'.
  { destruct (env !! ikey v) eqn:E; [by eapply He | done]. }
  destruct (match env !! ikey v with Some v0 => v0 | None => v end) as [t p i|a];
    [|eauto].
  unfold OpType_eqb. case_bool_decide as Hp; [|eauto].
  specialize (Hv' Hp). destruct (IOp_operands p) as [|x l] eqn:El using rev_ind; [done|].
  rewrite last_snoc. eauto.
Qed.

Lemma push_operand_values (vs : list ISSAValue) (r : list IOp) :
  fold_left push_operand (map OpndValue vs) r = r.
Proof. revert r. induction vs as [|v vs IH]; intros r; simpl; [done | apply IH]. Qed.

Lemma record_all_lookup (olds news : list ISSAValue) (env : Env) (k : IKey) :
  (k ∉ map ikey olds -> record_all olds news env !! k = env !! k) /\
  (forall v, record_all olds news env !! k = Some v -> env !! k = Some v \/ v ∈ news) /\
  (is_Some (env !! k) -> is_Some (record_all olds news env !! k)).
Proof.
  revert news env. induction olds as [|o olds IH]; intros [|n news] env; simpl;
    try (repeat split; eauto; done).
  unfold record_all. simpl. fold (record_all olds news (<[ikey o := n]> env)).
  destruct (IH news (<[ikey o := n]> env)) as (H1 & H2 & H3). repeat split.
  - intros Hk. rewrite H1, lookup_insert_ne; [done| |].
    + intros <-. apply Hk. left.
    + intros ?. apply Hk. by right.
  - intros v Hv. destruct (H2 v Hv) as [Hin|?]; [|right; by right].
    destruct (decide (ikey o = k)) as [<-|Hne].
    + rewrite lookup_insert_eq in Hin. injection Hin as <-. right. left.
    + rewrite lookup_insert_ne in Hin by done. by left.
  - intros [v Hv]. apply H3. destruct (decide (ikey o = k)) as [<-|Hne].
    + rewrite lookup_insert_eq. eauto.
    + rewrite lookup_insert_ne by done. eauto.
Qed.

(** The operands the rebuilt op receives: each old operand looked up in
    [env], and the outcome resolved by [_unpack_operands] (looked up once
    more, a [RewriteId] result replaced by that op's last operand). *)
Definition remapped (env : Env) (v v' : ISSAValue) : Prop :=
  resolve_operand env (default v (env !! ikey v)) = Ok v'.

(** The call of [from_op] at the end of [substitute_if_required]. *)
Lemma from_op_rebuild (o : IOp) (new_regions : list IRegion) (env : Env) (h : Heap) :
  env_ok env -> rewrite_id_ok o -> Forall value_ok (IOp_operands o) ->
  exists unpacked,
    Forall2 (remapped env) (IOp_operands o) unpacked /\
    let o' := MkIOp (next_id h) (IOp_op_data o) unpacked (IOp_result_types o)
                    (IOp_successors o) new_regions in
    from_op o (Some (map OpndValue
                       (map (fun v => default v (env !! ikey v)) (IOp_operands o))))
            None None None (Some new_regions) (Some env) h
    = Ok (([o'], Some (record_all (IOp_results o) (IOp_results o') env)),
          MkHeap (S (next_id h)) (stdout h)) /\
    env_ok (record_all (IOp_results o) (IOp_results o') env).
Proof.
  intros He Ho Hv.
  assert (Forall (operand_ok env)
            (map OpndValue (map (fun v => default v (env !! ikey v)) (IOp_operands o))))
    as HF.
  { rewrite !Forall_map. eapply Forall_impl; [exact Hv|]. intros v Hvok.
    assert (value_ok (default v (env !! ikey v))) as Hv'.
    { destruct (env !! ikey v) eqn:E; [by eapply He | done]. }
    destruct (resolve_operand_ok env _ He Hv') as [v' Hr].
    by exists (default v (env !! ikey v)), v'. }
  destruct (unpack_loop_ok env _ [] [] HF) as (vs & E & F2).
  rewrite push_operand_values in E. simpl in E.
  exists vs. split.
  { rewrite !Forall2_map_left in F2. eapply Forall2_impl; [exact F2|].
    intros v v' (v0 & [= <-] & Hr). exact Hr. }
  intros o'. split.
  - pose proof (from_op_ok o (Some (map OpndValue
                   (map (fun v => default v (env !! ikey v)) (IOp_operands o))))
                  None None None (Some new_regions) (Some env) h vs [] E) as Hf.
    cbv zeta in Hf. simpl in Hf. rewrite Hf; [done|]. by right.
  - intros k v Hk.
    destruct (record_all_lookup (IOp_results o) (IOp_results o') env k) as (_ & H2 & _).
    destruct (H2 v Hk) as [?|Hin]; [by eapply He|].
    unfold IOp_results in Hin. apply list_elem_of_lookup in Hin as [j Hj].
    rewrite list_lookup_imap in Hj. destruct (_ !! j); [|done]. injection Hj as <-.
    unfold value_ok, rewrite_id_ok. subst o'. simpl. intros Ht Hvs.
    specialize (Ho Ht). apply Forall2_length in F2. rewrite !length_map in F2.
    subst vs. destruct (IOp_operands o); [done | simpl in F2; lia].
Qed.

(** The states a loop goes through: [threaded rel env h l l' env' h'] holds
    when [l'] is made of [l] element by element, each step starting from the
    substitution and the allocator the step before left. *)
Inductive threaded {A : Type} (rel : Env -> Heap -> A -> A -> Env -> Heap -> Prop)
    : Env -> Heap -> list A -> list A -> Env -> Heap -> Prop :=
| threaded_nil env h : threaded rel env h [] [] env h
| threaded_cons env h x x' env1 h1 l l' env2 h2 :
    rel env h x x' env1 h1 -> threaded rel env1 h1 l l' env2 h2 ->
    threaded rel env h (x :: l) (x' :: l') env2 h2.

(** A block of a region of an op: when an operand of an op nested in it is
    a key of the substitution, the block is replaced by what [from_iblock]
    makes of it under that substitution; if not, it is kept and nothing
    changes. *)
Definition block_step (env : Env) (h : Heap) (b b' : IBlock) (env' : Env) (h' : Heap)
    : Prop :=
  if touched env (block_walk_list b)
  then IBlock_from_iblock (IBlock_ops b) b (Some env) h = Ok ((b', env'), h')
  else b' = b /\ env' = env /\ h' = h.

(** A region of an op: its blocks are gone through in order; when an
    operand of an op nested in it is a key of the substitution the region is
    replaced by a new region of the blocks obtained, if not it is kept. *)
Definition region_step (env : Env) (h : Heap) (r r' : IRegion) (env' : Env) (h' : Heap)
    : Prop :=
  exists new_blocks h0,
    threaded block_step env h (IRegion_blocks r) new_blocks env' h0 /\
    if touched env (region_walk_list r)
    then r' = MkIRegion (next_id h0) new_blocks /\
         h' = MkHeap (S (next_id h0)) (stdout h0)
    else r' = r /\ env' = env /\ h' = h.

(** What [substitute_if_required] makes of an op it rebuilds: its regions
    are gone through in order, which leaves the substitution [env1]; the new
    op is a new object on the same [OpData], with the result types and
    successors of the old one, the regions obtained, and as operands the old
    ones remapped through [env1]; the substitution then sends each result of
    the old op to the result of the new one with the same index.  [env1]
    holds the keys of [env] and differs from it only at values defined in
    the regions of the op; when no operand nested in the regions is a key of
    [env], the regions are those of the old op and [env1] is [env]. *)
Definition rebuilt (env : Env) (h : Heap) (o o' : IOp) (env' : Env) (h' : Heap) : Prop :=
  exists new_regions env1 h1 new_operands,
    threaded region_step env h (IOp_regions o) new_regions env1 h1 /\
    dom env ⊆ dom env1 /\
    (forall k, k ∉ concat (map IRegion_defs (IOp_regions o)) -> env1 !! k = env !! k) /\
    (touched env (concat (map region_walk_list (IOp_regions o))) = false ->
     new_regions = IOp_regions o /\ env1 = env /\ h1 = h) /\
    next_id h <= next_id h1 /\
    Forall2 (remapped env1) (IOp_operands o) new_operands /\
    o' = MkIOp (next_id h1) (IOp_op_data o) new_operands (IOp_result_types o)
               (IOp_successors o) new_regions /\
    env' = record_all (IOp_results o) (IOp_results o') env1 /\
    h' = MkHeap (S (next_id h1)) (stdout h1).

(** One op of the block: rebuilt when one of its operands, or of the
    operands of the ops nested in its regions, is a key of the substitution;
    the same instance, with the substitution unchanged, when none is. *)
Definition op_step (env : Env) (h : Heap) (o o' : IOp) (env' : Env) (h' : Heap) : Prop :=
  if needs_subst env o
  then rebuilt env h o o' env' h'
  else o' = o /\ env' = env /\ h' = h.

Definition substitute_spec (o : IOp) : Prop :=
  forall env h, env_ok env -> op_ok o ->
  exists o' env' h',
    substitute_if_required o env h = Ok ((o', env'), h') /\
    evolves (IOp_defs o) env h env' h' /\
    op_step env h o o' env' h'.

(** A loop over blocks or regions that carries the substitution and the
    flag "something was rebuilt". *)
Lemma flagged_loop {A} (step : A -> Env * bool -> M (A * (Env * bool)))
    (wl : A -> list IOp) (defs : A -> list IKey)
    (rel : Env -> Heap -> A -> A -> Env -> Heap -> Prop) (l : list A) :
  (forall x, x ∈ l -> forall env flag h, env_ok env ->
     exists x' env' flag' h',
       step x (env, flag) h = Ok ((x', (env', flag')), h') /\
       evolves (defs x) env h env' h' /\
       (touched env (wl x) = false -> x' = x /\ env' = env /\ flag' = flag /\ h' = h) /\
       (touched env (wl x) = true -> flag' = true) /\
       (flag = true -> flag' = true) /\
       rel env h x x' env' h') ->
  forall env flag h, env_ok env ->
    exists l' env' flag' h',
      mapS step l (env, flag) h = Ok ((l', (env', flag')), h') /\
      evolves (concat (map defs l)) env h env' h' /\
      (touched env (concat (map wl l)) = false ->
       l' = l /\ env' = env /\ flag' = flag /\ h' = h) /\
      (touched env (concat (map wl l)) = true -> flag' = true) /\
      (flag = true -> flag' = true) /\
      length l' = length l /\
      threaded rel env h l l' env' h'.
Proof.
  induction l as [|x l IH]; intros Hstep env flag h Hok.
  - exists [], env, flag, h. simpl. repeat split; try done. constructor.
  - destruct (Hstep x (list_elem_of_here _ _) env flag h Hok)
      as (x' & env1 & flag1 & h1 & E1 & Hev1 & Hf1 & Ht1 & Hk1 & Hr1).
    destruct (IH (fun y Hy => Hstep y (list_elem_of_further _ _ _ Hy)) env1 flag1 h1
                 (proj1 Hev1))
      as (l' & env2 & flag2 & h2 & E2 & Hev2 & Hf2 & Ht2 & Hk2 & Hlen & Hth).
    exists (x' :: l'), env2, flag2, h2. cbn [mapS]. rewrite bind_eq, E1. simpl.
    rewrite bind_eq, E2. simpl. rewrite touched_app.
    split; [done|]. split; [by eapply evolves_trans|].
    split; [|split; [|split; [|split]]]; [| | | |by econstructor].
    + intros [Hx Hl]%orb_false_iff. destruct (Hf1 Hx) as (-> & -> & -> & ->).
      destruct (Hf2 Hl) as (-> & -> & -> & ->). done.
    + intros [Hx|Hl]%orb_true_iff.
      * apply Hk2. by apply Ht1.
      * destruct (touched env (wl x)) eqn:Hx; [apply Hk2; by apply Ht1|].
        destruct (Hf1 eq_refl) as (-> & -> & -> & ->). by apply Ht2.
    + intros Hflag. apply Hk2. by apply Hk1.
    + by rewrite Hlen.
Qed.

Lemma Forall_concat_map {A B} (P : B -> Prop) (g : A -> list B) (l : list A) :
  Forall P (concat (map g l)) <-> forall x, x ∈ l -> Forall P (g x).
Proof.
  induction l as [|x l IH]; simpl.
  - split; [by intros _ ? ?%elem_of_nil | constructor].
  - rewrite Forall_app, IH. split.
    + intros [Hx Hl] y [->|Hy]%elem_of_cons; auto.
    + intros H. split; [apply H; left | intros y Hy; apply H; by right].
Qed.

(** The loop over the ops of a block. *)
Lemma substitute_loop_ok (ops : list IOp) :
  Forall substitute_spec ops ->
  forall env h, env_ok env -> Forall op_ok ops ->
    exists ops' env' h',
      mapS substitute_if_required ops env h = Ok ((ops', env'), h') /\
      evolves (concat (map IOp_defs ops)) env h env' h' /\
      length ops' = length ops /\
      threaded op_step env h ops ops' env' h'.
Proof.
  induction 1 as [|o ops Ho _ IH]; intros env h Hok Hops.
  - exists [], env, h. simpl. repeat split; try done. constructor.
  - apply Forall_cons in Hops as [Hoo Hops].
    destruct (Ho env h Hok Hoo) as (o' & env1 & h1 & E1 & Hev1 & Hs1).
    destruct (IH env1 h1 (proj1 Hev1) Hops)
      as (ops' & env2 & h2 & E2 & Hev2 & Hlen & Hth).
    exists (o' :: ops'), env2, h2. cbn [mapS]. rewrite bind_eq, E1. simpl.
    rewrite bind_eq, E2. simpl. split; [done|]. split; [by eapply evolves_trans|].
    split; [by rewrite Hlen | by econstructor].
Qed.

(** [from_iblock] on the ops and arguments of a block. *)
Lemma from_iblock_with_ok (ops : list IOp) (old_args : list IBlockArg) :
  Forall substitute_spec ops ->
  forall env h, env_ok env -> Forall op_ok ops ->
    exists new_args ops' env' h',
      from_iblock_with substitute_if_required ops old_args env h
      = Ok ((MkIBlock (next_id h') new_args ops', env'),
            MkHeap (S (next_id h')) (stdout h')) /\
      map arg_typ new_args = map arg_typ old_args /\
      map arg_index new_args = seq 0 (length old_args) /\
      map arg_id new_args = seq (next_id h) (length old_args) /\
      evolves (map (fun a => KArg (arg_id a)) old_args ++ concat (map IOp_defs ops))
              env h env' h' /\
      length ops' = length ops /\
      threaded op_step (minted_env old_args new_args env)
               (MkHeap (next_id h + length old_args) (stdout h)) ops ops' env' h'.
Proof.
  intros Hspec env h Hok Hops.
  destruct (mint_block_args_ok old_args env h Hok)
    as (new_args & Em & Ht & Hi & Hd & Hev0 & _).
  destruct (substitute_loop_ok ops Hspec _
              (MkHeap (next_id h + length old_args) (stdout h)) (proj1 Hev0) Hops)
    as (ops' & env' & h' & El & Hev1 & Hlen & Hth).
  exists new_args, ops', env', h'. unfold from_iblock_with.
  rewrite bind_eq, Em. simpl. rewrite bind_eq, El. simpl.
  do 4 (split; [done|]). split; [by eapply evolves_trans|]. by split.
Qed.

Definition walk_ok (l : list IOp) : Prop :=
  Forall (fun b => rewrite_id_ok b /\ Forall value_ok (IOp_operands b)) l.

Lemma rebuild_block_ok (b : IBlock) :
  Forall substitute_spec (IBlock_ops b) -> walk_ok (block_walk_list b) ->
  forall env flag h, env_ok env ->
    exists b' env' flag' h',
      rebuild_block b (env, flag) h = Ok ((b', (env', flag')), h') /\
      evolves (IBlock_defs b) env h env' h' /\
      (touched env (block_walk_list b) = false ->
       b' = b /\ env' = env /\ flag' = flag /\ h' = h) /\
      (touched env (block_walk_list b) = true -> flag' = true) /\
      (flag = true -> flag' = true) /\
      block_step env h b b' env' h'.
Proof.
  intros Hspec Hwalk env flag h Hok. unfold rebuild_block, block_step. cbn [fst snd].
  rewrite block_check_touched. destruct (touched env (block_walk_list b)) eqn:Ht.
  - assert (Forall op_ok (IBlock_ops b)) as Hops.
    { apply Forall_forall. intros o Ho. unfold walk_ok, block_walk_list in Hwalk.
      rewrite Forall_concat_map in Hwalk. by apply Hwalk. }
    destruct (from_iblock_with_ok (IBlock_ops b) (IBlock_args b) Hspec env h Hok Hops)
      as (new_args & ops' & env' & h' & E & _ & _ & _ & Hev & _).
    do 4 eexists. unfold IBlock_from_iblock. cbn [default from_option id].
    rewrite bind_eq, E. simpl. split; [reflexivity|].
    split; [|by repeat split].
    destruct Hev as (H1 & H2 & H3 & H4). repeat split; try done. simpl. lia.
  - exists b, env, flag, h. split; [done|]. split; [by apply evolves_refl|].
    by repeat split.
Qed.

Lemma rebuild_region_ok (r : IRegion) :
  Forall (fun b => Forall substitute_spec (IBlock_ops b)) (IRegion_blocks r) ->
  walk_ok (region_walk_list r) ->
  forall env flag h, env_ok env ->
    exists r' env' flag' h',
      rebuild_region r (env, flag) h = Ok ((r', (env', flag')), h') /\
      evolves (IRegion_defs r) env h env' h' /\
      (touched env (region_walk_list r) = false ->
       r' = r /\ env' = env /\ flag' = flag /\ h' = h) /\
      (touched env (region_walk_list r) = true -> flag' = true) /\
      (flag = true -> flag' = true) /\
      region_step env h r r' env' h'.
Proof.
  intros Hspec Hwalk env flag h Hok.
  destruct (flagged_loop rebuild_block block_walk_list IBlock_defs block_step
              (IRegion_blocks r))
    with (env := env) (flag := false) (h := h)
    as (bs' & env' & flag' & h' & E & Hev & Hf & Ht & _ & _ & Hth); [|done|].
  { intros b Hb. apply rebuild_block_ok.
    - rewrite Forall_forall in Hspec. by apply Hspec.
    - unfold walk_ok, region_walk_list in Hwalk.
      rewrite Forall_concat_map in Hwalk. by apply Hwalk. }
  unfold rebuild_region, region_step. cbn [fst snd]. rewrite bind_eq, E. cbn [fst snd].
  fold (region_walk_list r) in Hf, Ht.
  destruct (touched env (region_walk_list r)) eqn:Htouched.
  - rewrite (Ht eq_refl). do 4 eexists.
    unfold IRegion_init. rewrite !bind_eq. unfold fresh, ret. simpl.
    split; [reflexivity|]. split; [|split; [done|split; [done|split; [done|]]]].
    + destruct Hev as (H1 & H2 & H3 & H4). repeat split; try done. simpl. lia.
    + exists bs', h'. by split.
  - destruct (Hf eq_refl) as (-> & -> & -> & ->). exists r, env, flag, h.
    destruct r. split; [done|]. split; [by apply evolves_refl|].
    split; [done|]. split; [done|]. split; [done|]. eexists _, _. by split.
Qed.

Lemma uses_env_ext (env env2 : Env) (o : IOp) :
  env2 = env -> uses_env env2 o = uses_env env o.
Proof. by intros ->. Qed.

(** Every op meets the description of [substitute_if_required]. *)
Lemma substitute_spec_all (o : IOp) : substitute_spec o.
Proof.
  induction o as [i d operands result_types successors regions IH] using IOp_nested_ind.
  set (o := MkIOp i d operands result_types successors regions).
  intros env h Hok Hop.
  unfold op_ok in Hop. rewrite walk_list_eq in Hop.
  apply Forall_cons in Hop as [[Hrid Hvals] Hnested]. fold o in Hrid, Hvals.
  change (IOp_regions (MkIOp i d operands result_types successors regions))
    with regions in Hnested.
  destruct (flagged_loop rebuild_region region_walk_list IRegion_defs region_step regions)
    with (env := env) (flag := false) (h := h)
    as (nr & env1 & flag1 & h1 & E & Hev & Hf & Ht & _ & Hlen & Hth); [|done|].
  { intros r Hr. apply rebuild_region_ok.
    - rewrite Forall_forall in IH. by apply IH.
    - unfold walk_ok. rewrite Forall_concat_map in Hnested. by apply Hnested. }
  rewrite substitute_if_required_eq. cbv zeta.
  change (IOp_regions o) with regions. rewrite bind_eq, E. cbn [fst snd].
  assert (needs_subst env o
          = (uses_env env o || touched env (concat (map region_walk_list regions)))%bool)
    as Hneeds.
  { rewrite needs_subst_touched, walk_list_eq. done. }
  unfold op_step.
  destruct (flag1 || uses_env env1 o)%bool eqn:Hflag.
  - (* the op is rebuilt *)
    destruct (from_op_rebuild o nr env1 h1 (proj1 Hev) Hrid Hvals)
      as (unpacked & F2 & Hfrom & Hok').
    cbv zeta in Hfrom. rewrite bind_eq, Hfrom. simpl.
    do 3 eexists. split; [reflexivity|].
    assert (needs_subst env o = true) as Hn.
    { rewrite Hneeds. destruct (touched env (concat (map region_walk_list regions)))
        eqn:Hto; [by rewrite orb_true_r|].
      destruct (Hf eq_refl) as (_ & -> & -> & _). simpl in Hflag.
      by rewrite Hflag. }
    destruct Hev as (H1 & H2 & H3 & H4).
    rewrite Hn. split.
    + split; [done|]. split; [|split].
      * intros k Hk. apply elem_of_dom.
        destruct (record_all_lookup (IOp_results o)
                    (IOp_results (MkIOp (next_id h1) (IOp_op_data o) unpacked
                       (IOp_result_types o) (IOp_successors o) nr)) env1 k)
          as (_ & _ & H5).
        apply H5. apply elem_of_dom. by apply H2.
      * intros k Hk.
        change (k ∉ map ikey (IOp_results o) ++ concat (map IRegion_defs regions)) in Hk.
        destruct (record_all_lookup (IOp_results o)
                    (IOp_results (MkIOp (next_id h1) (IOp_op_data o) unpacked
                       (IOp_result_types o) (IOp_successors o) nr)) env1 k)
          as (H5 & _ & _).
        etrans; [apply H5 | apply H3]; intros ?; apply Hk, elem_of_app; auto.
      * simpl. lia.
    + exists nr, env1, h1, unpacked. change (IOp_regions o) with regions.
      split; [done|]. split; [done|]. split; [done|]. split.
      { intros Hto. by destruct (Hf Hto) as (-> & -> & _ & ->). }
      by repeat split.
  - (* the op is kept *)
    apply orb_false_iff in Hflag as [-> Huses].
    assert (touched env (concat (map region_walk_list regions)) = false) as Hto.
    { destruct (touched env _) eqn:Hto; [|done]. by rewrite (Ht eq_refl). }
    destruct (Hf Hto) as (-> & -> & _ & ->).
    exists o, env, h. split; [done|]. split; [by apply evolves_refl|].
    by rewrite Hneeds, Huses, Hto.
Qed.

(** Where the first loop leaves the substitution: each argument of the old
    block is sent to the new argument at the same position (the last
    position, should an argument occur twice), and nothing else changes. *)
Lemma minted_env_at (old_args new_args : list IBlockArg) (env : Env) (j : nat)
    (a b : IBlockArg) :
  length new_args = length old_args ->
  old_args !! j = Some a -> new_args !! j = Some b ->
  (forall j' a', j < j' -> old_args !! j' = Some a' -> arg_id a' <> arg_id a) ->
  minted_env old_args new_args env !! KArg (arg_id a) = Some (IArg b).
Proof.
  revert new_args env j.
  induction old_args as [|x old_args IH]; intros [|y new_args] env j Hl Ha Hb Hlast;
    try done.
  injection Hl as Hl. rewrite minted_env_cons. destruct j as [|j].
  - injection Ha as ->. injection Hb as ->.
    destruct (minted_env_lookup old_args new_args
                (<[KArg (arg_id a) := IArg b]> env) (KArg (arg_id a)) Hl) as (H1 & _).
    rewrite H1; [by rewrite lookup_insert_eq|].
    intros (a' & Heq & Hin)%list_elem_of_fmap. injection Heq as Heq.
    apply list_elem_of_lookup in Hin as [j' Hj'].
    by apply (Hlast (S j') a' ltac:(lia) Hj').
  - apply (IH new_args _ j Hl Ha Hb).
    intros j' a' Hlt Hj'. apply (Hlast (S j') a'); [lia|done].
Qed.

(** C3 (as amended): on a block and a substitution in which every
    [RewriteId] op has an operand, [IBlock.from_iblock(B.ops, B, env)]
    returns a new block.  Its arguments are new objects, one per argument of
    [B], with the same types and numbered by position.  Before the first op
    is reached the substitution sends each argument of [B] to the new
    argument at its position and is [env] at every other key.  The ops are
    then gone through in order, each from the substitution the one before
    left: an op none of whose operands, nested ones included, is a key of
    that substitution is kept as the same instance and leaves the
    substitution as it is; any other op is replaced by a new op on the same
    [OpData], with the result types and successors of the old one, whose
    operands are the old ones remapped through the substitution and
    resolved the way [_unpack_operands] does (looked up once more, and a
    result of a [RewriteId] op replaced by that op's last operand), and the
    substitution then sends the results of the old op to those of the new
    one.  Of a rebuilt op, a region none of whose nested operands is a key
    is kept as the same instance; in any other region the blocks with such
    an operand are replaced by what [from_iblock] makes of them and the
    others are kept. *)
Theorem from_iblock_rebuilds (B : IBlock) (env : Env) (h : Heap) :
  env_ok env -> Forall op_ok (IBlock_ops B) ->
  exists new_args ops' env' h',
    IBlock_from_iblock (IBlock_ops B) B (Some env) h
      = Ok ((MkIBlock (next_id h') new_args ops', env'),
            MkHeap (S (next_id h')) (stdout h')) /\
    next_id h <= next_id h' /\
    map arg_typ new_args = map arg_typ (IBlock_args B) /\
    map arg_index new_args = seq 0 (length (IBlock_args B)) /\
    map arg_id new_args = seq (next_id h) (length (IBlock_args B)) /\
    (forall j a b,
        IBlock_args B !! j = Some a -> new_args !! j = Some b ->
        (forall j' a', j < j' -> IBlock_args B !! j' = Some a' -> arg_id a' <> arg_id a) ->
        minted_env (IBlock_args B) new_args env !! KArg (arg_id a) = Some (IArg b)) /\
    (forall k, k ∉ map (fun a => KArg (arg_id a)) (IBlock_args B) ->
               minted_env (IBlock_args B) new_args env !! k = env !! k) /\
    length ops' = length (IBlock_ops B) /\
    threaded op_step (minted_env (IBlock_args B) new_args env)
             (MkHeap (next_id h + length (IBlock_args B)) (stdout h))
             (IBlock_ops B) ops' env' h'.
Proof.
  intros Hok Hops. unfold IBlock_from_iblock. simpl default.
  destruct (from_iblock_with_ok (IBlock_ops B) (IBlock_args B)
              (proj2 (Forall_forall _ _) (fun x _ => substitute_spec_all x))
              env h Hok Hops)
    as (new_args & ops' & env' & h' & E & Ht & Hi & Hd & Hev & Hlen & Hth).
  assert (length new_args = length (IBlock_args B)) as Hl.
  { by rewrite <- (length_map arg_typ new_args), Ht, length_map. }
  exists new_args, ops', env', h'.
  split; [exact E|]. split; [by destruct Hev as (_ & _ & _ & ?)|].
  do 3 (split; [done|]). split; [|split; [|by split]].
  - intros j a b Ha Hb Hlast. by apply (minted_env_at _ _ env j a b Hl Ha Hb).
  - intros k Hk.
    by destruct (minted_env_lookup (IBlock_args B) new_args env k Hl) as (H1 & _); auto.
Qed.

(** *** Rebuilding concrete blocks *)

(** A block [^bb(a0): x = neg(a0); y = constant]. *)
Definition arg0 : IBlockArg := MkIBlockArg 30 i32 0.

Definition neg_arg_op : IOp :=
  MkIOp 32 (MkOpData 31 "arith.neg" (OpClass "arith.neg") ∅) [IArg arg0] [i32] [] [].

Definition example_block : IBlock := MkIBlock 33 [arg0] [neg_arg_op; const_op].

(** A block whose only op uses the result of [const_op], and a substitution
    that sends that result to the result of [rid_op]. *)
Definition neg_block : IBlock := MkIBlock 34 [] [neg_op].

Definition rid_env : Env := {[KResult 2 0 := IResult i32 rid_op 0]}.

(** C3 (counterexample): the operand of [neg_op] is a key of the
    substitution, which sends it to the result of the [RewriteId] op; the
    rebuilt op does not get that image as operand but the operand of the
    [RewriteId] op. *)
Lemma rebuilt_operand_not_env_image :
  match IBlock_from_iblock (IBlock_ops neg_block) neg_block (Some rid_env) heap0 with
  | Ok ((b', _), _) =>
      exists o', IBlock_ops b' = [o'] /\
                 IOp_operands o' = [IResult i32 const_op 0] /\
                 IOp_operands o'
                 <> map (fun v => default v (rid_env !! ikey v)) (IOp_operands neg_op)
  | Raise _ => False
  end.
Proof.
  vm_compute. eexists. split; [reflexivity|]. split; [reflexivity|]. intros [=].
Qed.

(** The scenario of the specification: [y] is the same instance, [x] is a
    new op on the same record whose operand is the new block argument. *)
Lemma localized_rebuild_sharing :
  match IBlock_from_iblock (IBlock_ops example_block) example_block None heap0 with
  | Ok ((MkIBlock i [new_arg] [x'; y'], _), _) =>
      y' = const_op /\
      IOp_eq x' neg_arg_op = false /\
      IOp_op_data x' = IOp_op_data neg_arg_op /\
      IOp_operands x' = [IArg new_arg] /\
      IBlockArg_eq new_arg arg0 = false /\
      arg_typ new_arg = arg_typ arg0 /\ arg_index new_arg = arg_index arg0
  | _ => False
  end.
Proof. vm_compute. by repeat split. Qed.

Lemma leaf_op_ok (o : IOp) :
  IOp_regions o = [] -> rewrite_id_ok o -> Forall value_ok (IOp_operands o) -> op_ok o.
Proof.
  intros Hr Ho Hv. unfold op_ok. rewrite walk_list_eq, Hr. simpl. by repeat constructor.
Qed.

(** A block whose second op uses the result of the first. *)
Definition const_neg_block : IBlock := MkIBlock 35 [] [const_op; neg_op].

(** C3 (witness): the theorem on the block of the scenario, read to the
    end: the first op is rebuilt on the same record with the new block
    argument as operand, the second is the same instance; and on
    [const_neg_block] with an empty substitution, where it gives that both
    ops are kept. *)
Lemma from_iblock_rebuilds_witness :
  (exists x' env' h',
     IBlock_from_iblock (IBlock_ops example_block) example_block (Some ∅) heap0
       = Ok ((MkIBlock 102 [MkIBlockArg 100 i32 0] [x'; const_op], env'), h') /\
     IOp_id x' = 101 /\
     IOp_op_data x' = IOp_op_data neg_arg_op /\
     IOp_operands x' = [IArg (MkIBlockArg 100 i32 0)] /\
     env' !! KArg 30 = Some (IArg (MkIBlockArg 100 i32 0)) /\
     env' !! KResult 32 0 = Some (IResult i32 x' 0)) /\
  (exists i h',
     IBlock_from_iblock (IBlock_ops const_neg_block) const_neg_block (Some ∅) heap0
       = Ok ((MkIBlock i [] [const_op; neg_op], ∅), h')).
Proof.
  assert (env_ok ∅) as Hempty.
  { intros k v Hk. by rewrite lookup_empty in Hk. }
  split.
  - destruct (from_iblock_rebuilds example_block ∅ heap0 Hempty)
      as (new_args & ops' & env' & h' & E & _ & Ht & Hi & Hd & _ & _ & _ & Hth).
    { apply Forall_cons. split; [|apply Forall_cons; split; [|constructor]].
      - apply leaf_op_ok; [done | done | by repeat constructor].
      - apply leaf_op_ok; [done | done | constructor]. }
    destruct new_args as [|[ai at_ an] [|? ?]]; try done.
    simpl in Ht, Hi, Hd. injection Ht as ->. injection Hi as ->. injection Hd as ->.
    inversion Hth as [|? ? ? x' env1 h1 ? l' ? ? Hx Hrest]; subst. clear Hth.
    inversion Hrest as [|? ? ? y' env2 h2 ? l'' ? ? Hy Hnil]; subst. clear Hrest.
    inversion Hnil; subst. clear Hnil.
    unfold op_step in Hx.
    assert (needs_subst (minted_env (IBlock_args example_block) [MkIBlockArg 100 i32 0] ∅)
                        neg_arg_op = true) as Hn by (by vm_compute).
    rewrite Hn in Hx. clear Hn.
    destruct Hx as (nr & e1 & g1 & nops & _ & _ & _ & Hunt & _ & HF & -> & -> & ->).
    destruct (Hunt eq_refl) as (-> & -> & ->). clear Hunt.
    apply Forall2_cons_inv_l in HF as (v' & rest & Hv & Hnil & ->).
    apply Forall2_nil_inv_l in Hnil as ->.
    unfold remapped in Hv. vm_compute in Hv. injection Hv as <-.
    unfold op_step in Hy.
    match type of Hy with (if needs_subst ?e ?o then _ else _) =>
      assert (needs_subst e o = false) as Hn by (by vm_compute); rewrite Hn in Hy
    end.
    destruct Hy as (-> & -> & ->).
    eexists _, _, _. split; [exact E|]. by vm_compute.
  - destruct (from_iblock_rebuilds const_neg_block ∅ heap0 Hempty)
      as (new_args & ops' & env' & h' & E & _ & Ht & _ & _ & _ & _ & _ & Hth).
    { apply Forall_cons. split; [|apply Forall_cons; split; [|constructor]].
      - apply leaf_op_ok; [done | done | constructor].
      - apply leaf_op_ok; [done | done | by repeat constructor]. }
    destruct new_args as [|? ?]; [|done].
    inversion Hth as [|? ? ? x' env1 h1 ? l' ? ? Hx Hrest]; subst. clear Hth.
    inversion Hrest as [|? ? ? y' env2 h2 ? l'' ? ? Hy Hnil]; subst. clear Hrest.
    inversion Hnil; subst. clear Hnil.
    unfold op_step in Hx.
    assert (needs_subst (minted_env (IBlock_args const_neg_block) [] ∅) const_op = false)
      as Hn by (by vm_compute).
    rewrite Hn in Hx. clear Hn. destruct Hx as (-> & -> & ->).
    unfold op_step in Hy.
    assert (needs_subst (minted_env (IBlock_args const_neg_block) [] ∅) neg_op = false)
      as Hn by (by vm_compute).
    rewrite Hn in Hy. clear Hn. destruct Hy as (-> & -> & ->).
    eexists _, _. exact E.
Defined.

(** ** The round trip through the immutable mirror *)

(** *** Wiring by structural position

    The skeleton of a module forgets every identity.  Ops and blocks are
    numbered in the order a walk enters them; an operand is written as the
    position of its definition: result [j] of op number [i], or argument [j]
    of block number [b].  A definition counts from the point where the
    conversions know it: a block argument when its block is entered, a
    result when its op, regions included, is complete.  An operand whose
    definition the walk has not met is [PForward] when it is a result that
    has an owner, and [PUnknown] otherwise. *)
Inductive Pos : Type :=
| PResult (op_index result_index : nat)
| PArg (block_index arg_index : nat)
| PForward (owner_name : string) (result_index : nat)
| PUnknown.

Definition resolved (p : Pos) : Prop :=
  match p with
  | PResult _ _ | PArg _ _ => True
  | PForward _ _ | PUnknown => False
  end.

Inductive Skel : Type :=
| SkOp (name : string) (kind : OpType) (attributes : gmap string Attribute)
       (operands : list Pos) (result_types : list Attribute)
       (successors : list (option nat)) (regions : list (list SkBlock))
with SkBlock : Type :=
| SkBlk (arg_types : list Attribute) (ops : list Skel).

(** The numbering built so far: the positions of the values and blocks
    already defined, and the next op and block numbers. *)
Record Numbering (K : Type) `{Countable K} : Type := MkNumbering {
  values : gmap K Pos;
  blocks : gmap ident nat;
  n_ops : nat;
  n_blocks : nat
}.
Arguments MkNumbering {K _ _} values blocks n_ops n_blocks.
Arguments values {K _ _} _.
Arguments blocks {K _ _} _.
Arguments n_ops {K _ _} _.
Arguments n_blocks {K _ _} _.

Fixpoint register {K} `{Countable K} (mk : nat -> Pos) (j : nat) (keys : list K)
    (vals : gmap K Pos) : gmap K Pos :=
  match keys with
  | [] => vals
  | k :: keys' => register mk (S j) keys' (<[k := mk j]> vals)
  end.

Section MapFold.
Context {A B S : Type}.
Variable f : A -> S -> B * S.

Fixpoint mapfold (l : list A) (s : S) : list B * S :=
  match l with
  | [] => ([], s)
  | x :: l' =>
      let '(y, s1) := f x s in
      let '(ys, s2) := mapfold l' s1 in
      (y :: ys, s2)
  end.
End MapFold.

Definition enter_op {K} `{Countable K} (st : Numbering K) : Numbering K :=
  MkNumbering (values st) (blocks st) (S (n_ops st)) (n_blocks st).

Definition enter_block {K} `{Countable K} (bid : ident) (arg_keys : list K)
    (st : Numbering K) : Numbering K :=
  MkNumbering (register (PArg (n_blocks st)) 0 arg_keys (values st))
              (<[bid := n_blocks st]> (blocks st))
              (n_ops st) (S (n_blocks st)).

Definition leave_op {K} `{Countable K} (idx : nat) (result_keys : list K)
    (st : Numbering K) : Numbering K :=
  MkNumbering (register (PResult idx) 0 result_keys (values st))
              (blocks st) (n_ops st) (n_blocks st).

(** The position of a mutable operand: that of the definition with its
    identity, provided the operand agrees with it on its kind and result
    index (as one and the same object does). *)
Definition operand_pos (vals : gmap ident Pos) (v : SSAValue) : Pos :=
  match v with
  | OpResult vid _ owner idx =>
      match vals !! vid with
      | Some (PResult i j) => if Nat.eqb idx j then PResult i j else PUnknown
      | Some _ => PUnknown
      | None =>
          match owner with
          | Some o => PForward (Operation_name o) idx
          | None => PUnknown
          end
      end
  | BlockArg a =>
      match vals !! barg_id a with
      | Some (PArg b j) => PArg b j
      | _ => PUnknown
      end
  end.

(** The skeleton of a mutable op. *)
Fixpoint skeleton (o : Operation) (st : Numbering ident) : Skel * Numbering ident :=
  let '(regions', st') :=
    mapfold (fun r st =>
      mapfold (fun b st =>
        let '(ops', st') :=
          mapfold skeleton (Block_ops b)
                  (enter_block (Block_id b) (map barg_id (Block_args b)) st) in
        (SkBlk (map barg_typ (Block_args b)) ops', st'))
        (Region_blocks r) st)
      (Operation_regions o) (enter_op st) in
  (SkOp (Operation_name o) (Operation_op_type o) (Operation_attributes o)
        (map (operand_pos (values st)) (Operation_operands o))
        (map res_typ (Operation_results o))
        (map (fun b => blocks st !! Block_id b) (Operation_successors o))
        regions',
   leave_op (n_ops st) (map res_id (Operation_results o)) st').

Definition skeleton_block (b : Block) (st : Numbering ident) : SkBlock * Numbering ident :=
  let '(ops', st') :=
    mapfold skeleton (Block_ops b)
            (enter_block (Block_id b) (map barg_id (Block_args b)) st) in
  (SkBlk (map barg_typ (Block_args b)) ops', st').

Definition skeleton_region (r : Region) (st : Numbering ident)
    : list SkBlock * Numbering ident :=
  mapfold skeleton_block (Region_blocks r) st.

(** The skeleton of an immutable op. *)
Definition ioperand_pos (vals : gmap IKey Pos) (v : ISSAValue) : Pos :=
  match vals !! ikey v with
  | Some p => p
  | None =>
      match v with
      | IResult _ o idx => PForward (IOp_name o) idx
      | IArg _ => PUnknown
      end
  end.

Fixpoint iskeleton (o : IOp) (st : Numbering IKey) : Skel * Numbering IKey :=
  let '(regions', st') :=
    mapfold (fun r st =>
      mapfold (fun b st =>
        let '(ops', st') :=
          mapfold iskeleton (IBlock_ops b)
                  (enter_block (IBlock_id b)
                               (map (fun a => KArg (arg_id a)) (IBlock_args b)) st) in
        (SkBlk (map arg_typ (IBlock_args b)) ops', st'))
        (IRegion_blocks r) st)
      (IOp_regions o) (enter_op st) in
  (SkOp (IOp_name o) (IOp_op_type o) (IOp_attributes o)
        (map (ioperand_pos (values st)) (IOp_operands o))
        (IOp_result_types o)
        (map (fun b => blocks st !! IBlock_id b) (IOp_successors o))
        regions',
   leave_op (n_ops st) (map ikey (IOp_results o)) st').

Definition iskeleton_block (b : IBlock) (st : Numbering IKey) : SkBlock * Numbering IKey :=
  let '(ops', st') :=
    mapfold iskeleton (IBlock_ops b)
            (enter_block (IBlock_id b)
                         (map (fun a => KArg (arg_id a)) (IBlock_args b)) st) in
  (SkBlk (map arg_typ (IBlock_args b)) ops', st').

Definition iskeleton_region (r : IRegion) (st : Numbering IKey)
    : list SkBlock * Numbering IKey :=
  mapfold iskeleton_block (IRegion_blocks r) st.

Definition empty_numbering {K} `{Countable K} : Numbering K := MkNumbering ∅ ∅ 0 0.

(** [P] holds of every element (a computing form of [Forall]). *)
Section All.
Context {A : Type}.
Variable P : A -> Prop.

Fixpoint All (l : list A) : Prop :=
  match l with
  | [] => True
  | x :: l' => P x /\ All l'
  end.
End All.

(** A skeleton in which every operand is resolved and no op has a successor. *)
Fixpoint closed (s : Skel) : Prop :=
  match s with
  | SkOp _ _ _ operands _ successors regions =>
      All resolved operands /\ successors = [] /\
      All (fun blks =>
        All (fun b => match b with SkBlk _ ops => All closed ops end) blks)
        regions
  end.

(** Every region has a first block, and that block is attached to a region:
    what [IRegion.from_mutable] asserts. *)
Fixpoint regions_attached (o : Operation) : Prop :=
  All (fun r =>
    (exists first rest p,
        Region_blocks r = first :: rest /\ Block_parent first = Some p) /\
    All (fun b => All regions_attached (Block_ops b)) (Region_blocks r))
    (Operation_regions o).

(** The ops of a module in walk order, and what the claim compares per op. *)
Fixpoint Operation_walk (o : Operation) : list Operation :=
  o :: concat (map (fun r =>
         concat (map (fun b => concat (map Operation_walk (Block_ops b)))
                     (Region_blocks r))) (Operation_regions o)).



(** The round trip: [get_immutable_copy], then [get_mutable_copy]. *)
Definition round_trip (m : Operation) : M Operation :=
  let* i := get_immutable_copy m in
  let* r := IOp_get_mutable_copy i None None in
  ret r.1.

(** *** The conversions, piece by piece *)

Lemma Operation_nested_ind (P : Operation -> Prop) :
  (forall i t operands results successors attributes regions,
      Forall (fun r => Forall (fun b => Forall P (Block_ops b)) (Region_blocks r))
             regions ->
      P (MkOperation i t operands results successors attributes regions)) ->
  forall o, P o.
Proof.
  intros H. fix IH 1. intros [i t operands results successors attributes regions].
  apply H. induction regions as [|[rid blocks] regions IHr]; constructor; [|done].
  simpl. induction blocks as [|[bid p bargs bops] blocks IHb]; constructor; [|done].
  simpl. induction bops as [|o bops IHo]; constructor; [apply IH | done].
Qed.

Lemma mapfold_ext {A B S} (f g : A -> S -> B * S) (l : list A) (s : S) :
  (forall x s, x ∈ l -> f x s = g x s) -> mapfold f l s = mapfold g l s.
Proof.
  revert s. induction l as [|x l IH]; intros s E; simpl; [done|].
  rewrite E by left. destruct (g x s) as [y s1].
  rewrite IH; [done|]. intros. apply E. by right.
Qed.

Lemma mapfold_map {A A' B S} (f : A' -> S -> B * S) (g : A -> A') (l : list A) (s : S) :
  mapfold f (map g l) s = mapfold (fun x => f (g x)) l s.
Proof.
  revert s. induction l as [|x l IH]; intros s; simpl; [done|].
  destruct (f (g x) s) as [y s1]. by rewrite IH.
Qed.

Lemma skeleton_eq i t operands results successors attributes regions
    (st : Numbering ident) :
  skeleton (MkOperation i t operands results successors attributes regions) st =
  (SkOp (OpType_name t) t attributes
        (map (operand_pos (values st)) operands)
        (map res_typ results)
        (map (fun b => blocks st !! Block_id b) successors)
        (mapfold skeleton_region regions (enter_op st)).1,
   leave_op (n_ops st) (map res_id results)
            (mapfold skeleton_region regions (enter_op st)).2).
Proof.
  cbn [skeleton Operation_regions Operation_name Operation_op_type
       Operation_attributes Operation_operands Operation_results
       Operation_successors].
  by destruct (mapfold _ regions (enter_op st)).
Qed.

Lemma skeleton_block_eq bid p bargs bops (st : Numbering ident) :
  skeleton_block (MkBlock bid p bargs bops) st =
  (SkBlk (map barg_typ bargs)
         (mapfold skeleton bops (enter_block bid (map barg_id bargs) st)).1,
   (mapfold skeleton bops (enter_block bid (map barg_id bargs) st)).2).
Proof.
  unfold skeleton_block. simpl.
  by destruct (mapfold skeleton bops _).
Qed.

Lemma iskeleton_eq i d operands result_types successors regions
    (st : Numbering IKey) :
  iskeleton (MkIOp i d operands result_types successors regions) st =
  (SkOp (od_name d) (od_op_type d) (od_attributes d)
        (map (ioperand_pos (values st)) operands)
        result_types
        (map (fun b => blocks st !! IBlock_id b) successors)
        (mapfold iskeleton_region regions (enter_op st)).1,
   leave_op (n_ops st)
            (map ikey (IOp_results (MkIOp i d operands result_types successors regions)))
            (mapfold iskeleton_region regions (enter_op st)).2).
Proof.
  cbn [iskeleton IOp_regions IOp_name IOp_op_type IOp_attributes IOp_operands
       IOp_result_types IOp_successors IOp_op_data].
  by destruct (mapfold _ regions (enter_op st)).
Qed.

Lemma iskeleton_block_eq bid bargs bops (st : Numbering IKey) :
  iskeleton_block (MkIBlock bid bargs bops) st =
  (SkBlk (map arg_typ bargs)
         (mapfold iskeleton bops
            (enter_block bid (map (fun a => KArg (arg_id a)) bargs) st)).1,
   (mapfold iskeleton bops
      (enter_block bid (map (fun a => KArg (arg_id a)) bargs) st)).2).
Proof.
  unfold iskeleton_block. simpl.
  by destruct (mapfold iskeleton bops _).
Qed.

(** [IBlock.from_mutable] and [IRegion.from_mutable] on given dicts. *)
Definition IBlock_from_mutable_maps (b : Block) (maps : ValueMap * BlockMap)
    : M (IBlock * (ValueMap * BlockMap)) :=
  IBlock_from_mutable_with (fun o maps => IOp_from_mutable_maps o maps None)
    (Block_args b) (Block_ops b) maps.

Definition IRegion_from_mutable_maps (r : Region) (maps : ValueMap * BlockMap)
    : M (IRegion * (ValueMap * BlockMap)) :=
  let* (immutable_blocks, maps) :=
    mapS IBlock_from_mutable_maps (Region_blocks r) maps in
  match Region_blocks r with
  | [] => raise (IndexError "list index out of range")
  | first :: _ =>
      match Block_parent first with
      | None => raise AssertionError
      | Some _ =>
          let* r := IRegion_init immutable_blocks in
          ret (r, maps)
      end
  end.

(** One round of the loop over [op.operands] in [IOp.from_mutable]. *)
Definition convert_operand (value_map : ValueMap) (op_type : OpType)
    (operand : SSAValue) (_ : unit) : M (ISSAValue * unit) :=
  match operand with
  | OpResult vid typ owner result_index =>
      let* producer :=
        match value_map !! vid with
        | Some (IResult _ p _) => ret p
        | Some (IArg _) => raise (AttributeError "op")
        | None =>
            match owner with
            | Some owner =>
                let* r := IOp_from_mutable_maps owner (∅, ∅) None in
                ret r.1
            | None => raise AssertionError
            end
        end in
      ret (IResult typ producer result_index, tt)
  | BlockArg a =>
      match value_map !! barg_id a with
      | None => raise (Exception
          ("Block argument expected in mapping for op: " +:+ OpType_name op_type))
      | Some v => ret (v, tt)
      end
  end.

(** The results of the new op, recorded for the old ones. *)
Definition record_immutable_results (m_results : list OpResultCell)
    (immutable_op : IOp) (value_map : ValueMap) : ValueMap :=
  fold_left (fun vm '(result, r) => <[res_id result := r]> vm)
            (zip m_results (IOp_results immutable_op)) value_map.

Lemma IOp_from_mutable_maps_eq i t operands results attributes regions
    (vm : ValueMap) (bm : BlockMap) (h : Heap) :
  IOp_from_mutable_maps (MkOperation i t operands results [] attributes regions)
                        (vm, bm) None h =
  (let* r := mapS (convert_operand vm t) operands tt in
   let* (regions', maps) := mapS IRegion_from_mutable_maps regions (vm, bm) in
   let* immutable_op :=
     IOp_get (OpType_name t) t r.1 (map res_typ results) attributes [] regions' in
   ret (immutable_op,
        (record_immutable_results results immutable_op maps.1, maps.2))) h.
Proof.
  cbn [IOp_from_mutable_maps mapS].
  rewrite !bind_eq.
  change (mapS _ operands tt h) with (mapS (convert_operand vm t) operands tt h).
  destruct (mapS (convert_operand vm t) operands tt h) as [[r h1]|e]; [|done].
  unfold ret at 1 2. cbv beta iota.
  rewrite !bind_eq.
  rewrite (mapS_ext _ IRegion_from_mutable_maps); [done|].
  intros [rid blocks] maps h3 _. unfold IRegion_from_mutable_maps. simpl.
  rewrite !bind_eq.
  rewrite (mapS_ext _ IBlock_from_mutable_maps); [done|].
  by intros [bid p bargs bops] maps' h4 _.
Qed.

Lemma All_elem_of {A} (P : A -> Prop) (l : list A) (x : A) :
  All P l -> x ∈ l -> P x.
Proof.
  induction l as [|y l IH]; simpl; intros HA Hin.
  - by apply elem_of_nil in Hin.
  - apply elem_of_cons in Hin as [->|Hin]; [apply HA | apply IH; [apply HA | done]].
Qed.

(** *** A loop of a conversion against the numbering of both sides

    [f] converts one element, [g1] numbers the element and [g2] its image.
    When each round keeps the invariant and gives the image the skeleton of
    its source, so does the loop. *)
Section Simulation.
Context {A B S T1 T2 C : Type}.
Variable f : A -> S -> M (B * S).
Variable g1 : A -> T1 -> C * T1.
Variable g2 : B -> T2 -> C * T2.
Variable Inv : S -> T1 -> T2 -> Heap -> Prop.
Variable Good : C -> Prop.

Lemma mapS_mapfold (l : list A) :
  (forall x, x ∈ l -> forall s t1 t2 h, Inv s t1 t2 h -> Good (g1 x t1).1 ->
     match f x s h with
     | Ok ((y, s'), h') =>
         (g2 y t2).1 = (g1 x t1).1 /\ Inv s' (g1 x t1).2 (g2 y t2).2 h'
     | Raise _ => False
     end) ->
  forall s t1 t2 h, Inv s t1 t2 h -> All Good (mapfold g1 l t1).1 ->
    match mapS f l s h with
    | Ok ((ys, s'), h') =>
        (mapfold g2 ys t2).1 = (mapfold g1 l t1).1 /\
        Inv s' (mapfold g1 l t1).2 (mapfold g2 ys t2).2 h'
    | Raise _ => False
    end.
Proof.
  induction l as [|x l IH]; intros Hf s t1 t2 h HI HG.
  - simpl. by split.
  - cbn [mapS mapfold] in *. rewrite bind_eq.
    pose proof (Hf x ltac:(left) s t1 t2 h HI) as Hx.
    destruct (g1 x t1) as [c t1'] eqn:E1.
    destruct (mapfold g1 l t1') as [cs t1''] eqn:E2.
    destruct HG as [HGc HGcs]. specialize (Hx HGc).
    destruct (f x s h) as [[[y s1] h1]|e]; [|done].
    destruct Hx as [Hc HI1]. cbn [fst snd] in Hc, HI1.
    rewrite bind_eq.
    assert (forall x, x ∈ l -> forall s t1 t2 h, Inv s t1 t2 h -> Good (g1 x t1).1 ->
       match f x s h with
       | Ok ((y, s'), h') =>
           (g2 y t2).1 = (g1 x t1).1 /\ Inv s' (g1 x t1).2 (g2 y t2).2 h'
       | Raise _ => False
       end) as Hf'.
    { intros x' Hin. apply Hf. by right. }
    specialize (IH Hf' s1 t1' (g2 y t2).2 h1 HI1). rewrite E2 in IH.
    specialize (IH HGcs).
    destruct (mapS f l s1 h1) as [[[ys s2] h2]|e]; [|done].
    unfold ret. cbn [mapfold].
    destruct (g2 y t2) as [c' t2'] eqn:E3. cbn [fst snd] in *.
    destruct (mapfold g2 ys t2') as [cs' t2''] eqn:E4. cbn [fst snd] in *.
    destruct IH as [-> HI2]. by subst c'.
Qed.
End Simulation.

(** *** From the mutable module to its mirror *)

Definition key_id (k : IKey) : ident :=
  match k with
  | KResult o _ => o
  | KArg a => a
  end.

(** A definition and its image are of one kind. *)
Definition same_kind (pos : Pos) (v : ISSAValue) : Prop :=
  match pos, v with
  | PResult _ j, IResult _ _ j' => j = j'
  | PArg _ _, IArg _ => True
  | _, _ => False
  end.

(** [value_map] against the two numberings: a mutable value that has a
    position is in [value_map], and its image has that position.  [U] bounds
    the keys of the images. *)
Definition mirrored (U : IKey -> Prop) (vm : ValueMap)
    (pm : gmap ident Pos) (pi : gmap IKey Pos) : Prop :=
  (forall id pos, pm !! id = Some pos ->
     exists v, vm !! id = Some v /\ pi !! ikey v = Some pos /\ same_kind pos v) /\
  (forall id v, vm !! id = Some v -> U (ikey v)).

Lemma mirrored_insert U vm pm pi id v pos :
  mirrored U vm pm pi -> ~ U (ikey v) -> same_kind pos v ->
  mirrored (fun k => U k \/ k = ikey v)
           (<[id := v]> vm) (<[id := pos]> pm) (<[ikey v := pos]> pi).
Proof.
  intros [H1 H2] Hn Hk. split.
  - intros id' pos' Hl. destruct (decide (id' = id)) as [->|Hne].
    + rewrite lookup_insert_eq in Hl. injection Hl as <-.
      exists v. rewrite !lookup_insert_eq. by split; [|split].
    + rewrite lookup_insert_ne in Hl by done.
      destruct (H1 id' pos' Hl) as (v' & Hv & Hp & Hk').
      exists v'. rewrite lookup_insert_ne by done. split; [done|]. split; [|done].
      rewrite lookup_insert_ne; [done|]. intros E. apply Hn. rewrite E. eauto.
  - intros id' v' Hl. destruct (decide (id' = id)) as [->|Hne].
    + rewrite lookup_insert_eq in Hl. injection Hl as <-. by right.
    + rewrite lookup_insert_ne in Hl by done. left. eauto.
Qed.

Lemma mirrored_weaken (U U' : IKey -> Prop) vm pm pi :
  mirrored U vm pm pi -> (forall k, U k -> U' k) -> mirrored U' vm pm pi.
Proof. intros [H1 H2] HU. split; [done|]. intros. apply HU. eauto. Qed.

Lemma convert_args_ok (nb : nat) (bargs : list BlockArgument) :
  forall j vm pm pi h,
    mirrored (fun k => key_id k < next_id h) vm pm pi ->
    exists args' vm' h',
      mapS convert_arg bargs vm h = Ok ((args', vm'), h') /\
      map arg_typ args' = map barg_typ bargs /\
      stdout h' = stdout h /\
      mirrored (fun k => key_id k < next_id h') vm'
        (register (PArg nb) j (map barg_id bargs) pm)
        (register (PArg nb) j (map (fun a => KArg (arg_id a)) args') pi).
Proof.
  induction bargs as [|a bargs IH]; intros j vm pm pi h Hm.
  - exists [], vm, h. by repeat split; try apply Hm.
  - cbn [mapS]. rewrite bind_eq.
    unfold convert_arg at 1, IBlockArg_init, bind, fresh, ret. cbn [fst snd].
    set (a' := MkIBlockArg (next_id h) (barg_typ a) (barg_index a)).
    set (h1 := MkHeap (S (next_id h)) (stdout h)).
    destruct (IH (S j) (<[barg_id a := IArg a']> vm) (<[barg_id a := PArg nb j]> pm)
                 (<[KArg (arg_id a') := PArg nb j]> pi) h1)
      as (args' & vm' & h' & E & Ht & Ho & Hm').
    { eapply mirrored_weaken.
      - apply (mirrored_insert _ vm pm pi (barg_id a) (IArg a') (PArg nb j) Hm);
          [simpl; lia | done].
      - intros k [Hk| ->]; simpl; lia. }
    exists (a' :: args'), vm', h'. rewrite E. split; [done|]. split; [|split].
    + simpl. by rewrite Ht.
    + done.
    + done.
Qed.

Lemma record_results_mirrored (I : IOp) (n : nat) (cells : list OpResultCell) :
  forall (F : nat -> Attribute -> ISSAValue) j vm pm pi,
    (forall idx typ, F idx typ = IResult typ I (j + idx)) ->
    mirrored (fun k => key_id k < IOp_id I \/
                       exists j', j' < j /\ k = KResult (IOp_id I) j') vm pm pi ->
    mirrored (fun k => key_id k <= IOp_id I)
      (fold_left (fun vm '(result, r) => <[res_id result := r]> vm)
                 (zip cells (imap F (map res_typ cells))) vm)
      (register (PResult n) j (map res_id cells) pm)
      (register (PResult n) j (map ikey (imap F (map res_typ cells))) pi).
Proof.
  induction cells as [|c cells IH]; intros F j vm pm pi HF Hm.
  - simpl. eapply mirrored_weaken; [done|].
    intros k [Hk|(j' & _ & ->)]; simpl; lia.
  - simpl. rewrite HF, Nat.add_0_r.
    apply (IH (F ∘ S) (S j)).
    + intros idx typ. simpl. rewrite HF. f_equal. lia.
    + eapply mirrored_weaken.
      * apply (mirrored_insert _ vm pm pi (res_id c) (IResult (res_typ c) I j)
                               (PResult n j) Hm); [|done].
        simpl. intros [Hk|(j' & Hj & [= ->])]; lia.
      * simpl. intros k [[Hk|(j' & Hj & ->)]| ->]; [by left|right..].
        -- exists j'. split; [lia|done].
        -- exists j. split; [lia|done].
Qed.

Lemma convert_operands_ok U (vm : ValueMap) pm pi (t : OpType)
    (operands : list SSAValue) (h : Heap) :
  mirrored U vm pm pi -> All resolved (map (operand_pos pm) operands) ->
  exists vs,
    mapS (convert_operand vm t) operands tt h = Ok ((vs, tt), h) /\
    map (ioperand_pos pi) vs = map (operand_pos pm) operands.
Proof.
  intros [H1 _]. induction operands as [|x operands IH]; intros HA.
  - by exists [].
  - cbn [map All] in HA. destruct HA as [Hx HA].
    destruct (IH HA) as (vs & E & Hvs).
    assert (exists v, convert_operand vm t x tt h = Ok ((v, tt), h) /\
                      ioperand_pos pi v = operand_pos pm x) as (v & Ev & Hv).
    { destruct x as [vid typ owner idx|a]; unfold operand_pos in *.
      - destruct (pm !! vid) as [[i j| | |]|] eqn:El; try done.
        + destruct (Nat.eqb_spec idx j) as [->|]; [|done].
          destruct (H1 _ _ El) as ([t' p j'|a'] & Hl & Hp & Hk); [|done].
          simpl in Hk. subst j'. exists (IResult typ p j).
          unfold convert_operand. rewrite Hl. split; [done|].
          unfold ioperand_pos. simpl in *. by rewrite Hp.
        + by destruct owner.
      - destruct (pm !! barg_id a) as [[| b j | |]|] eqn:El; try done.
        destruct (H1 _ _ El) as (v & Hl & Hp & Hk).
        exists v. unfold convert_operand. rewrite Hl. split; [done|].
        unfold ioperand_pos. by rewrite Hp. }
    exists (v :: vs). cbn [mapS]. rewrite bind_eq, Ev, bind_eq, E.
    split; [done|]. simpl. by rewrite Hv, Hvs.
Qed.

(** The invariant of [from_mutable]: the walk is at the same op and block
    numbers on both sides, nothing has been printed, and [value_map] mirrors
    the numbering. *)
Definition InvA (out : list string) (s : ValueMap * BlockMap)
    (t1 : Numbering ident) (t2 : Numbering IKey) (h : Heap) : Prop :=
  n_ops t1 = n_ops t2 /\ n_blocks t1 = n_blocks t2 /\ stdout h = out /\
  mirrored (fun k => key_id k < next_id h) s.1 (values t1) (values t2).

Definition block_closed (b : SkBlock) : Prop :=
  match b with SkBlk _ ops => All closed ops end.

Definition region_closed (blks : list SkBlock) : Prop := All block_closed blks.

Definition region_attached (r : Region) : Prop :=
  (exists first rest p,
      Region_blocks r = first :: rest /\ Block_parent first = Some p) /\
  All (fun b => All regions_attached (Block_ops b)) (Region_blocks r).

Definition from_mutable_ok (o : Operation) : Prop :=
  forall out s t1 t2 h,
    InvA out s t1 t2 h -> closed (skeleton o t1).1 -> regions_attached o ->
    match IOp_from_mutable_maps o s None h with
    | Ok ((y, s'), h') =>
        (iskeleton y t2).1 = (skeleton o t1).1 /\
        InvA out s' (skeleton o t1).2 (iskeleton y t2).2 h'
    | Raise _ => False
    end.

Lemma block_from_mutable_ok (b : Block) :
  Forall from_mutable_ok (Block_ops b) -> All regions_attached (Block_ops b) ->
  forall out s t1 t2 h,
    InvA out s t1 t2 h -> block_closed (skeleton_block b t1).1 ->
    match IBlock_from_mutable_maps b s h with
    | Ok ((y, s'), h') =>
        (iskeleton_block y t2).1 = (skeleton_block b t1).1 /\
        InvA out s' (skeleton_block b t1).2 (iskeleton_block y t2).2 h'
    | Raise _ => False
    end.
Proof.
  destruct b as [bid p bargs bops]. simpl. intros Hops Hatt out [vm bm] t1 t2 h.
  intros (Hno & Hnb & Hout & Hm) Hc.
  rewrite skeleton_block_eq in *. cbn [fst snd block_closed] in *.
  unfold IBlock_from_mutable_maps, IBlock_from_mutable_with. simpl.
  rewrite bind_eq.
  destruct (convert_args_ok (n_blocks t1) bargs 0 vm (values t1) (values t2) h Hm)
    as (args' & vm' & h1 & E & Ht & Ho & Hm').
  rewrite E, bind_eq.
  assert (forall X,
    match mapS (fun o maps => IOp_from_mutable_maps o maps None) bops (vm', bm) h1 with
    | Ok ((ys, s'), h') =>
        (mapfold iskeleton ys
           (enter_block X (map (fun a => KArg (arg_id a)) args') t2)).1 =
        (mapfold skeleton bops (enter_block bid (map barg_id bargs) t1)).1 /\
        InvA out s' (mapfold skeleton bops (enter_block bid (map barg_id bargs) t1)).2
          (mapfold iskeleton ys
             (enter_block X (map (fun a => KArg (arg_id a)) args') t2)).2 h'
    | Raise _ => False
    end) as Hsim.
  { intros X.
    apply (mapS_mapfold (fun o maps => IOp_from_mutable_maps o maps None)
             skeleton iskeleton (InvA out) closed bops); [| |done].
    - intros o Hin s t1' t2' h' HI HG.
      rewrite Forall_forall in Hops. apply (Hops o Hin); [done|done|].
      by apply (All_elem_of _ _ _ Hatt).
    - unfold InvA, enter_block. cbn [n_ops n_blocks values fst].
      rewrite <- Hnb. do 2 (split; [congruence|]). split; [congruence|done]. }
  destruct (mapS _ bops (vm', bm) h1) as [[[ops' maps'] h2]|e]; [|apply (Hsim 0)].
  specialize (Hsim (next_id h2)).
  unfold IBlock_init, bind, fresh, ret.
  rewrite iskeleton_block_eq. cbn [fst snd].
  destruct Hsim as [Hs (? & ? & ? & HmF)]. split; [by rewrite Ht, Hs|].
  do 3 (split; [done|]). eapply mirrored_weaken; [done|]. simpl. intros; lia.
Qed.

Lemma region_from_mutable_ok (r : Region) :
  Forall (fun b => Forall from_mutable_ok (Block_ops b)) (Region_blocks r) ->
  region_attached r ->
  forall out s t1 t2 h,
    InvA out s t1 t2 h -> region_closed (skeleton_region r t1).1 ->
    match IRegion_from_mutable_maps r s h with
    | Ok ((y, s'), h') =>
        (iskeleton_region y t2).1 = (skeleton_region r t1).1 /\
        InvA out s' (skeleton_region r t1).2 (iskeleton_region y t2).2 h'
    | Raise _ => False
    end.
Proof.
  intros Hb [(first & rest & p & Hne & Hp) Hatt] out s t1 t2 h HI Hc.
  unfold IRegion_from_mutable_maps. rewrite bind_eq.
  pose proof (mapS_mapfold IBlock_from_mutable_maps skeleton_block iskeleton_block
                (InvA out) block_closed (Region_blocks r)) as Hsim.
  specialize (Hsim ltac:(
    intros b Hin s' t1' t2' h' HI' HG;
    rewrite Forall_forall in Hb;
    apply block_from_mutable_ok;
      [by apply Hb | by apply (All_elem_of _ _ _ Hatt) | done | done])).
  specialize (Hsim s t1 t2 h HI Hc).
  destruct (mapS _ (Region_blocks r) s h) as [[[bs maps'] h1]|e]; [|done].
  rewrite Hne, Hp. unfold IRegion_init, bind, fresh, ret.
  unfold iskeleton_region, skeleton_region in *. cbn [IRegion_blocks fst snd].
  destruct Hsim as [Hs (? & ? & ? & HmF)]. split; [done|].
  do 3 (split; [done|]). eapply mirrored_weaken; [done|]. simpl. intros; lia.
Qed.

(** [from_mutable] gives the mirror the skeleton of its source. *)
Lemma IOp_from_mutable_ok (o : Operation) : from_mutable_ok o.
Proof.
  induction o as [i t operands results successors attributes regions IH]
    using Operation_nested_ind.
  intros out [vm bm] t1 t2 h (Hno & Hnb & Hout & Hm) Hc Hatt.
  rewrite skeleton_eq in *. cbn [fst snd closed] in Hc.
  destruct Hc as (Hops & Hsucc & Hreg).
  apply map_eq_nil in Hsucc. subst successors.
  rewrite IOp_from_mutable_maps_eq. rewrite bind_eq.
  destruct (convert_operands_ok _ vm _ _ t operands h Hm Hops) as (vs & E & Hvs).
  rewrite E, bind_eq.
  pose proof (mapS_mapfold IRegion_from_mutable_maps skeleton_region iskeleton_region
                (InvA out) region_closed regions) as Hsim.
  specialize (Hsim ltac:(
    intros r Hin s' t1' t2' h' HI' HG;
    rewrite Forall_forall in IH;
    apply region_from_mutable_ok;
      [by apply IH | by apply (All_elem_of _ _ _ Hatt) | done | done])).
  specialize (Hsim (vm, bm) (enter_op t1) (enter_op t2) h).
  specialize (Hsim ltac:(unfold InvA, enter_op; cbn [n_ops n_blocks values fst];
                         by rewrite Hno) Hreg).
  destruct (mapS _ regions (vm, bm) h) as [[[regions' maps'] h1]|e]; [|done].
  destruct Hsim as [Hs (Hno' & Hnb' & Hout' & Hm')].
  unfold IOp_get, IOp_init, bind, fresh, ret. cbn [fst snd next_id].
  rewrite iskeleton_eq. cbn [fst snd].
  split; [by rewrite Hvs, Hs|].
  unfold InvA, leave_op. cbn [n_ops n_blocks values fst stdout next_id].
  do 3 (split; [done|]). rewrite <- Hno.
  eapply mirrored_weaken.
  - unfold record_immutable_results, IOp_results. cbn [IOp_result_types].
    apply record_results_mirrored; [done|].
    eapply mirrored_weaken; [done|]. simpl. intros; lia.
  - simpl. intros; lia.
Qed.

(** *** From the mirror back to a mutable module *)

(** [value_mapping] against the two numberings: an immutable value that has
    a position is in [value_mapping], and its copy has that position.  [U]
    bounds the identities of the copies. *)
Definition copied (U : ident -> Prop) (vmap : ValueMapping)
    (pi : gmap IKey Pos) (pm : gmap ident Pos) : Prop :=
  (forall key pos, pi !! key = Some pos ->
     exists v, vmap !! key = Some v /\ operand_pos pm v = pos) /\
  (forall key v, vmap !! key = Some v -> U (SSAValue_id v)).

Lemma operand_pos_insert_ne (pm : gmap ident Pos) (i : ident) (pos : Pos) (v : SSAValue) :
  SSAValue_id v <> i -> operand_pos (<[i := pos]> pm) v = operand_pos pm v.
Proof.
  intros Hne. destruct v as [vid typ owner idx|a]; simpl in *;
    by rewrite lookup_insert_ne.
Qed.

Lemma copied_insert U vmap pi pm k v pos :
  copied U vmap pi pm -> ~ U (SSAValue_id v) ->
  operand_pos (<[SSAValue_id v := pos]> pm) v = pos ->
  copied (fun i => U i \/ i = SSAValue_id v)
         (<[k := v]> vmap) (<[k := pos]> pi) (<[SSAValue_id v := pos]> pm).
Proof.
  intros [H1 H2] Hn Hp. split.
  - intros k' pos' Hl. destruct (decide (k' = k)) as [->|Hne].
    + rewrite lookup_insert_eq in Hl. injection Hl as <-.
      exists v. by rewrite lookup_insert_eq.
    + rewrite lookup_insert_ne in Hl by done.
      destruct (H1 k' pos' Hl) as (v' & Hv & Hp').
      exists v'. rewrite lookup_insert_ne by done. split; [done|].
      rewrite operand_pos_insert_ne; [done|]. intros E. apply Hn. rewrite <- E. eauto.
  - intros k' v' Hl. destruct (decide (k' = k)) as [->|Hne].
    + rewrite lookup_insert_eq in Hl. injection Hl as <-. by right.
    + rewrite lookup_insert_ne in Hl by done. left. eauto.
Qed.

Lemma copied_weaken (U U' : ident -> Prop) vmap pi pm :
  copied U vmap pi pm -> (forall i, U i -> U' i) -> copied U' vmap pi pm.
Proof. intros [H1 H2] HU. split; [done|]. intros. apply HU. eauto. Qed.

Lemma make_block_arguments_ok (types : list Attribute) (idx : nat) (h : Heap) :
  mapS make_block_argument types idx h
  = Ok ((imap (fun k t => MkBlockArgument (next_id h + k) t (idx + k)) types,
         idx + length types),
        MkHeap (next_id h + length types) (stdout h)).
Proof.
  revert idx h. induction types as [|t types IH]; intros idx h; simpl.
  - unfold ret. rewrite !Nat.add_0_r. by destruct h.
  - unfold bind at 1. unfold make_block_argument at 1, bind, fresh, ret. simpl.
    unfold bind. rewrite IH. simpl. unfold ret. rewrite !Nat.add_0_r.
    do 3 f_equal.
    + f_equal. apply imap_ext. intros k t' _. simpl. f_equal; lia.
    + lia.
    + f_equal. lia.
Qed.

Lemma Block_from_arg_types_ok (types : list Attribute) (h : Heap) :
  Block_from_arg_types types h
  = Ok (MkBlock (next_id h) None
          (imap (fun k t => MkBlockArgument (S (next_id h) + k) t k) types) [],
        MkHeap (S (next_id h) + length types) (stdout h)).
Proof.
  unfold Block_from_arg_types, bind, fresh. by rewrite make_block_arguments_ok.
Qed.

Lemma fold_Block_add_op (ops : list Operation) :
  forall i p a ops0,
    fold_left Block_add_op ops (MkBlock i p a ops0) = MkBlock i p a (ops0 ++ ops).
Proof.
  induction ops as [|o ops IH]; intros i p a ops0; simpl.
  - by rewrite app_nil_r.
  - by rewrite IH, <- app_assoc.
Qed.

Lemma record_args_copied (nb : nat) (self_args : list IBlockArg) :
  forall (F : nat -> Attribute -> BlockArgument) base j vmap pi pm,
    (forall k t, barg_id (F k t) = base + k) ->
    copied (fun i => i < base) vmap pi pm ->
    copied (fun i => i < base + length self_args)
      (fold_left (fun vm '(arg, new_arg) => <[KArg (arg_id arg) := BlockArg new_arg]> vm)
                 (zip self_args (imap F (map arg_typ self_args))) vmap)
      (register (PArg nb) j (map (fun a => KArg (arg_id a)) self_args) pi)
      (register (PArg nb) j (map barg_id (imap F (map arg_typ self_args))) pm).
Proof.
  induction self_args as [|a self_args IH]; intros F base j vmap pi pm HF Hc.
  - simpl. eapply copied_weaken; [done|]. simpl. intros; lia.
  - simpl. replace (base + S (length self_args)) with (S base + length self_args) by lia.
    apply (IH (F ∘ S) (S base) (S j)).
    + intros k t. simpl. rewrite HF. lia.
    + pose proof (HF 0 (arg_typ a)) as H0. rewrite Nat.add_0_r in H0.
      eapply copied_weaken.
      * apply (copied_insert _ vmap pi pm (KArg (arg_id a)) (BlockArg (F 0 (arg_typ a)))
                             (PArg nb j) Hc).
        -- simpl. lia.
        -- simpl. by rewrite lookup_insert_eq.
      * simpl. rewrite H0. intros i [Hi| ->]; lia.
Qed.

Lemma record_results_copied (n : nat) (types : list Attribute) :
  forall (FI : nat -> Attribute -> ISSAValue) (FC : nat -> Attribute -> OpResultCell)
         (G : nat -> OpResultCell -> SSAValue) base j vmap pi pm,
    (forall k c, exists t o, G k c = OpResult (res_id c) t o (j + k)) ->
    (forall k t, res_id (FC k t) = base + k) ->
    copied (fun i => i < base) vmap pi pm ->
    copied (fun i => i < base + length types)
      (fold_left (fun vm '(result, m_result) => <[ikey result := m_result]> vm)
                 (zip (imap FI types) (imap G (imap FC types))) vmap)
      (register (PResult n) j (map ikey (imap FI types)) pi)
      (register (PResult n) j (map res_id (imap FC types)) pm).
Proof.
  induction types as [|t types IH]; intros FI FC G base j vmap pi pm HG HF Hc.
  - simpl. eapply copied_weaken; [done|]. simpl. intros; lia.
  - simpl. replace (base + S (length types)) with (S base + length types) by lia.
    apply (IH (FI ∘ S) (FC ∘ S) (G ∘ S) (S base) (S j)).
    + intros k c. simpl. destruct (HG (S k) c) as (t' & o & ->).
      exists t', o. f_equal. lia.
    + intros k t'. simpl. rewrite HF. lia.
    + pose proof (HF 0 t) as H0. rewrite Nat.add_0_r in H0.
      destruct (HG 0 (FC 0 t)) as (t' & o & EG). rewrite Nat.add_0_r, H0 in EG.
      rewrite EG, H0.
      eapply copied_weaken.
      * apply (copied_insert _ vmap pi pm (ikey (FI 0 t)) (OpResult base t' o j)
                             (PResult n j) Hc).
        -- simpl. lia.
        -- simpl. rewrite lookup_insert_eq. by rewrite Nat.eqb_refl.
      * simpl. intros i [Hi| ->]; lia.
Qed.

Lemma mutable_operands_copied U (vmap : ValueMapping) pi pm (name : string)
    (operands : list ISSAValue) (h : Heap) :
  copied U vmap pi pm -> All resolved (map (ioperand_pos pi) operands) ->
  exists vs,
    mapS (mutable_operand name vmap) operands tt h = Ok ((vs, tt), h) /\
    map (operand_pos pm) vs = map (ioperand_pos pi) operands.
Proof.
  intros [H1 _]. induction operands as [|x operands IH]; intros HA.
  - by exists [].
  - cbn [map All] in HA. destruct HA as [Hx HA].
    destruct (IH HA) as (vs & E & Hvs).
    unfold ioperand_pos in Hx.
    destruct (pi !! ikey x) as [pos|] eqn:El; [|by destruct x].
    destruct (H1 _ _ El) as (v & Hl & Hp).
    exists (v :: vs). cbn [mapS]. rewrite bind_eq.
    unfold mutable_operand at 1. rewrite Hl. unfold ret at 1. rewrite bind_eq, E.
    split; [done|]. simpl. unfold ioperand_pos at 1. by rewrite El, Hp, Hvs.
Qed.

Lemma imap_id_ext {A} (f : nat -> A -> A) (l : list A) :
  (forall k x, f k x = x) -> imap f l = l.
Proof.
  revert f. induction l as [|x l IH]; intros f Hf; [done|].
  simpl. rewrite Hf. f_equal. apply IH. intros. apply Hf.
Qed.

(** What [get_mutable_copy] needs of a skeleton: closed, and every op named
    as its kind is, for the copy is made by [op_type.create] and bears the
    name of its class. *)
Fixpoint copyable (s : Skel) : Prop :=
  match s with
  | SkOp name kind _ operands _ successors regions =>
      name = OpType_name kind /\ All resolved operands /\ successors = [] /\
      All (fun blks =>
        All (fun b => match b with SkBlk _ ops => All copyable ops end) blks)
        regions
  end.

Definition block_copyable (b : SkBlock) : Prop :=
  match b with SkBlk _ ops => All copyable ops end.

Definition region_copyable (blks : list SkBlock) : Prop := All block_copyable blks.

Lemma mapfold_All_impl {A B S} (g : A -> S -> B * S) (P Q : B -> Prop) (l : list A) :
  (forall x, x ∈ l -> forall s, P (g x s).1 -> Q (g x s).1) ->
  forall s, All P (mapfold g l s).1 -> All Q (mapfold g l s).1.
Proof.
  induction l as [|x l IH]; intros Hx s; simpl; [done|].
  pose proof (Hx x ltac:(left) s) as H0.
  destruct (g x s) as [y s1]. specialize (IH ltac:(intros x' Hin; apply Hx; by right) s1).
  destruct (mapfold g l s1) as [ys s2]. cbn [fst snd All] in *.
  intros [? ?]. split; auto.
Qed.

(** The skeleton of a mutable op names every op as its kind is. *)
Lemma closed_copyable (o : Operation) :
  forall st, closed (skeleton o st).1 -> copyable (skeleton o st).1.
Proof.
  induction o as [i t operands results successors attributes regions IH]
    using Operation_nested_ind.
  intros st. rewrite skeleton_eq. cbn [fst closed copyable].
  intros (Hops & Hsucc & Hreg). do 3 (split; [done|]).
  revert Hreg. apply (mapfold_All_impl skeleton_region region_closed region_copyable).
  intros r Hr st1. unfold skeleton_region.
  apply (mapfold_All_impl skeleton_block block_closed block_copyable).
  intros [bid p bargs bops] Hb st2. rewrite skeleton_block_eq. cbn [fst].
  apply (mapfold_All_impl skeleton closed copyable).
  intros o Ho. rewrite Forall_forall in IH. specialize (IH r Hr).
  rewrite Forall_forall in IH. specialize (IH _ Hb). simpl in IH.
  rewrite Forall_forall in IH. by apply IH.
Qed.

(** The invariant of [get_mutable_copy]. *)
Definition InvB (out : list string) (s : ValueMapping * BlockMapping)
    (t1 : Numbering IKey) (t2 : Numbering ident) (h : Heap) : Prop :=
  n_ops t1 = n_ops t2 /\ n_blocks t1 = n_blocks t2 /\ stdout h = out /\
  copied (fun i => i < next_id h) s.1 (values t1) (values t2).

Definition get_mutable_copy_ok (o : IOp) : Prop :=
  forall out s t1 t2 h,
    InvB out s t1 t2 h -> copyable (iskeleton o t1).1 ->
    match IOp_get_mutable_copy_maps o s h with
    | Ok ((y, s'), h') =>
        (skeleton y t2).1 = (iskeleton o t1).1 /\
        InvB out s' (iskeleton o t1).2 (skeleton y t2).2 h'
    | Raise _ => False
    end.

Lemma block_get_mutable_copy_ok (b : IBlock) :
  Forall get_mutable_copy_ok (IBlock_ops b) ->
  forall out s t1 t2 h,
    InvB out s t1 t2 h -> block_copyable (iskeleton_block b t1).1 ->
    match IBlock_get_mutable_copy_maps b s h with
    | Ok ((y, s'), h') =>
        (skeleton_block y t2).1 = (iskeleton_block b t1).1 /\
        InvB out s' (iskeleton_block b t1).2 (skeleton_block y t2).2 h'
    | Raise _ => False
    end.
Proof.
  destruct b as [bid bargs bops]. simpl. intros Hops out [vm bm] t1 t2 h.
  intros (Hno & Hnb & Hout & Hm) Hc.
  rewrite iskeleton_block_eq in *. cbn [fst snd block_copyable] in *.
  unfold IBlock_get_mutable_copy_maps, IBlock_get_mutable_copy_with. simpl.
  rewrite bind_eq, Block_from_arg_types_ok. cbn [Block_args]. rewrite bind_eq.
  set (args' := imap (fun k t => MkBlockArgument (S (next_id h) + k) t k)
                     (map arg_typ bargs)).
  set (h1 := MkHeap (S (next_id h) + length (map arg_typ bargs)) (stdout h)).
  set (vm' := fold_left _ (zip bargs args') vm).
  pose proof (mapS_mapfold IOp_get_mutable_copy_maps iskeleton skeleton (InvB out)
                copyable bops) as Hsim.
  specialize (Hsim ltac:(
    intros o Hin s t1' t2' h' HI HG; rewrite Forall_forall in Hops;
    by apply (Hops o Hin))).
  specialize (Hsim (vm', <[bid := MkBlock (next_id h) None args' []]> bm)
                   (enter_block bid (map (fun a => KArg (arg_id a)) bargs) t1)
                   (enter_block (next_id h) (map barg_id args') t2) h1).
  assert (InvB out (vm', <[bid := MkBlock (next_id h) None args' []]> bm)
            (enter_block bid (map (fun a => KArg (arg_id a)) bargs) t1)
            (enter_block (next_id h) (map barg_id args') t2) h1) as HI1.
  { unfold InvB, enter_block. cbn [n_ops n_blocks values fst stdout next_id].
    rewrite <- Hnb. subst vm' args' h1. cbn [next_id stdout].
    do 3 (split; [congruence|]). rewrite length_map.
    apply record_args_copied; [done|].
    eapply copied_weaken; [done|]. simpl. intros; lia. }
  specialize (Hsim HI1 Hc).
  destruct (mapS _ bops _ h1) as [[[ops' maps'] h2]|e]; [|done].
  unfold ret. rewrite fold_Block_add_op. rewrite skeleton_block_eq. cbn [fst snd app].
  destruct Hsim as [Hs HI]. split; [|done].
  rewrite Hs. f_equal. subst args'. rewrite fmap_imap. by apply imap_id_ext.
Qed.

Lemma skeleton_block_parent i p p' a ops (st : Numbering ident) :
  skeleton_block (MkBlock i p a ops) st = skeleton_block (MkBlock i p' a ops) st.
Proof. done. Qed.

Lemma region_get_mutable_copy_ok (r : IRegion) :
  Forall (fun b => Forall get_mutable_copy_ok (IBlock_ops b)) (IRegion_blocks r) ->
  forall out s t1 t2 h,
    InvB out s t1 t2 h -> region_copyable (iskeleton_region r t1).1 ->
    match IRegion_get_mutable_copy_maps r s h with
    | Ok ((y, s'), h') =>
        (skeleton_region y t2).1 = (iskeleton_region r t1).1 /\
        InvB out s' (iskeleton_region r t1).2 (skeleton_region y t2).2 h'
    | Raise _ => False
    end.
Proof.
  intros Hb out s t1 t2 h HI Hc.
  unfold IRegion_get_mutable_copy_maps. rewrite bind_eq.
  pose proof (mapS_mapfold IBlock_get_mutable_copy_maps iskeleton_block skeleton_block
                (InvB out) block_copyable (IRegion_blocks r)) as Hsim.
  specialize (Hsim ltac:(
    intros b Hin s' t1' t2' h' HI' HG;
    rewrite Forall_forall in Hb;
    apply block_get_mutable_copy_ok; [by apply Hb | done | done])).
  specialize (Hsim s t1 t2 h HI Hc).
  destruct (mapS _ (IRegion_blocks r) s h) as [[[bs maps'] h1]|e]; [|done].
  unfold Region_from_block_list, bind, fresh, ret.
  unfold iskeleton_region, skeleton_region in *. cbn [Region_blocks fst snd].
  rewrite mapfold_map.
  rewrite (mapfold_ext _ skeleton_block); [|by intros [i p a ops] st _].
  destruct Hsim as [Hs (? & ? & ? & HmF)]. split; [done|].
  do 3 (split; [done|]). eapply copied_weaken; [done|]. simpl. intros; lia.
Qed.

(** [get_mutable_copy] gives the copy the skeleton of the mirror. *)
Lemma IOp_get_mutable_copy_ok (o : IOp) : get_mutable_copy_ok o.
Proof.
  induction o as [i d operands result_types successors regions IH]
    using IOp_nested_ind.
  intros out [vm bm] t1 t2 h (Hno & Hnb & Hout & Hm) Hc.
  rewrite iskeleton_eq in *. cbn [fst snd copyable] in Hc.
  destruct Hc as (Hname & Hops & Hsucc & Hreg).
  apply map_eq_nil in Hsucc. subst successors.
  rewrite IOp_get_mutable_copy_maps_eq. cbv zeta. rewrite bind_eq.
  destruct (mutable_operands_copied _ vm _ _ (od_name d) operands h Hm Hops)
    as (vs & E & Hvs).
  rewrite E. cbn [mapS]. rewrite bind_eq. unfold ret at 1. rewrite bind_eq.
  pose proof (mapS_mapfold IRegion_get_mutable_copy_maps iskeleton_region
                skeleton_region (InvB out) region_copyable regions) as Hsim.
  specialize (Hsim ltac:(
    intros r Hin s' t1' t2' h' HI' HG;
    rewrite Forall_forall in IH;
    apply region_get_mutable_copy_ok; [by apply IH | done | done])).
  specialize (Hsim (vm, bm) (enter_op t1) (enter_op t2) h).
  specialize (Hsim ltac:(unfold InvB, enter_op; cbn [n_ops n_blocks values fst];
                         by rewrite Hno) Hreg).
  destruct (mapS _ regions (vm, bm) h) as [[[regions' maps'] h1]|e]; [|done].
  destruct Hsim as [Hs (Hno' & Hnb' & Hout' & Hm')].
  rewrite bind_eq, Operation_create_ok. unfold ret.
  rewrite skeleton_eq. cbn [fst snd].
  split.
  - rewrite Hvs, Hs, Hname. f_equal. rewrite fmap_imap. by apply imap_id_ext.
  - unfold InvB, leave_op. cbn [n_ops n_blocks values fst stdout next_id].
    do 3 (split; [done|]). rewrite <- Hno.
    unfold record_mutable_results, IOp_results.
    cbn [IOp_result_types Operation_results].
    apply record_results_copied; [| |].
    + intros k c. by exists (res_typ c), (Some
        (MkOperation (next_id h1) (od_op_type d) vs
           (imap (fun k t => MkOpResultCell (S (next_id h1) + k) t) result_types)
           [] (od_attributes d) regions')).
    + done.
    + eapply copied_weaken; [done|]. simpl. intros; lia.
Qed.

(** *** The round trip *)




(** A module whose block uses a result before the op that defines it. *)
Definition X_op : Operation :=
  MkOperation 2 (OpClass "arith.constant") [] [MkOpResultCell 3 i32] [] ∅ [].

Definition Y_op : Operation :=
  MkOperation 4 (OpClass "arith.neg") [OpResult 3 i32 (Some X_op) 0]
              [MkOpResultCell 5 i32] [] ∅ [].


(** The same ops, the definition first. *)
Definition def_first : Operation :=
  MkOperation 1 (OpClass "builtin.module") [] [] [] ∅
    [MkRegion 6 [MkBlock 7 (Some 6) [] [X_op; Y_op]]].

(** A module whose region has two blocks: the first is empty, and the op of
    the second branches to the first. *)
Definition entry_block : Block := MkBlock 7 (Some 6) [] [].

Definition branch_block : Block :=
  MkBlock 8 (Some 6) [] [MkOperation 2 (OpClass "cf.br") [] [] [entry_block] ∅ []].

Definition branching : Operation :=
  MkOperation 1 (OpClass "builtin.module") [] [] [] ∅
    [MkRegion 6 [entry_block; branch_block]].


(** A module with a branch between two blocks of its region does not
    survive the round trip at all. *)
Lemma successor_round_trip_raises :
  round_trip branching heap0 = Raise (Exception "Block used before definition").
Proof. by vm_compute. Qed.


(** * Further properties of the code *)

(** ** Traversal (immutable_ir.py, lines 151-175, 372-380, 593-604) *)

(** A loop that stops at the first round whose body answers [False]. *)
Section LoopAbortable.
Context {A S : Type}.
Variable body : A -> S -> bool * S.

Fixpoint loop_abortable (l : list A) (s : S) : bool * S :=
  match l with
  | [] => (true, s)
  | x :: l' =>
      let '(go, s') := body x s in
      if go then loop_abortable l' s' else (false, s')
  end.
End LoopAbortable.

(** [walk_abortable]: the callback answers whether to go on; its effect is
    its update of [S]. *)
Section WalkAbortable.
Context {S : Type}.
Variable fn : IOp -> S -> bool * S.

Fixpoint IOp_walk_abortable (o : IOp) (s : S) : bool * S :=
  match o with
  | MkIOp _ _ _ _ _ regions =>
      let '(go, s1) := fn o s in
      if go then
        loop_abortable (fun r s =>
          match r with
          | MkIRegion _ blocks =>
              loop_abortable (fun b s =>
                match b with
                | MkIBlock _ _ ops => loop_abortable IOp_walk_abortable ops s
                end) blocks s
          end) regions s1
      else (false, s1)
  end.

Definition IBlock_walk_abortable (b : IBlock) (s : S) : bool * S :=
  loop_abortable IOp_walk_abortable (IBlock_ops b) s.

Definition IRegion_walk_abortable (r : IRegion) (s : S) : bool * S :=
  loop_abortable IBlock_walk_abortable (IRegion_blocks r) s.
End WalkAbortable.

(** [value in op.operands]: an element that is the value or equals it. *)
Definition value_in (value : ISSAValue) (l : list ISSAValue) : bool :=
  existsb (fun x => ISSAValue_eq x value) l.

(** [check_used], the callback of [value_used_inside]; the state is
    [use_found]. *)
Definition check_used (value : ISSAValue) (o : IOp) (use_found : bool) : bool * bool :=
  if value_in value (IOp_operands o) then (false, true) else (true, use_found).

(** [IRegion.value_used_inside]. *)
Definition IRegion_value_used_inside (r : IRegion) (value : ISSAValue) : bool :=
  (IRegion_walk_abortable (check_used value) r false).2.

Lemma loop_abortable_ext {A S} (f g : A -> S -> bool * S) (l : list A) (s : S) :
  (forall x s, x ∈ l -> f x s = g x s) -> loop_abortable f l s = loop_abortable g l s.
Proof.
  revert s. induction l as [|x l IH]; intros s E; simpl; [done|].
  rewrite E by left. destruct (g x s) as [[] s1]; [|done].
  apply IH. intros. apply E. by right.
Qed.

Lemma loop_abortable_app {A S} (f : A -> S -> bool * S) (l1 l2 : list A) (s : S) :
  loop_abortable f (l1 ++ l2) s =
  (let '(go, s1) := loop_abortable f l1 s in
   if go then loop_abortable f l2 s1 else (false, s1)).
Proof.
  revert s. induction l1 as [|x l1 IH]; intros s; simpl.
  - by destruct (loop_abortable f l2 s).
  - destruct (f x s) as [[] s1]; [apply IH | done].
Qed.

Lemma loop_abortable_concat_map {A B S} (g : B -> list A) (f : A -> S -> bool * S)
    (F : B -> S -> bool * S) (l : list B) (s : S) :
  (forall x s, x ∈ l -> F x s = loop_abortable f (g x) s) ->
  loop_abortable F l s = loop_abortable f (concat (map g l)) s.
Proof.
  revert s. induction l as [|x l IH]; intros s E; simpl; [done|].
  rewrite loop_abortable_app, E by left.
  destruct (loop_abortable f (g x) s) as [[] s1]; [|done].
  apply IH. intros. apply E. by right.
Qed.

Lemma IOp_walk_abortable_eq {S} (fn : IOp -> S -> bool * S) (o : IOp) (s : S) :
  IOp_walk_abortable fn o s =
  (let '(go, s1) := fn o s in
   if go then loop_abortable (IRegion_walk_abortable fn) (IOp_regions o) s1
   else (false, s1)).
Proof.
  destruct o as [i d operands result_types successors regions]. simpl.
  destruct (fn _ s) as [[] s1]; [|done].
  apply loop_abortable_ext. intros [rid blocks] s2 _.
  unfold IRegion_walk_abortable. simpl.
  apply loop_abortable_ext. by intros [bid bargs bops] s3 _.
Qed.

Lemma IOp_walk_abortable_flat {S} (fn : IOp -> S -> bool * S) (o : IOp) :
  forall s, IOp_walk_abortable fn o s = loop_abortable fn (walk_list o) s.
Proof.
  induction o as [i d operands result_types successors regions IH]
    using IOp_nested_ind.
  intros s. rewrite IOp_walk_abortable_eq, walk_list_eq.
  cbn [loop_abortable IOp_regions].
  destruct (fn _ s) as [[] s1]; [|done].
  apply loop_abortable_concat_map. intros r s2 Hr.
  unfold IRegion_walk_abortable, region_walk_list.
  apply loop_abortable_concat_map. intros b s3 Hb.
  unfold IBlock_walk_abortable, block_walk_list.
  apply loop_abortable_concat_map. intros o s4 Ho.
  rewrite Forall_forall in IH. specialize (IH r Hr).
  rewrite Forall_forall in IH. specialize (IH b Hb).
  rewrite Forall_forall in IH. rewrite (IH o Ho). simpl.
  by destruct (fn o s4) as [[] ?].
Qed.

Lemma IBlock_walk_abortable_flat {S} (fn : IOp -> S -> bool * S) (b : IBlock) (s : S) :
  IBlock_walk_abortable fn b s = loop_abortable fn (block_walk_list b) s.
Proof.
  unfold IBlock_walk_abortable, block_walk_list.
  apply loop_abortable_concat_map. intros o s' _. apply IOp_walk_abortable_flat.
Qed.

Lemma IRegion_walk_abortable_flat {S} (fn : IOp -> S -> bool * S) (r : IRegion) (s : S) :
  IRegion_walk_abortable fn r s = loop_abortable fn (region_walk_list r) s.
Proof.
  unfold IRegion_walk_abortable, region_walk_list.
  apply loop_abortable_concat_map. intros b s' _. apply IBlock_walk_abortable_flat.
Qed.

Lemma IRegion_walk_fold {S} (fn : IOp -> S -> S) (r : IRegion) (s : S) :
  IRegion_walk fn r s = fold_left (fun s o => fn o s) (region_walk_list r) s.
Proof.
  unfold IRegion_walk, region_walk_list.
  apply fold_left_concat_map. intros b s' _. apply IBlock_walk_fold.
Qed.

(** X1: [walk] calls [fun] once on every op, in pre-order: on the op itself
    first, then, region by region and block by block, on the ops of each
    block with everything nested in them.  [IBlock.walk] and [IRegion.walk]
    do the same from a block and from a region. *)
Theorem walk_calls_in_preorder {S} (fn : IOp -> S -> S) :
  (forall o s,
      IOp_walk fn o s =
      fold_left (fun s o => fn o s)
                (o :: concat (map region_walk_list (IOp_regions o))) s) /\
  (forall b s,
      IBlock_walk fn b s =
      fold_left (fun s o => fn o s) (concat (map walk_list (IBlock_ops b))) s) /\
  (forall r s,
      IRegion_walk fn r s =
      fold_left (fun s o => fn o s)
                (concat (map block_walk_list (IRegion_blocks r))) s).
Proof.
  split; [|split].
  - intros o s. rewrite IOp_walk_fold. by rewrite walk_list_eq.
  - intros b s. apply IBlock_walk_fold.
  - intros r s. apply IRegion_walk_fold.
Qed.

Lemma loop_abortable_all_true {A S} (f : A -> S -> bool * S) (l : list A) (s : S) :
  (forall x s, x ∈ l -> (f x s).1 = true) ->
  loop_abortable f l s = (true, fold_left (fun s x => (f x s).2) l s).
Proof.
  revert s. induction l as [|x l IH]; intros s E; simpl; [done|].
  pose proof (E x s ltac:(left)) as Hx.
  destruct (f x s) as [go s1]. simpl in *. subst go.
  apply IH. intros. apply E. by right.
Qed.

(** X2: [walk_abortable] calls [fun] on the ops in the order of [walk] and
    stops at the first op for which it answers [False]: the ops after that
    one are not visited and the walk answers [False].  When [fun] answers
    [True] everywhere, the walk visits what [walk] visits and answers
    [True]. *)
Theorem walk_abortable_stops_at_first_refusal {S} (fn : IOp -> S -> bool * S) :
  (forall r s pre x post s1,
      region_walk_list r = pre ++ x :: post ->
      loop_abortable fn pre s = (true, s1) ->
      (fn x s1).1 = false ->
      IRegion_walk_abortable fn r s = (false, (fn x s1).2)) /\
  (forall o s pre x post s1,
      walk_list o = pre ++ x :: post ->
      loop_abortable fn pre s = (true, s1) ->
      (fn x s1).1 = false ->
      IOp_walk_abortable fn o s = (false, (fn x s1).2)) /\
  (forall r s,
      (forall o s, o ∈ region_walk_list r -> (fn o s).1 = true) ->
      IRegion_walk_abortable fn r s = (true, IRegion_walk (fun o s => (fn o s).2) r s)) /\
  (forall o s,
      (forall o' s, o' ∈ walk_list o -> (fn o' s).1 = true) ->
      IOp_walk_abortable fn o s = (true, IOp_walk (fun o s => (fn o s).2) o s)).
Proof.
  assert (forall l s pre x post s1,
            l = pre ++ x :: post -> loop_abortable fn pre s = (true, s1) ->
            (fn x s1).1 = false ->
            loop_abortable fn l s = (false, (fn x s1).2)) as Hstop.
  { intros l s pre x post s1 -> Hpre Hx.
    rewrite loop_abortable_app, Hpre. simpl.
    destruct (fn x s1) as [go s2]. simpl in *. by subst go. }
  split; [|split; [|split]].
  - intros r s pre x post s1 Hl Hpre Hx.
    rewrite IRegion_walk_abortable_flat. by eapply Hstop.
  - intros o s pre x post s1 Hl Hpre Hx.
    rewrite IOp_walk_abortable_flat. by eapply Hstop.
  - intros r s Hall. rewrite IRegion_walk_abortable_flat, IRegion_walk_fold.
    by apply loop_abortable_all_true.
  - intros o s Hall. rewrite IOp_walk_abortable_flat, IOp_walk_fold.
    by apply loop_abortable_all_true.
Qed.

Lemma check_used_loop (value : ISSAValue) (l : list IOp) (found : bool) :
  (loop_abortable (check_used value) l found).2 =
  found || existsb (fun o => value_in value (IOp_operands o)) l.
Proof.
  revert found. induction l as [|o l IH]; intros found; simpl.
  - by rewrite orb_false_r.
  - unfold check_used at 1.
    destruct (value_in value (IOp_operands o)); simpl.
    + by rewrite orb_true_r.
    + apply IH.
Qed.

(** X3: [value_used_inside] answers whether some op of the region, at any
    depth, has the value among its operands, where an operand counts when it
    equals the value: the same op and index for a result, the same object
    for a block argument. *)
Theorem value_used_inside_spec (r : IRegion) (value : ISSAValue) :
  IRegion_value_used_inside r value = true <->
  exists o x, o ∈ region_walk_list r /\ x ∈ IOp_operands o /\ ikey x = ikey value.
Proof.
  unfold IRegion_value_used_inside.
  rewrite IRegion_walk_abortable_flat, check_used_loop. simpl.
  rewrite existsb_exists. split.
  - intros (o & Ho & Hv). unfold value_in in Hv.
    apply existsb_exists in Hv as (x & Hx & Heq).
    exists o, x. rewrite <- !list_elem_of_In in *.
    split; [done|]. split; [done|]. by apply ISSAValue_eq_ikey.
  - intros (o & x & Ho & Hx & Hk). exists o. rewrite <- list_elem_of_In.
    split; [done|]. unfold value_in. apply existsb_exists. exists x.
    rewrite <- list_elem_of_In. split; [done|]. by apply ISSAValue_eq_ikey.
Qed.

(** A region whose inner op uses the argument of the enclosing block. *)
Definition outer_arg : IBlockArg := MkIBlockArg 30 i32 0.

Definition inner_use : IOp :=
  MkIOp 32 (MkOpData 31 "arith.neg" (OpClass "arith.neg") ∅) [IArg outer_arg] [i32] [] [].

Definition holder : IOp :=
  MkIOp 36 (MkOpData 35 "scf.execute" (OpClass "scf.execute") ∅) [] []
        [] [MkIRegion 34 [MkIBlock 33 [] [inner_use]]].

Definition outer_region : IRegion := MkIRegion 38 [MkIBlock 37 [outer_arg] [holder; const_op]].

(** X2 (witness): a callback that refuses ops with operands stops the walk of
    [outer_region] at [inner_use], before [const_op]; one that counts the ops
    visits all three. *)
Lemma walk_abortable_stops_at_first_refusal_witness :
  IRegion_walk_abortable
    (fun o (n : nat) => (bool_decide (IOp_operands o = []), S n)) outer_region 0
    = (false, 2) /\
  IRegion_walk_abortable (fun o (n : nat) => (true, S n)) outer_region 0
    = (true, IRegion_walk (fun o n => S n) outer_region 0).
Proof.
  split.
  - apply (proj1 (walk_abortable_stops_at_first_refusal
                    (fun o (n : nat) => (bool_decide (IOp_operands o = []), S n)))
                 outer_region 0 [holder] inner_use [const_op] 1); reflexivity.
  - apply (proj1 (proj2 (proj2 (walk_abortable_stops_at_first_refusal
                    (fun o (n : nat) => (true, S n))))) outer_region 0).
    reflexivity.
Defined.

(** ** Building blocks (lines 205-234) *)

(** X4: a block built from argument types has one new argument per type,
    numbered from zero in the order of the types, so [arg_types] gives the
    types back; the arguments are pairwise distinct objects that did not
    exist before.  A block built from existing arguments holds those very
    arguments.  In both cases the block is new and holds the given ops. *)
Theorem IBlock_init_arguments (ops : list IOp) (h : Heap) :
  (forall types,
      exists b,
        IBlock_init (inl types) ops h
          = Ok (b, MkHeap (S (next_id h) + length types) (stdout h)) /\
        IBlock_id b = next_id h /\ IBlock_ops b = ops /\
        IBlock_arg_types b = types /\
        map arg_index (IBlock_args b) = seq 0 (length types) /\
        NoDup (map arg_id (IBlock_args b)) /\
        Forall (fun a => next_id h < arg_id a) (IBlock_args b)) /\
  (forall args,
      IBlock_init (inr args) ops h
        = Ok (MkIBlock (next_id h) args ops, MkHeap (S (next_id h)) (stdout h))).
Proof.
  split.
  - intros types. unfold IBlock_init, bind, fresh. simpl.
    destruct (make_args_spec types 0 (MkHeap (S (next_id h)) (stdout h)))
      as (l & -> & Ht & Hi & Hd). simpl in *.
    eexists. unfold ret. split; [reflexivity|]. simpl.
    unfold IBlock_arg_types. simpl. do 4 (split; [done|]). split.
    + rewrite Hd. apply NoDup_seq.
    + apply Forall_forall. intros a Ha.
      assert (arg_id a ∈ map arg_id l) as Hin by (by apply list_elem_of_fmap_2).
      rewrite Hd in Hin. apply elem_of_seq in Hin. lia.
  - intros args. by unfold IBlock_init, bind, fresh, ret.
Qed.

(** ** [from_mutable] in general (lines 119-134, 326-350, 520-585) *)

Lemma mapS_length {A B S} (f : A -> S -> M (B * S)) (l : list A) (s : S) (h : Heap)
    ys s' h' :
  mapS f l s h = Ok ((ys, s'), h') -> length ys = length l.
Proof.
  intros E.
  destruct (mapS_inv f (fun _ _ => True) (fun _ _ => True) l
              ltac:(done) s h ys s' h' I E) as [_ HF].
  symmetry. by eapply Forall2_length.
Qed.

Lemma fold_zip_insert_other {K V A B} `{Countable K} (kf : A -> K) (vf : B -> V)
    (l1 : list A) (l2 : list B) (m : gmap K V) (k : K) :
  k ∉ map kf l1 ->
  fold_left (fun m '(x, y) => <[kf x := vf y]> m) (zip l1 l2) m !! k = m !! k.
Proof.
  revert l2 m. induction l1 as [|a l1 IH]; intros [|b l2] m Hk; simpl; try done.
  rewrite IH.
  - apply lookup_insert_ne. intros E. apply Hk. rewrite <- E. left.
  - intros Hin. apply Hk. by right.
Qed.

Lemma fold_zip_insert_lookup {K V A B} `{Countable K} (kf : A -> K) (vf : B -> V)
    (l1 : list A) (l2 : list B) (m : gmap K V) (i : nat) (a : A) (b : B) :
  NoDup (map kf l1) -> l1 !! i = Some a -> l2 !! i = Some b ->
  fold_left (fun m '(x, y) => <[kf x := vf y]> m) (zip l1 l2) m !! kf a = Some (vf b).
Proof.
  revert l2 m i. induction l1 as [|x l1 IH]; intros [|y l2] m i Hnd Ha Hb;
    try done.
  simpl in Hnd. apply NoDup_cons in Hnd as [Hx Hnd].
  destruct i as [|i]; simpl in *.
  - injection Ha as ->. injection Hb as ->.
    rewrite fold_zip_insert_other by done. apply lookup_insert_eq.
  - by eapply IH.
Qed.

(** Induction through every op that [from_mutable] can reach: the owners of
    the operands, the ops of the successors and the ops of the regions. *)
Lemma Operation_reach_ind (P : Operation -> Prop) :
  (forall i t operands results successors attributes regions,
      Forall (fun v => match v with
                       | OpResult _ _ (Some owner) _ => P owner
                       | _ => True
                       end) operands ->
      Forall (fun b => Forall P (Block_ops b)) successors ->
      Forall (fun r => Forall (fun b => Forall P (Block_ops b)) (Region_blocks r))
             regions ->
      P (MkOperation i t operands results successors attributes regions)) ->
  forall o, P o.
Proof.
  intros H. fix IH 1. intros [i t operands results successors attributes regions].
  apply H.
  - induction operands as [|[vid typ [owner|] idx|a] operands IHo]; constructor;
      [apply IH | done | exact I | done | exact I | done].
  - induction successors as [|[bid p bargs bops] successors IHs]; constructor; [|done].
    simpl. induction bops as [|o bops IHo]; constructor; [apply IH | done].
  - induction regions as [|[rid blocks] regions IHr]; constructor; [|done].
    simpl. induction blocks as [|[bid p bargs bops] blocks IHb]; constructor; [|done].
    simpl. induction bops as [|o bops IHo]; constructor; [apply IH | done].
Qed.

(** What every step of [from_mutable] keeps: objects are only added, and
    nothing is printed. *)
Definition grows (h h' : Heap) : Prop :=
  next_id h <= next_id h' /\ stdout h' = stdout h.

Lemma grows_refl (h : Heap) : grows h h.
Proof. by split. Qed.

Lemma grows_trans (h1 h2 h3 : Heap) : grows h1 h2 -> grows h2 h3 -> grows h1 h3.
Proof. intros [? ?] [? ?]. split; [lia | congruence]. Qed.

Lemma mapS_grows {A B S} (f : A -> S -> M (B * S)) (l : list A) :
  (forall x s h y s' h', x ∈ l -> f x s h = Ok ((y, s'), h') -> grows h h') ->
  forall s h ys s' h', mapS f l s h = Ok ((ys, s'), h') -> grows h h'.
Proof.
  intros Hf s h ys s' h' E.
  destruct (mapS_inv f (fun _ hh => grows h hh) (fun _ _ => True) l)
    with (s := s) (h := h) (ys := ys) (s' := s') (h' := h') as [Hm _];
    [|apply grows_refl|done|done].
  intros x s0 h0 y s1 h1 Hx Hg Ex. split; [|done].
  eapply grows_trans; [exact Hg|]. by eapply Hf.
Qed.

Lemma IBlock_from_mutable_with_grows (conv : Operation -> ValueMap * BlockMap ->
                                              M (IOp * (ValueMap * BlockMap)))
    (bargs : list BlockArgument) (bops : list Operation) :
  (forall o s h y s' h', o ∈ bops -> conv o s h = Ok ((y, s'), h') -> grows h h') ->
  forall maps h b maps' h',
    IBlock_from_mutable_with conv bargs bops maps h = Ok ((b, maps'), h') ->
    grows h h'.
Proof.
  intros Hc [vm bm] h b maps' h'. unfold IBlock_from_mutable_with.
  intros ([args vm1] & h1 & E1 & E)%bind_Ok.
  apply bind_Ok in E as ([ops maps1] & h2 & E2 & E).
  apply bind_Ok in E as (b0 & h3 & E3 & [= <- <- <-]).
  unfold IBlock_init, bind, fresh, ret in E3. injection E3 as <- <-.
  eapply grows_trans; [|eapply grows_trans].
  - eapply (mapS_grows convert_arg bargs); [|exact E1].
    intros x s h0 y s' h0' _ Ex.
    unfold convert_arg, IBlockArg_init, bind, fresh, ret in Ex.
    injection Ex as <- <- <-. split; simpl; [lia|done].
  - eapply (mapS_grows conv bops); [|exact E2]. intros; by eapply Hc.
  - split; simpl; [lia|done].
Qed.

(** The op and its [OpData] are the last two objects [from_mutable] makes. *)
Definition made_last (h : Heap) (I : IOp) (h' : Heap) : Prop :=
  exists h3, grows h h3 /\ od_id (IOp_op_data I) = next_id h3 /\
             IOp_id I = S (next_id h3) /\ next_id h' = S (S (next_id h3)) /\
             stdout h' = stdout h3.

Lemma made_last_grows (h : Heap) (I : IOp) (h' : Heap) : made_last h I h' -> grows h h'.
Proof.
  intros (h3 & [? ?] & _ & _ & ? & ?). split; [lia | congruence].
Qed.

Lemma IOp_from_mutable_made_last (o : Operation) :
  forall maps existing_operands h r h',
    IOp_from_mutable_maps o maps existing_operands h = Ok (r, h') ->
    made_last h r.1 h'.
Proof.
  induction o as [i t operands results successors attributes regions IHo IHs IHr]
    using Operation_reach_ind.
  intros [vm bm] existing_operands h r h'. cbn [IOp_from_mutable_maps].
  intros (ops & h1 & E1 & E)%bind_Ok.
  apply bind_Ok in E as ([succs bm1] & h2 & E2 & E).
  apply bind_Ok in E as ([regs maps1] & h3 & E3 & E).
  apply bind_Ok in E as (I0 & h4 & E4 & [= <- <-]).
  unfold IOp_get, IOp_init, bind, fresh, ret in E4. injection E4 as <- <-.
  assert (grows h h1) as G1.
  { destruct existing_operands as [given|].
    - unfold ret in E1. injection E1 as <- <-. apply grows_refl.
    - apply bind_Ok in E1 as ([vs u] & h0 & E0 & [= <- <-]).
      eapply mapS_grows; [|exact E0].
      intros x s hh y s' hh' Hx Ex.
      rewrite Forall_forall in IHo. specialize (IHo x Hx).
      destruct x as [vid typ owner idx|a].
      + apply bind_Ok in Ex as (p & h5 & Ep & [= <- <- <-]).
        destruct (vm !! vid) as [[? ? ?|?]|]; try done.
        * unfold ret in Ep. injection Ep as <- <-. apply grows_refl.
        * destruct owner as [owner|]; [|done].
          apply bind_Ok in Ep as ([I1 m1] & h6 & Ep & [= <- <-]).
          eapply made_last_grows. by eapply IHo.
      + destruct (vm !! barg_id a); [|done].
        unfold ret in Ex. injection Ex as <- <- <-. apply grows_refl. }
  assert (grows h1 h2) as G2.
  { eapply mapS_grows; [|exact E2].
    intros x s hh y s' hh' Hx Ex.
    rewrite Forall_forall in IHs. specialize (IHs x Hx).
    cbv beta in Ex. destruct (s !! Block_id x).
    - unfold ret in Ex. injection Ex as <- <- <-. apply grows_refl.
    - destruct x as [sid p sargs sops].
      apply bind_Ok in Ex as ([nb m1] & h5 & Eb & [= <- <- <-]).
      eapply IBlock_from_mutable_with_grows; [|exact Eb].
      intros o' s0 h0 y0 s0' h0' Ho' Eo. rewrite Forall_forall in IHs.
      simpl in IHs. eapply made_last_grows. exact (IHs o' Ho' _ _ _ _ _ Eo). }
  assert (grows h2 h3) as G3.
  { eapply mapS_grows; [|exact E3].
    intros [rid blocks] s hh y s' hh' Hx Ex.
    rewrite Forall_forall in IHr. specialize (IHr _ Hx). simpl in IHr.
    apply bind_Ok in Ex as ([ibs m1] & h5 & Eb & Ex).
    assert (grows hh h5) as G5.
    { eapply mapS_grows; [|exact Eb].
      intros [bid p bargs bops] s0 h0 y0 s0' h0' Hb Eblk.
      rewrite Forall_forall in IHr. specialize (IHr _ Hb). simpl in IHr.
      eapply IBlock_from_mutable_with_grows; [|exact Eblk].
      intros o' s1 h6 y1 s1' h6' Ho' Eo. rewrite Forall_forall in IHr.
      eapply made_last_grows. exact (IHr o' Ho' _ _ _ _ _ Eo). }
    destruct blocks as [|first rest]; [done|].
    destruct (Block_parent first); [|done].
    unfold IRegion_init, bind, fresh, ret in Ex. injection Ex as <- <- <-.
    eapply grows_trans; [exact G5|]. split; simpl; [lia|done]. }
  exists h3. split; [|done].
  eapply grows_trans; [exact G1|]. eapply grows_trans; [exact G2|]. exact G3.
Qed.

(** X5: whenever [IOp.from_mutable] returns, the new op has the name, the
    kind and the attributes of the mutable op, one result type per result of
    the mutable op (the same types in order), as many successors and regions,
    and as operands either the given [existing_operands], untouched, or one
    operand per operand of the mutable op.  The op and its [OpData] are new
    objects, the last two that were made, and nothing was printed.  When the
    results of the mutable op are distinct objects, each is recorded in
    [value_map] as the result of the new op with the same index. *)
Theorem from_mutable_keeps_fields (o : Operation) (maps : ValueMap * BlockMap)
    (existing_operands : option (list ISSAValue)) (h : Heap)
    (I : IOp) (maps' : ValueMap * BlockMap) (h' : Heap) :
  IOp_from_mutable_maps o maps existing_operands h = Ok ((I, maps'), h') ->
  IOp_name I = Operation_name o /\
  IOp_op_type I = Operation_op_type o /\
  IOp_attributes I = Operation_attributes o /\
  IOp_result_types I = map res_typ (Operation_results o) /\
  length (IOp_successors I) = length (Operation_successors o) /\
  length (IOp_regions I) = length (Operation_regions o) /\
  match existing_operands with
  | Some given => IOp_operands I = given
  | None => length (IOp_operands I) = length (Operation_operands o)
  end /\
  next_id h <= od_id (IOp_op_data I) /\
  IOp_id I = S (od_id (IOp_op_data I)) /\
  next_id h' = S (IOp_id I) /\
  stdout h' = stdout h /\
  (NoDup (map res_id (Operation_results o)) ->
   forall i c, Operation_results o !! i = Some c ->
               maps'.1 !! res_id c = Some (IResult (res_typ c) I i)).
Proof.
  intros E.
  pose proof (IOp_from_mutable_made_last _ _ _ _ _ _ E)
    as (h3' & [Hle Hout] & Hd & Hi & Hn & Hs). cbn [fst] in *.
  destruct o as [i t operands results successors attributes regions].
  destruct maps as [vm bm]. cbn [IOp_from_mutable_maps] in E.
  apply bind_Ok in E as (ops & h1 & E1 & E).
  apply bind_Ok in E as ([succs bm1] & h2 & E2 & E).
  apply bind_Ok in E as ([regs maps1] & h3 & E3 & E).
  apply bind_Ok in E as (I0 & h4 & E4 & [= <- <- <-]).
  unfold IOp_get, IOp_init, bind, fresh, ret in E4. injection E4 as <- <-.
  cbn [IOp_name IOp_op_type IOp_attributes IOp_result_types IOp_successors
       IOp_regions IOp_operands IOp_op_data IOp_id od_name od_op_type
       od_attributes od_id Operation_name Operation_op_type Operation_attributes
       Operation_results Operation_successors Operation_regions
       Operation_operands next_id stdout fst] in *.
  do 4 (split; [done|]).
  split; [by apply mapS_length in E2|].
  split; [by apply mapS_length in E3|].
  split.
  { destruct existing_operands as [given|].
    - unfold ret in E1. by injection E1 as <- <-.
    - apply bind_Ok in E1 as ([vs u] & h0 & E0 & [= <- <-]).
      by apply mapS_length in E0. }
  split; [lia|]. split; [done|]. split; [done|]. split; [congruence|].
  intros Hnd k c Hc.
  apply (fold_zip_insert_lookup res_id id results _ maps1.1 k c
           (IResult (res_typ c) _ k) Hnd Hc).
  unfold IOp_results. cbn [IOp_result_types].
  rewrite list_lookup_imap, list_lookup_fmap, Hc. done.
Qed.

(** X5 (witness): the conversion of [X_op] with no maps. *)
Lemma from_mutable_keeps_fields_witness :
  exists I maps' h',
    IOp_from_mutable_maps X_op (∅, ∅) None heap0 = Ok ((I, maps'), h') /\
    IOp_name I = "arith.constant" /\
    maps'.1 !! 3 = Some (IResult i32 I 0).
Proof.
  destruct (IOp_from_mutable_maps X_op (∅, ∅) None heap0) as [[[I maps'] h']|e] eqn:E;
    [|by vm_compute in E].
  exists I, maps', h'. split; [done|].
  pose proof (from_mutable_keeps_fields X_op (∅, ∅) None heap0 I maps' h' E)
    as (Hname & _ & _ & _ & _ & _ & _ & _ & _ & _ & _ & Hrec).
  split; [done|].
  apply (Hrec ltac:(repeat constructor; set_solver) 0 (MkOpResultCell 3 i32)).
  reflexivity.
Defined.

Lemma All_Forall {A} (P : A -> Prop) (l : list A) : All P l <-> Forall P l.
Proof.
  induction l as [|y l IH]; simpl; [by split|].
  rewrite Forall_cons. by rewrite IH.
Qed.

Lemma mapS_Forall {A B S} (f : A -> S -> M (B * S)) (P : A -> Prop) (l : list A) :
  (forall x s h y s' h', x ∈ l -> f x s h = Ok ((y, s'), h') -> P x) ->
  forall s h ys s' h', mapS f l s h = Ok ((ys, s'), h') -> Forall P l.
Proof.
  intros Hf s h ys s' h' E.
  destruct (mapS_inv f (fun _ _ => True) (fun x _ => P x) l)
    with (s := s) (h := h) (ys := ys) (s' := s') (h' := h') as [_ HF];
    [|done|done|].
  - intros x s0 h0 y s1 h1 Hx _ Ex. split; [done|]. by eapply Hf.
  - clear -HF. induction HF; by constructor.
Qed.

(** X6: [from_mutable] returns only for an op in which every region, at
    every depth, has a first block, and that block is attached to a region:
    on a region without blocks it raises [IndexError], and on one whose
    first block has no parent the assertion fails. *)
Theorem from_mutable_needs_attached_regions (o : Operation) :
  (forall maps existing_operands h r,
      IOp_from_mutable_maps o maps existing_operands h = Ok r ->
      regions_attached o) /\
  (forall h I h', get_immutable_copy o h = Ok (I, h') -> regions_attached o) /\
  (forall value_map block_map h,
      IRegion_from_mutable [] value_map block_map h
      = Raise (IndexError "list index out of range")).
Proof.
  assert (forall maps existing_operands h r,
             IOp_from_mutable_maps o maps existing_operands h = Ok r ->
             regions_attached o) as Hmain.
  { induction o as [i t operands results successors attributes regions IH]
      using Operation_nested_ind.
    intros [vm bm] existing_operands h [r h']. cbn [IOp_from_mutable_maps].
    intros (ops & h1 & E1 & E)%bind_Ok.
    apply bind_Ok in E as ([succs bm1] & h2 & E2 & E).
    apply bind_Ok in E as ([regs maps1] & h3 & E3 & _).
    cbn [regions_attached Operation_regions]. apply All_Forall.
    eapply mapS_Forall; [|exact E3].
    intros [rid blocks] s hh y s' hh' Hx Ex. cbn [Region_blocks].
    rewrite Forall_forall in IH. specialize (IH _ Hx). simpl in IH.
    apply bind_Ok in Ex as ([ibs m1] & h5 & Eb & Ex).
    split.
    - destruct blocks as [|first rest]; [done|].
      destruct (Block_parent first) as [p|] eqn:Hp; [|done]. by exists first, rest, p.
    - apply All_Forall. eapply mapS_Forall; [|exact Eb].
      intros [bid p bargs bops] s0 h0 y0 s0' h0' Hb Eblk. cbn [Block_ops].
      rewrite Forall_forall in IH. specialize (IH _ Hb). simpl in IH.
      destruct s0 as [vm0 bm0]. unfold IBlock_from_mutable_with in Eblk.
      apply bind_Ok in Eblk as ([args vm1] & h6 & _ & Eblk).
      apply bind_Ok in Eblk as ([ops' maps2] & h7 & Eops & _).
      apply All_Forall. eapply mapS_Forall; [|exact Eops].
      intros o' s1 h8 y1 s1' h8' Ho' Eo. rewrite Forall_forall in IH.
      exact (IH o' Ho' _ _ _ _ Eo). }
  split; [exact Hmain|]. split.
  - intros h I h'. unfold get_immutable_copy, IOp_from_mutable.
    intros ([I0 m] & h1 & E & _)%bind_Ok. by eapply Hmain.
  - intros value_map block_map h. unfold IRegion_from_mutable. by simpl.
Qed.

(** An op that owns a region without blocks. *)
Definition hollow : Operation :=
  MkOperation 1 (OpClass "func.func") [] [] [] ∅ [MkRegion 6 []].

(** X6 (witness): [def_first] converts, so its regions are attached;
    [hollow] does not. *)
Lemma from_mutable_needs_attached_regions_witness :
  regions_attached def_first /\
  get_immutable_copy hollow heap0 = Raise (IndexError "list index out of range").
Proof.
  split; [|reflexivity].
  destruct (get_immutable_copy def_first heap0) as [[I h']|e] eqn:E;
    [|by vm_compute in E].
  exact (proj1 (proj2 (from_mutable_needs_attached_regions def_first)) heap0 I h' E).
Defined.

(** An operand that needs no conversion of its own: it is in [value_map]. *)
Definition mapped (vm : ValueMap) (v : SSAValue) : Prop :=
  match v with
  | OpResult vid _ _ _ => exists t p j, vm !! vid = Some (IResult t p j)
  | BlockArg a => is_Some (vm !! barg_id a)
  end.

Lemma convert_mapped_operands (vm : ValueMap) (t : OpType) (pre : list SSAValue) (h : Heap) :
  Forall (mapped vm) pre ->
  exists vs, mapS (convert_operand vm t) pre tt h = Ok ((vs, tt), h).
Proof.
  induction 1 as [|x pre Hx _ IH].
  - by exists [].
  - destruct IH as (vs & E).
    assert (exists v, convert_operand vm t x tt h = Ok ((v, tt), h)) as (v & Ev).
    { destruct x as [vid typ owner idx|a]; simpl in Hx.
      - destruct Hx as (t' & p & j & Hl). unfold convert_operand. rewrite Hl. by eexists.
      - destruct Hx as [v Hl]. unfold convert_operand. rewrite Hl. by eexists. }
    exists (v :: vs). cbn [mapS]. by rewrite bind_eq, Ev, bind_eq, E.
Qed.

(** X7: [from_mutable] stops at the first operand it can not convert.  When
    the operands before it are in [value_map], a block argument that is not
    in [value_map] raises "Block argument expected in mapping for op: " with
    the op's name, and a result that is not in [value_map] and has no owner
    fails the assertion that the owner is an operation. *)
Theorem from_mutable_unknown_operand (o : Operation) (vm : ValueMap) (bm : BlockMap)
    (h : Heap) (pre post : list SSAValue) :
  Forall (mapped vm) pre ->
  (forall a,
      Operation_operands o = pre ++ BlockArg a :: post ->
      vm !! barg_id a = None ->
      IOp_from_mutable_maps o (vm, bm) None h
      = Raise (Exception ("Block argument expected in mapping for op: "
                          +:+ Operation_name o))) /\
  (forall vid typ idx,
      Operation_operands o = pre ++ OpResult vid typ None idx :: post ->
      vm !! vid = None ->
      IOp_from_mutable_maps o (vm, bm) None h = Raise AssertionError).
Proof.
  intros Hpre.
  destruct (convert_mapped_operands vm (Operation_op_type o) pre h Hpre) as (vs & E).
  destruct o as [i t operands results successors attributes regions].
  cbn [Operation_operands Operation_name Operation_op_type] in *.
  split.
  - intros a -> Hl. cbn [IOp_from_mutable_maps]. rewrite !bind_eq.
    change (mapS _ (pre ++ BlockArg a :: post) tt h)
      with (mapS (convert_operand vm t) (pre ++ BlockArg a :: post) tt h).
    rewrite mapS_app, E. cbn [mapS]. rewrite bind_eq.
    unfold convert_operand at 1. by rewrite Hl.
  - intros vid typ idx -> Hl. cbn [IOp_from_mutable_maps]. rewrite !bind_eq.
    change (mapS _ (pre ++ OpResult vid typ None idx :: post) tt h)
      with (mapS (convert_operand vm t) (pre ++ OpResult vid typ None idx :: post) tt h).
    rewrite mapS_app, E. cbn [mapS]. rewrite bind_eq.
    unfold convert_operand at 1. rewrite bind_eq. by rewrite Hl.
Qed.

(** X7 (witness): an op whose only operand is a block argument that no block
    has introduced, and one whose operand is a result without an owner. *)
Lemma from_mutable_unknown_operand_witness :
  IOp_from_mutable_maps
    (MkOperation 4 (OpClass "arith.neg") [example_arg 1 0] [] [] ∅ []) (∅, ∅) None heap0
  = Raise (Exception "Block argument expected in mapping for op: arith.neg") /\
  IOp_from_mutable_maps
    (MkOperation 4 (OpClass "arith.neg") [OpResult 9 i32 None 0] [] [] ∅ [])
    (∅, ∅) None heap0
  = Raise AssertionError.
Proof.
  split.
  - apply (proj1 (from_mutable_unknown_operand
                    (MkOperation 4 (OpClass "arith.neg") [example_arg 1 0] [] [] ∅ [])
                    ∅ ∅ heap0 [] [] ltac:(constructor))
                 (MkBlockArgument 1 i32 0)); reflexivity.
  - apply (proj2 (from_mutable_unknown_operand
                    (MkOperation 4 (OpClass "arith.neg") [OpResult 9 i32 None 0] [] [] ∅ [])
                    ∅ ∅ heap0 [] [] ltac:(constructor))
                 9 i32 0); reflexivity.
Defined.

(** ** [get_mutable_copy] in general (lines 136-149, 352-370, 471-518) *)

(** What a copy keeps whatever the dicts hold: per op the kind, the
    attributes, the number of operands, the result types and the number of
    successors, and per region its blocks with their argument types and
    their ops, in order. *)
Inductive Outline : Type :=
| OlOp (kind : OpType) (attributes : gmap string Attribute) (n_operands : nat)
       (result_types : list Attribute) (n_successors : nat)
       (regions : list (list (list Attribute * list Outline))).

Fixpoint outline (o : Operation) : Outline :=
  OlOp (Operation_op_type o) (Operation_attributes o)
       (length (Operation_operands o)) (map res_typ (Operation_results o))
       (length (Operation_successors o))
       (map (fun r =>
          map (fun b => (map barg_typ (Block_args b), map outline (Block_ops b)))
              (Region_blocks r)) (Operation_regions o)).

Definition outline_block (b : Block) : list Attribute * list Outline :=
  (map barg_typ (Block_args b), map outline (Block_ops b)).

Definition outline_region (r : Region) : list (list Attribute * list Outline) :=
  map outline_block (Region_blocks r).

Fixpoint ioutline (o : IOp) : Outline :=
  OlOp (IOp_op_type o) (IOp_attributes o)
       (length (IOp_operands o)) (IOp_result_types o)
       (length (IOp_successors o))
       (map (fun r =>
          map (fun b => (map arg_typ (IBlock_args b), map ioutline (IBlock_ops b)))
              (IRegion_blocks r)) (IOp_regions o)).

Definition ioutline_block (b : IBlock) : list Attribute * list Outline :=
  (map arg_typ (IBlock_args b), map ioutline (IBlock_ops b)).

Definition ioutline_region (r : IRegion) : list (list Attribute * list Outline) :=
  map ioutline_block (IRegion_blocks r).

Lemma mapS_Forall2 {A B S} (f : A -> S -> M (B * S)) (Q : A -> B -> Prop) (l : list A) :
  (forall x s h y s' h', x ∈ l -> f x s h = Ok ((y, s'), h') -> Q x y) ->
  forall s h ys s' h', mapS f l s h = Ok ((ys, s'), h') -> Forall2 Q l ys.
Proof.
  intros Hf s h ys s' h' E.
  destruct (mapS_inv f (fun _ _ => True) Q l)
    with (s := s) (h := h) (ys := ys) (s' := s') (h' := h') as [_ HF];
    [|done|done|done].
  intros x s0 h0 y s1 h1 Hx _ Ex. split; [done|]. by eapply Hf.
Qed.

Lemma Forall2_map_eq {A B C} (f : A -> C) (g : B -> C) (l : list A) (l' : list B) :
  Forall2 (fun x y => g y = f x) l l' -> map g l' = map f l.
Proof. induction 1; simpl; congruence. Qed.

Lemma IBlock_get_mutable_copy_outline (b : IBlock) :
  Forall (fun o => forall maps h m maps' h',
            IOp_get_mutable_copy_maps o maps h = Ok ((m, maps'), h') ->
            outline m = ioutline o) (IBlock_ops b) ->
  forall maps h b' maps' h',
    IBlock_get_mutable_copy_maps b maps h = Ok ((b', maps'), h') ->
    outline_block b' = ioutline_block b.
Proof.
  destruct b as [bid bargs bops]. simpl. intros IH [vm bm] h b' maps' h'.
  unfold IBlock_get_mutable_copy_maps, IBlock_get_mutable_copy_with. simpl.
  rewrite bind_eq, Block_from_arg_types_ok. cbn [Block_args].
  intros ([ops' maps1] & h1 & E & [= <- <- <-])%bind_Ok.
  rewrite fold_Block_add_op. unfold outline_block, ioutline_block. simpl. f_equal.
  - rewrite fmap_imap. by apply imap_id_ext.
  - apply Forall2_map_eq. eapply mapS_Forall2; [|exact E].
    intros o s h0 y s' h0' Ho Eo. rewrite Forall_forall in IH.
    by eapply (IH o Ho).
Qed.

Lemma IRegion_get_mutable_copy_outline (r : IRegion) :
  Forall (fun b => Forall (fun o => forall maps h m maps' h',
            IOp_get_mutable_copy_maps o maps h = Ok ((m, maps'), h') ->
            outline m = ioutline o) (IBlock_ops b)) (IRegion_blocks r) ->
  forall maps h r' maps' h',
    IRegion_get_mutable_copy_maps r maps h = Ok ((r', maps'), h') ->
    outline_region r' = ioutline_region r.
Proof.
  intros IH maps h r' maps' h'. unfold IRegion_get_mutable_copy_maps.
  intros ([bs maps1] & h1 & E & E')%bind_Ok.
  unfold Region_from_block_list, bind, fresh, ret in E'. injection E' as <- <- <-.
  unfold outline_region, ioutline_region. simpl. rewrite map_map.
  rewrite (map_ext _ outline_block) by (by intros [i p a ops]).
  apply Forall2_map_eq. eapply mapS_Forall2; [|exact E].
  intros b s h0 y s' h0' Hb Eb. rewrite Forall_forall in IH.
  destruct y as [y0 ?]. simpl.
  eapply IBlock_get_mutable_copy_outline; [by apply IH|].
  exact Eb.
Qed.

(** X8: whenever [get_mutable_copy] returns, whatever the dicts hold, the
    copy has the outline of the immutable op: the ops nest in the same way
    and in the same order, each with the kind, attributes and result types of
    its source and as many operands and successors, and the blocks have the
    same argument types.  The name of each copied op is that of its kind. *)
Theorem get_mutable_copy_keeps_outline (o : IOp) (maps : ValueMapping * BlockMapping)
    (h : Heap) (m : Operation) (maps' : ValueMapping * BlockMapping) (h' : Heap) :
  IOp_get_mutable_copy_maps o maps h = Ok ((m, maps'), h') ->
  outline m = ioutline o /\
  Operation_name m = OpType_name (IOp_op_type o) /\
  length (Operation_walk m) = length (walk_list o).
Proof.
  assert (forall o maps h m maps' h',
            IOp_get_mutable_copy_maps o maps h = Ok ((m, maps'), h') ->
            outline m = ioutline o) as Hmain.
  { clear. intros o.
    induction o as [i d operands result_types successors regions IH]
      using IOp_nested_ind.
    intros [vm bm] h m maps' h'. rewrite IOp_get_mutable_copy_maps_eq. cbv zeta.
    intros ([mo u1] & h1 & E1 & E)%bind_Ok.
    apply bind_Ok in E as ([ms u2] & h2 & E2 & E).
    apply bind_Ok in E as ([mr maps1] & h3 & E3 & E).
    apply bind_Ok in E as (new_op & h4 & E4 & [= <- <- <-]).
    rewrite Operation_create_ok in E4. injection E4 as <- <-.
    cbn [outline ioutline Operation_op_type Operation_attributes Operation_operands
         Operation_results Operation_successors Operation_regions IOp_op_type
         IOp_attributes IOp_operands IOp_result_types IOp_successors IOp_regions
         IOp_op_data].
    apply mapS_length in E1 as ->. apply mapS_length in E2 as ->.
    f_equal.
    - rewrite fmap_imap. by apply imap_id_ext.
    - change (map outline_region mr = map ioutline_region regions).
      apply Forall2_map_eq. eapply mapS_Forall2; [|exact E3].
      intros r s h0 [y ?] s' h0' Hr Er. rewrite Forall_forall in IH.
      eapply IRegion_get_mutable_copy_outline; [by apply IH|]. exact Er. }
  intros E. split; [by eapply Hmain|]. split.
  - destruct o as [i d operands result_types successors regions].
    destruct maps as [vm bm]. rewrite IOp_get_mutable_copy_maps_eq in E. cbv zeta in E.
    apply bind_Ok in E as ([mo u1] & h1 & E1 & E).
    apply bind_Ok in E as ([ms u2] & h2 & E2 & E).
    apply bind_Ok in E as ([mr maps1] & h3 & E3 & E).
    apply bind_Ok in E as (new_op & h4 & E4 & [= <- <- <-]).
    rewrite Operation_create_ok in E4. by injection E4 as <- <-.
  - apply Hmain in E. clear -E. revert m E.
    induction o as [i d operands result_types successors regions IH]
      using IOp_nested_ind.
    intros [j t ops res succ attrs regs] E.
    cbn [outline ioutline Operation_regions IOp_regions] in E.
    injection E as _ _ _ _ _ E.
    cbn [Operation_walk walk_list length Operation_regions IOp_regions]. f_equal.
    revert regs E. induction regions as [|[rid blocks] regions IHr];
      intros [|[rid' blocks'] regs] E; try done.
    apply Forall_cons in IH as [IHb IH]. simpl in E. injection E as Eb E.
    cbn [map concat]. rewrite !length_app. f_equal; [|by apply IHr].
    clear IHr IH E. simpl in *. revert blocks' Eb.
    induction blocks as [|[bid bargs bops] blocks IHbl];
      intros [|[bid' p' bargs' bops'] blocks'] Eb; try done.
    apply Forall_cons in IHb as [IHo IHb]. simpl in Eb. injection Eb as _ Eo Eb.
    cbn [map concat]. rewrite !length_app. f_equal; [|by apply IHbl].
    clear IHbl IHb Eb. simpl in *. revert bops' Eo.
    induction bops as [|o bops IHops]; intros [|o' bops'] Eo; try done.
    apply Forall_cons in IHo as [IHo1 IHo]. simpl in Eo. injection Eo as Eo1 Eo.
    cbn [map concat]. rewrite !length_app. f_equal; [by apply IHo1 | by apply IHops].
Qed.

Lemma mapS_total {A B S} (f : A -> S -> M (B * S)) (l : list A) :
  (forall x, x ∈ l -> forall s h, exists y s' h', f x s h = Ok ((y, s'), h')) ->
  forall s h, exists ys s' h', mapS f l s h = Ok ((ys, s'), h').
Proof.
  induction l as [|x l IH]; intros Hf s h.
  - by exists [], s, h.
  - destruct (Hf x ltac:(left) s h) as (y & s1 & h1 & E1).
    destruct (IH ltac:(intros x' Hin; apply Hf; by right) s1 h1) as (ys & s2 & h2 & E2).
    exists (y :: ys), s2, h2. cbn [mapS]. by rewrite bind_eq, E1, bind_eq, E2.
Qed.

(** An op without successors, at any depth. *)
Definition successor_free (o : IOp) : Prop :=
  Forall (fun o' => IOp_successors o' = []) (walk_list o).

Lemma successor_free_inv i d operands result_types successors regions :
  successor_free (MkIOp i d operands result_types successors regions) ->
  successors = [] /\
  Forall (fun r => Forall (fun b => Forall successor_free (IBlock_ops b))
                          (IRegion_blocks r)) regions.
Proof.
  unfold successor_free. rewrite walk_list_eq. cbn [IOp_regions].
  intros [Hs Hr]%Forall_cons. split; [done|].
  rewrite Forall_concat_map in Hr.
  apply Forall_forall. intros r Hin. specialize (Hr r Hin).
  unfold region_walk_list in Hr. rewrite Forall_concat_map in Hr.
  apply Forall_forall. intros b Hb. specialize (Hr b Hb).
  unfold block_walk_list in Hr. rewrite Forall_concat_map in Hr.
  apply Forall_forall. intros o Ho. by apply Hr.
Qed.

(** X9: on an op that has no successors at any depth [get_mutable_copy]
    never raises, whatever the dicts hold and whether or not the operands are
    known: an unknown operand costs a printed line, not an exception. *)
Theorem get_mutable_copy_total (o : IOp) :
  successor_free o ->
  forall maps h, exists m maps' h',
    IOp_get_mutable_copy_maps o maps h = Ok ((m, maps'), h').
Proof.
  induction o as [i d operands result_types successors regions IH]
    using IOp_nested_ind.
  intros [-> Hfree]%successor_free_inv [vm bm] h.
  rewrite IOp_get_mutable_copy_maps_eq. cbv zeta.
  destruct (mutable_operands_ok (od_name d) vm operands h) as (vs & h1 & E1 & _).
  rewrite bind_eq, E1. cbn [mapS]. rewrite bind_eq. unfold ret at 1. rewrite bind_eq.
  destruct (mapS_total IRegion_get_mutable_copy_maps regions) with (s := (vm, bm)) (h := h1)
    as (mr & maps1 & h2 & E3).
  { intros r Hr s h0. unfold IRegion_get_mutable_copy_maps.
    rewrite Forall_forall in IH, Hfree. specialize (IH r Hr). specialize (Hfree r Hr).
    destruct (mapS_total IBlock_get_mutable_copy_maps (IRegion_blocks r))
      with (s := s) (h := h0) as (bs & s1 & h3 & Eb).
    { intros [bid bargs bops] Hb [vm0 bm0] h4.
      rewrite Forall_forall in IH, Hfree.
      specialize (IH _ Hb). specialize (Hfree _ Hb). simpl in IH, Hfree.
      unfold IBlock_get_mutable_copy_maps, IBlock_get_mutable_copy_with. simpl.
      rewrite bind_eq, Block_from_arg_types_ok. cbn [Block_args]. rewrite bind_eq.
      match goal with |- context [mapS _ bops ?s0 ?h0] =>
        destruct (mapS_total IOp_get_mutable_copy_maps bops) with (s := s0) (h := h0)
          as (ops' & s2 & h5 & Eo)
      end.
      { intros o' Ho' s3 h6. rewrite Forall_forall in IH, Hfree.
        destruct s3 as [vm3 bm3]. by apply IH; [|apply Hfree]. }
      rewrite Eo. unfold ret. by do 3 eexists. }
    rewrite bind_eq, Eb. unfold Region_from_block_list, bind, fresh, ret.
    by do 3 eexists. }
  rewrite E3, bind_eq, Operation_create_ok. unfold ret. by do 3 eexists.
Qed.

(** X9 (witness): [neg_op] alone, whose operand is in no dict. *)
Lemma get_mutable_copy_total_witness :
  exists m maps' h', IOp_get_mutable_copy_maps neg_op (∅, ∅) heap0 = Ok ((m, maps'), h').
Proof.
  apply (get_mutable_copy_total neg_op).
  repeat constructor.
Defined.

(** X10: when [get_mutable_copy] returns, [value_mapping] sends every result
    of the immutable op to the result of the copy with the same index, and
    that result has the type of its source and the copy as its owner.  The
    copy is a new object. *)
Theorem get_mutable_copy_records_results (o : IOp)
    (maps : ValueMapping * BlockMapping) (h : Heap) (m : Operation)
    (maps' : ValueMapping * BlockMapping) (h' : Heap) :
  IOp_get_mutable_copy_maps o maps h = Ok ((m, maps'), h') ->
  length (Operation_results m) = length (IOp_result_types o) /\
  (forall j t, IOp_result_types o !! j = Some t ->
     exists c, Operation_results m !! j = Some c /\ res_typ c = t /\
               maps'.1 !! KResult (IOp_id o) j
               = Some (OpResult (res_id c) t (Some m) j)) /\
  next_id h' = S (Operation_id m) + length (IOp_result_types o).
Proof.
  destruct o as [i d operands result_types successors regions].
  destruct maps as [vm bm]. rewrite IOp_get_mutable_copy_maps_eq. cbv zeta.
  intros ([mo u1] & h1 & E1 & E)%bind_Ok.
  apply bind_Ok in E as ([ms u2] & h2 & E2 & E).
  apply bind_Ok in E as ([mr maps1] & h3 & E3 & E).
  apply bind_Ok in E as (new_op & h4 & E4 & [= <- <- <-]).
  rewrite Operation_create_ok in E4. injection E4 as <- <-.
  cbn [Operation_results IOp_result_types IOp_id Operation_id next_id fst].
  split; [by rewrite length_imap|]. split; [|done].
  intros j t Hj. eexists. split; [|split].
  - rewrite list_lookup_imap, Hj. reflexivity.
  - done.
  - unfold record_mutable_results.
    set (new := MkOperation _ _ _ _ _ _ _).
    set (self := MkIOp _ _ _ _ _ _).
    apply (fold_zip_insert_lookup ikey id (IOp_results self)
             (imap (Operation_result new) (Operation_results new)) maps1.1 j
             (IResult t self j)
             (OpResult (S (next_id h3) + j) t (Some new) j)).
    + unfold IOp_results. cbn [IOp_result_types self]. rewrite fmap_imap.
      apply NoDup_alt. intros a b k Ha Hb.
      rewrite list_lookup_imap in Ha, Hb.
      destruct (result_types !! a); [|done]. destruct (result_types !! b); [|done].
      simpl in *. congruence.
    + unfold IOp_results. cbn [IOp_result_types self].
      by rewrite list_lookup_imap, Hj.
    + subst new. cbn [Operation_results]. rewrite list_lookup_imap, list_lookup_imap, Hj.
      reflexivity.
Qed.

(** X10 (witness): the copy of [const_op]. *)
Lemma get_mutable_copy_records_results_witness :
  exists m maps' h',
    IOp_get_mutable_copy_maps const_op (∅, ∅) heap0 = Ok ((m, maps'), h') /\
    exists c, Operation_results m !! 0 = Some c /\
              maps'.1 !! KResult (IOp_id const_op) 0
              = Some (OpResult (res_id c) i32 (Some m) 0).
Proof.
  destruct (IOp_get_mutable_copy_maps const_op (∅, ∅) heap0) as [[[m maps'] h']|e] eqn:E;
    [|by vm_compute in E].
  exists m, maps', h'. split; [done|].
  destruct (proj1 (proj2 (get_mutable_copy_records_results const_op (∅, ∅) heap0
                            m maps' h' E)) 0 i32 eq_refl) as (c & Hc & _ & Hm).
  by exists c.
Defined.

(** X8 (witness): the copy of [holder], whose inner op uses a block argument
    that no dict knows, has the outline of [holder]. *)
Lemma get_mutable_copy_keeps_outline_witness :
  exists m maps' h',
    IOp_get_mutable_copy_maps holder (∅, ∅) heap0 = Ok ((m, maps'), h') /\
    outline m = ioutline holder /\
    length (Operation_walk m) = 2.
Proof.
  destruct (IOp_get_mutable_copy_maps holder (∅, ∅) heap0) as [[[m maps'] h']|e] eqn:E;
    [|by vm_compute in E].
  exists m, maps', h'. split; [done|].
  destruct (get_mutable_copy_keeps_outline holder (∅, ∅) heap0 m maps' h' E)
    as (Ho & _ & Hl).
  by split.
Defined.

(** ** The rewrite combinators at their edges (lines 636-718) *)

(** [env[operand] if operand in env else operand]. *)
Definition env_image (env : Env) (v : ISSAValue) : ISSAValue :=
  default v (env !! ikey v).

(** A result of an op of kind [RewriteId]. *)
Definition from_rewrite_id (v : ISSAValue) : Prop :=
  match v with
  | IResult _ o _ => IOp_op_type o = RewriteId
  | IArg _ => False
  end.

Lemma resolve_operand_plain (env : Env) (v : ISSAValue) :
  ~ from_rewrite_id (env_image env v) -> resolve_operand env v = Ok (env_image env v).
Proof.
  unfold resolve_operand, env_image. intros Hn.
  destruct (env !! ikey v) as [w|]; simpl in *.
  - destruct w as [t o j|a]; [|done].
    unfold OpType_eqb. by rewrite bool_decide_eq_false_2.
  - destruct v as [t o j|a]; [|done].
    unfold OpType_eqb. by rewrite bool_decide_eq_false_2.
Qed.

Lemma unpack_loop_app (env : Env) (xs ys : list Operand) (acc : list ISSAValue * list IOp) :
  unpack_loop env (xs ++ ys) acc =
  match unpack_loop env xs acc with
  | Ok acc' => unpack_loop env ys acc'
  | Raise e => Raise e
  end.
Proof.
  revert acc. induction xs as [|x xs IH]; intros acc; cbn [unpack_loop app]; [done|].
  destruct (unpack_step env x acc); [apply IH | done].
Qed.

(** X11: on operands given as plain values [_unpack_operands] returns, for
    each operand, its image under [env] when it is a key of [env] and the
    operand itself otherwise, and no ops; the image is not looked up in
    [env] again.  This holds when no image is a result of a [RewriteId] op;
    without [env] the operands come back unchanged. *)
Theorem unpack_plain_operands (vs : list ISSAValue) (env : option Env) :
  Forall (fun v => ~ from_rewrite_id (env_image (default ∅ env) v)) vs ->
  _unpack_operands (map OpndValue vs) env
  = Ok (map (env_image (default ∅ env)) vs, []) /\
  (env = None -> _unpack_operands (map OpndValue vs) env = Ok (vs, [])).
Proof.
  intros Hvs. unfold _unpack_operands.
  assert (forall u, unpack_loop (default ∅ env) (map OpndValue vs) (u, [])
                    = Ok (u ++ map (env_image (default ∅ env)) vs, [])) as Hloop.
  { induction Hvs as [|v vs Hv _ IH]; intros u; simpl.
    - by rewrite app_nil_r.
    - rewrite resolve_operand_plain by done. rewrite IH. by rewrite <- app_assoc. }
  split; [apply Hloop|].
  intros ->. rewrite Hloop. simpl. do 2 f_equal.
  clear. induction vs as [|v vs IH]; simpl; [done|].
  unfold env_image at 1. rewrite lookup_empty. simpl. by rewrite IH.
Qed.

(** X11 (witness): with [a] mapped to [b] and [b] to [c], the operand [a]
    becomes [b], not [c]. *)
Lemma unpack_plain_operands_witness :
  let a := IArg (MkIBlockArg 1 i32 0) in
  let b := IArg (MkIBlockArg 2 i32 0) in
  let c := IArg (MkIBlockArg 3 i32 0) in
  _unpack_operands [OpndValue a; OpndValue c]
                   (Some (<[ikey a := b]> (<[ikey b := c]> ∅)))
  = Ok ([b; c], []).
Proof.
  intros a b c.
  apply (proj1 (unpack_plain_operands [a; c]
                  (Some (<[ikey a := b]> (<[ikey b := c]> ∅)))
                  ltac:(repeat constructor; vm_compute; tauto))).
Defined.

(** X12: [_unpack_operands] stops at the first operand it can not use.
    After operands that it accepts: an op without results fails the
    assertion; an empty list of ops raises [IndexError]; a list whose last op
    has no results fails the assertion; a value that resolves to a result of
    a [RewriteId] op without operands raises [IndexError]. *)
Theorem unpack_operands_errors (env : option Env) (pre post : list Operand) :
  Forall (operand_ok (default ∅ env)) pre ->
  (forall o, IOp_result_types o = [] ->
     _unpack_operands (pre ++ OpndOp o :: post) env = Raise AssertionError) /\
  _unpack_operands (pre ++ OpndList [] :: post) env
    = Raise (IndexError "list index out of range") /\
  (forall ops l, last ops = Some l -> IOp_result_types l = [] ->
     _unpack_operands (pre ++ OpndList ops :: post) env = Raise AssertionError) /\
  (forall v t o j,
     env_image (default ∅ env) v = IResult t o j ->
     IOp_op_type o = RewriteId -> IOp_operands o = [] ->
     _unpack_operands (pre ++ OpndValue v :: post) env
     = Raise (IndexError "list index out of range")).
Proof.
  intros Hpre. unfold _unpack_operands.
  destruct (unpack_loop_ok (default ∅ env) pre [] [] Hpre) as (vs & E & _).
  assert (forall o, IOp_result_types o = [] -> IOp_result o = None) as Hnone.
  { intros o Ho. unfold IOp_result, IOp_results. by rewrite Ho. }
  split; [|split; [|split]].
  - intros o Ho. rewrite unpack_loop_app, E. cbn [unpack_loop].
    rewrite unpack_step_eq. simpl. by rewrite (Hnone o Ho).
  - rewrite unpack_loop_app, E. cbn [unpack_loop]. by rewrite unpack_step_eq.
  - intros ops l Hl Ho. rewrite unpack_loop_app, E. cbn [unpack_loop].
    rewrite unpack_step_eq. simpl. by rewrite Hl, (Hnone l Ho).
  - intros v t o j Hv Ht Ho. rewrite unpack_loop_app, E. cbn [unpack_loop].
    rewrite unpack_step_eq. simpl.
    unfold resolve_operand. unfold env_image in Hv.
    assert (match default ∅ env !! ikey v with Some w => w | None => v end
            = IResult t o j) as ->.
    { by destruct (default ∅ env !! ikey v). }
    rewrite Ht, Ho. reflexivity.
Qed.

(** An op without results, and a [RewriteId] op without operands. *)
Definition store_op : IOp :=
  MkIOp 41 (MkOpData 40 "memref.store" (OpClass "memref.store") ∅) [] [] [] [].

Definition empty_rid : IOp :=
  MkIOp 43 (MkOpData 42 "rewrite.id" RewriteId ∅) [] [i32] [] [].

(** X12 (witness): each of the four, after the operand [const_op]. *)
Lemma unpack_operands_errors_witness :
  _unpack_operands [OpndOp const_op; OpndOp store_op] None = Raise AssertionError /\
  _unpack_operands [OpndOp const_op; OpndList []] None
    = Raise (IndexError "list index out of range") /\
  _unpack_operands [OpndOp const_op; OpndList [const_op; store_op]] None
    = Raise AssertionError /\
  _unpack_operands [OpndOp const_op; OpndValue (IResult i32 empty_rid 0)] None
    = Raise (IndexError "list index out of range").
Proof.
  assert (Forall (operand_ok (default ∅ None)) [OpndOp const_op]) as Hpre.
  { constructor; [|constructor]. by exists (IResult i32 const_op 0), (IResult i32 const_op 0). }
  pose proof (unpack_operands_errors None [OpndOp const_op] [] Hpre) as (H1 & H2 & H3 & H4).
  split; [|split; [|split]].
  - by apply (H1 store_op).
  - exact H2.
  - by apply (H3 [const_op; store_op] store_op).
  - by apply (H4 (IResult i32 empty_rid 0) i32 empty_rid 0).
Defined.

Lemma record_results_short (old_results new_results : list ISSAValue) (env : Env) :
  length old_results < length new_results ->
  record_results old_results new_results env
  = Raise (IndexError "list index out of range").
Proof.
  revert old_results env.
  induction new_results as [|r new_results IH]; intros [|o old_results] env Hl;
    simpl in *; try done; try lia.
  apply IH. lia.
Qed.

(** X13: [from_op] with [env] records the results of the new op under the
    results of the old one, index by index.  When the new op has more
    results than the old one had, this raises [IndexError] (after the op was
    built).  Otherwise [env] afterwards sends result [j] of the old op to
    result [j] of the new op for every result of the new op, and holds for
    every other key what it held before. *)
Theorem from_op_records_results (old_op : IOp) operands result_types attributes
    successors regions (env : Env) (h : Heap) unpacked rewritten :
  _unpack_operands (default (map OpndValue (IOp_operands old_op)) operands) (Some env)
    = Ok (unpacked, rewritten) ->
  (length (IOp_result_types old_op)
     < length (default (IOp_result_types old_op) result_types) ->
   from_op old_op operands result_types attributes successors regions (Some env) h
   = Raise (IndexError "list index out of range")) /\
  (length (default (IOp_result_types old_op) result_types)
     <= length (IOp_result_types old_op) ->
   exists o env' h',
     from_op old_op operands result_types attributes successors regions (Some env) h
     = Ok ((rewritten ++ [o], Some env'), h') /\
     (forall j t, IOp_result_types o !! j = Some t ->
                  env' !! KResult (IOp_id old_op) j = Some (IResult t o j)) /\
     (forall k, (forall j, j < length (IOp_result_types o) ->
                           k <> KResult (IOp_id old_op) j) ->
                env' !! k = env !! k)).
Proof.
  intros Hu. split.
  - intros Hl. unfold from_op. cbv zeta. unfold bind at 1, lift at 1. rewrite Hu.
    destruct attributes as [attrs|];
      unfold IOp_get, IOp_init, bind, fresh, ret, lift;
      rewrite record_results_short; try done;
      by rewrite !IOp_results_length.
  - intros Hl.
    pose proof (from_op_ok old_op operands result_types attributes successors regions
                  (Some env) h unpacked rewritten Hu (or_intror Hl)) as E.
    cbv zeta in E. simpl in E.
    set (o := MkIOp _ _ _ _ _ _) in E.
    exists o, (record_all (IOp_results old_op) (IOp_results o) env). eexists.
    split; [exact E|]. split.
    + intros j t Hj.
      assert (IOp_result_types o = default (IOp_result_types old_op) result_types)
        as Ho by done.
      assert (exists t0, IOp_result_types old_op !! j = Some t0) as [t0 Ht0].
      { apply lookup_lt_is_Some. apply lookup_lt_Some in Hj. rewrite Ho in Hj. lia. }
      apply (fold_zip_insert_lookup ikey id (IOp_results old_op) (IOp_results o) env j
               (IResult t0 old_op j) (IResult t o j)).
      * unfold IOp_results. rewrite fmap_imap.
        apply NoDup_alt. intros a b k Ha Hb.
        rewrite list_lookup_imap in Ha, Hb.
        destruct (IOp_result_types old_op !! a); [|done].
        destruct (IOp_result_types old_op !! b); [|done].
        simpl in *. congruence.
      * unfold IOp_results. by rewrite list_lookup_imap, Ht0.
      * unfold IOp_results. by rewrite list_lookup_imap, Hj.
    + intros k Hk. unfold record_all.
      assert (forall (l1 l2 : list ISSAValue) (m : Env),
                (forall j v, l1 !! j = Some v -> j < length l2 -> k <> ikey v) ->
                fold_left (fun e '(old, r) => <[ikey old := r]> e) (zip l1 l2) m !! k
                = m !! k) as Hother.
      { clear. induction l1 as [|x l1 IH]; intros [|y l2] m Hk; simpl; try done.
        rewrite IH.
        - apply lookup_insert_ne. intros E. by apply (Hk 0 x eq_refl ltac:(simpl; lia)).
        - intros j v Hv Hj. apply (Hk (S j) v Hv). simpl. lia. }
      apply Hother. intros j v Hv Hj.
      unfold IOp_results in Hv. rewrite list_lookup_imap in Hv.
      destruct (IOp_result_types old_op !! j); [|done]. injection Hv as <-. simpl.
      apply Hk. by rewrite IOp_results_length in Hj.
Qed.

(** X13 (witness): rebuilding [const_op] with two result types, and with its
    own. *)
Lemma from_op_records_results_witness :
  from_op const_op None (Some [i32; i32]) None None None (Some ∅) heap0
    = Raise (IndexError "list index out of range") /\
  exists o env' h',
    from_op const_op None None None None None (Some ∅) heap0
      = Ok (([] ++ [o], Some env'), h') /\
    env' !! KResult (IOp_id const_op) 0 = Some (IResult i32 o 0).
Proof.
  split.
  - apply (proj1 (from_op_records_results const_op None (Some [i32; i32]) None None None
                    ∅ heap0 [] [] eq_refl)). simpl. lia.
  - destruct (proj2 (from_op_records_results const_op None None None None None
                       ∅ heap0 [] [] eq_refl) ltac:(simpl; lia))
      as (o & env' & h' & E & Hrec & _).
    exists o, env', h'. split; [exact E|].
    apply Hrec.
    pose proof E as E'. vm_compute in E'. injection E' as Ho _ _.
    rewrite <- Ho. reflexivity.
Defined.

(** ** Queries (sasha_rewrite_pattern.py, lines 167-189) *)


(** X15: whatever the constraints, a match never rebinds [root]: when
    [Query.match] returns a match of a query that declares [root], the match
    holds the operation it was called on under [root].  More generally every
    binding of the match is one the loop over the constraints ended with. *)
Theorem Query_match_keeps_root (getattr : PyVal -> string -> Result PyVal)
    (q : Query) (operation : Operation) (m : Match) :
  Query_match getattr q operation = Ok (Some m) ->
  ("root" ∈ map name (variables q) -> m !! "root" = Some (VOperation operation)) /\
  (forall k, is_Some (m !! k) <-> k ∈ map name (variables q)) /\
  exists ctx,
    match_loop getattr (constraints q) {["root" := VOperation operation]}
      = Ok (Some ctx) /\
    ctx !! "root" = Some (VOperation operation) /\
    forall k x, m !! k = Some x -> ctx !! k = Some x.
Proof.
  unfold Query_match.
  destruct (match_loop getattr (constraints q) {["root" := VOperation operation]})
    as [[ctx|]|] eqn:El; try done.
  pose proof (collect_spec (variables q) ctx) as Hc.
  destruct (collect (variables q) ctx) as [m0|]; [|done].
  intros [= <-]. destruct Hc as [Hb Hm].
  assert (ctx !! "root" = Some (VOperation operation)) as Hroot.
  { eapply lookup_weaken; [|by eapply match_loop_mono].
    apply lookup_singleton_eq. }
  split; [|split].
  - intros Hin. rewrite Hm. by rewrite bool_decide_eq_true_2.
  - intros k. rewrite Hm. destruct (bool_decide_reflect (k ∈ map name (variables q)))
      as [Hin|Hin].
    + split; [done|]. intros _. apply list_elem_of_fmap in Hin as (v & -> & Hv).
      by apply Hb.
    + split; [by intros [? ?] | done].
  - exists ctx. split; [done|]. split; [done|].
    intros k x. rewrite Hm. by destruct (bool_decide _).
Qed.

(** X15 (witness): [same_operands_query] on [addi_same]. *)
Lemma Query_match_keeps_root_witness :
  exists m,
    Query_match example_getattr same_operands_query addi_same = Ok (Some m) /\
    m !! "root" = Some (VOperation addi_same).
Proof.
  destruct (Query_match example_getattr same_operands_query addi_same)
    as [[m|]|] eqn:E; [|by vm_compute in E..].
  exists m. split; [done|].
  apply (proj1 (Query_match_keeps_root example_getattr same_operands_query
                  addi_same m E)).
  vm_compute. left.
Defined.

(** ** Successors and the round trip *)

Lemma IOp_from_mutable_successors (o : Operation) maps existing_operands h I maps' h' :
  IOp_from_mutable_maps o maps existing_operands h = Ok ((I, maps'), h') ->
  length (IOp_successors I) = length (Operation_successors o).
Proof.
  destruct o as [i t operands results successors attributes regions].
  destruct maps as [vm bm]. cbn [IOp_from_mutable_maps].
  intros (ops & h1 & E1 & E)%bind_Ok.
  apply bind_Ok in E as ([succs bm1] & h2 & E2 & E).
  apply bind_Ok in E as ([regs maps1] & h3 & E3 & E).
  apply bind_Ok in E as (I0 & h4 & E4 & [= <- <- <-]).
  unfold IOp_get, IOp_init, bind, fresh, ret in E4. injection E4 as <- <-.
  by apply mapS_length in E2.
Qed.

(** X16: an op that has a successor does not come back from the round trip:
    [get_mutable_copy], called without a block mapping, raises "Block used
    before definition" on every op with a successor, and so on the mirror
    [from_mutable] made of such an op. *)
Theorem successor_never_round_trips :
  (forall (I : IOp) (h : Heap),
      IOp_successors I <> [] ->
      IOp_get_mutable_copy I None None h
      = Raise (Exception "Block used before definition")) /\
  (forall (o : Operation) (h : Heap),
      Operation_successors o <> [] ->
      (exists e, round_trip o h = Raise e) /\
      (forall I h1, get_immutable_copy o h = Ok (I, h1) ->
                    round_trip o h = Raise (Exception "Block used before definition"))).
Proof.
  assert (forall (I : IOp) (h : Heap),
            IOp_successors I <> [] ->
            IOp_get_mutable_copy I None None h
            = Raise (Exception "Block used before definition")) as Hcopy.
  { intros [i d operands result_types successors regions] h Hs.
    unfold IOp_get_mutable_copy. cbn [default IOp_successors] in *.
    rewrite IOp_get_mutable_copy_maps_eq. cbv zeta. rewrite bind_eq.
    destruct (mutable_operands_ok (od_name d) ∅ operands h) as (vs & h1 & E1 & _).
    rewrite E1, bind_eq.
    destruct successors as [|s successors]; [done|].
    cbn [mapS]. rewrite bind_eq. unfold mutable_successor at 1.
    by rewrite lookup_empty. }
  split; [exact Hcopy|].
  intros o h Hs.
  assert (forall I h1, get_immutable_copy o h = Ok (I, h1) ->
                       round_trip o h = Raise (Exception "Block used before definition"))
    as Hrt.
  { intros I h1 E. unfold round_trip. rewrite bind_eq, E, bind_eq.
    rewrite Hcopy; [done|].
    unfold get_immutable_copy, IOp_from_mutable in E.
    apply bind_Ok in E as ([I0 m] & h2 & E & [= <- <-]).
    pose proof (IOp_from_mutable_successors _ _ _ _ _ _ _ E) as Hl.
    intros Hn. rewrite Hn in Hl. simpl in Hl. destruct (Operation_successors o); done. }
  split; [|exact Hrt].
  destruct (get_immutable_copy o h) as [[I h1]|e] eqn:E.
  - eexists. by eapply Hrt.
  - exists e. unfold round_trip. by rewrite bind_eq, E.
Qed.

(** X16 (witness): the branch [br_op], and a mutable branch to an empty
    block. *)
Lemma successor_never_round_trips_witness :
  IOp_get_mutable_copy br_op None None heap0
    = Raise (Exception "Block used before definition") /\
  exists e,
    round_trip (MkOperation 2 (OpClass "cf.br") [] [] [MkBlock 7 (Some 6) [] []] ∅ [])
               heap0 = Raise e.
Proof.
  split.
  - by apply (proj1 successor_never_round_trips br_op heap0).
  - by apply (proj2 successor_never_round_trips
                (MkOperation 2 (OpClass "cf.br") [] [] [MkBlock 7 (Some 6) [] []] ∅ [])
                heap0).
Defined.

(** ** The two conversions, one after the other *)

Lemma Forall2_right {A B} (Q : B -> Prop) (l : list A) (ys : list B) :
  Forall2 (fun _ y => Q y) l ys -> Forall Q ys.
Proof. induction 1; by constructor. Qed.

Lemma Forall_walk_list (P : IOp -> Prop) (o : IOp) :
  Forall P (walk_list o) <->
  P o /\ Forall (fun r => Forall (fun b => Forall (fun o' => Forall P (walk_list o'))
                                                  (IBlock_ops b))
                                 (IRegion_blocks r)) (IOp_regions o).
Proof.
  rewrite walk_list_eq, Forall_cons, Forall_concat_map.
  apply and_iff_compat_l. rewrite Forall_forall.
  apply forall_proper. intros r. apply forall_proper. intros Hr.
  unfold region_walk_list. rewrite Forall_concat_map, Forall_forall.
  apply forall_proper. intros b. apply forall_proper. intros Hb.
  unfold block_walk_list. by rewrite Forall_concat_map, Forall_forall.
Qed.

Lemma convert_args_types (bargs : list BlockArgument) (vm : ValueMap) (h : Heap)
    args vm' h' :
  mapS convert_arg bargs vm h = Ok ((args, vm'), h') ->
  map arg_typ args = map barg_typ bargs.
Proof.
  intros E. apply Forall2_map_eq. eapply mapS_Forall2; [|exact E].
  intros x s h0 y s' h0' _ Ex.
  unfold convert_arg, IBlockArg_init, bind, fresh, ret in Ex. by injection Ex as <- _ _.
Qed.

(** Every region of an op, at every depth, has a block. *)
Definition regions_populated (o : IOp) : Prop :=
  Forall (fun o' => Forall (fun r => IRegion_blocks r <> []) (IOp_regions o'))
         (walk_list o).

Lemma IOp_from_mutable_outline (o : Operation) :
  forall maps h I maps' h',
    IOp_from_mutable_maps o maps None h = Ok ((I, maps'), h') ->
    ioutline I = outline o /\
    length (walk_list I) = length (Operation_walk o) /\
    regions_populated I.
Proof.
  unfold regions_populated.
  induction o as [i t operands results successors attributes regions IH]
    using Operation_nested_ind.
  intros [vm bm] h I maps' h'. cbn [IOp_from_mutable_maps].
  intros (ops & h1 & E1 & E)%bind_Ok.
  apply bind_Ok in E as ([succs bm1] & h2 & E2 & E).
  apply bind_Ok in E as ([regs maps1] & h3 & E3 & E).
  apply bind_Ok in E as (I0 & h4 & E4 & [= <- <- <-]).
  unfold IOp_get, IOp_init, bind, fresh, ret in E4. injection E4 as <- <-.
  apply bind_Ok in E1 as ([vs u] & h0 & E0 & [= <- <-]).
  apply mapS_length in E0. apply mapS_length in E2.
  set (Q := fun (r : Region) (r' : IRegion) =>
              ioutline_region r' = outline_region r /\
              length (region_walk_list r')
              = length (concat (map (fun b => concat (map Operation_walk (Block_ops b)))
                                    (Region_blocks r))) /\
              IRegion_blocks r' <> [] /\
              Forall (fun b => Forall (fun o' =>
                        Forall (fun o'' => Forall (fun r => IRegion_blocks r <> [])
                                                  (IOp_regions o''))
                               (walk_list o')) (IBlock_ops b)) (IRegion_blocks r')).
  assert (Forall2 Q regions regs) as HQ.
  { eapply mapS_Forall2; [|exact E3].
    intros [rid blocks] s h5 r' s' h5' Hr Er.
    rewrite Forall_forall in IH. specialize (IH _ Hr). simpl in IH.
    apply bind_Ok in Er as ([ibs m1] & h6 & Eb & Er).
    destruct blocks as [|first rest] eqn:Hblocks; [done|]. rewrite <- Hblocks in *.
    destruct (Block_parent first); [|done].
    unfold IRegion_init, bind, fresh, ret in Er. injection Er as <- <- <-.
    set (Qb := fun (b : Block) (b' : IBlock) =>
                 ioutline_block b' = outline_block b /\
                 length (block_walk_list b')
                 = length (concat (map Operation_walk (Block_ops b))) /\
                 Forall (fun o' =>
                           Forall (fun o'' => Forall (fun r => IRegion_blocks r <> [])
                                                     (IOp_regions o''))
                                  (walk_list o')) (IBlock_ops b')).
    assert (Forall2 Qb blocks ibs) as HQb.
    { eapply mapS_Forall2; [|exact Eb].
      intros [bid p bargs bops] [vm0 bm0] h7 b' s0' h7' Hb Eblk.
      rewrite Forall_forall in IH. specialize (IH _ Hb). simpl in IH.
      unfold IBlock_from_mutable_with in Eblk.
      apply bind_Ok in Eblk as ([args vm1] & h8 & Ea & Eblk).
      apply bind_Ok in Eblk as ([ops' maps2] & h9 & Eops & Eblk).
      unfold IBlock_init, bind, fresh, ret in Eblk. injection Eblk as <- <- <-.
      assert (Forall2 (fun o o' =>
                ioutline o' = outline o /\
                length (walk_list o') = length (Operation_walk o) /\
                Forall (fun o'' => Forall (fun r => IRegion_blocks r <> [])
                                          (IOp_regions o'')) (walk_list o'))
              bops ops') as Hops.
      { eapply mapS_Forall2; [|exact Eops].
        intros o s1 h10 y s1' h10' Ho Eo. rewrite Forall_forall in IH.
        exact (IH o Ho _ _ _ _ _ Eo). }
      unfold Qb, ioutline_block, outline_block, block_walk_list. simpl.
      split; [|split].
      - f_equal; [by eapply convert_args_types|].
        apply Forall2_map_eq. eapply Forall2_impl; [exact Hops|]. by intros ? ? [? _].
      - clear -Hops. induction Hops as [|? ? ? ? (_ & Hl & _)]; simpl; [done|].
        rewrite !length_app. congruence.
      - clear -Hops. induction Hops as [|? ? ? ? (_ & _ & Hf)]; by constructor. }
    unfold Q, ioutline_region, outline_region, region_walk_list. simpl.
    split; [|split; [|split]].
    - apply Forall2_map_eq. eapply Forall2_impl; [exact HQb|]. by intros ? ? [? _].
    - clear -HQb. induction HQb as [|? ? ? ? (_ & Hl & _)]; simpl; [done|].
      rewrite !length_app. unfold block_walk_list in *. congruence.
    - apply Forall2_length in HQb. rewrite Hblocks in HQb.
      destruct ibs; [done|]. done.
    - clear -HQb. induction HQb as [|? ? ? ? (_ & _ & Hf)]; by constructor. }
  split; [|split].
  - cbn [outline ioutline Operation_op_type Operation_attributes Operation_operands
         Operation_results Operation_successors Operation_regions IOp_op_type
         IOp_attributes IOp_operands IOp_result_types IOp_successors IOp_regions
         IOp_op_data od_op_type od_attributes fst].
    rewrite E0, E2. f_equal.
    change (map ioutline_region regs = map outline_region regions).
    apply Forall2_map_eq. eapply Forall2_impl; [exact HQ|]. by intros ? ? [? _].
  - rewrite walk_list_eq. cbn [Operation_walk IOp_regions Operation_regions length].
    f_equal. clear -HQ. induction HQ as [|? ? ? ? (_ & Hl & _)]; simpl; [done|].
    rewrite !length_app. congruence.
  - apply Forall_walk_list. cbn [IOp_regions]. split.
    + clear -HQ. induction HQ as [|? ? ? ? (_ & _ & Hn & _)]; by constructor.
    + clear -HQ. induction HQ as [|? ? ? ? (_ & _ & _ & Hf)]; by constructor.
Qed.

(** X17: whenever [from_mutable] returns, the mirror has the outline of the
    mutable op: the ops nest in the same way and in the same order, each with
    the kind, attributes and result types of its source and as many operands
    and successors, and the blocks have the same argument types; and every
    region of the mirror, at every depth, has at least one block. *)
Theorem from_mutable_keeps_outline (o : Operation) (maps : ValueMap * BlockMap)
    (h : Heap) (I : IOp) (maps' : ValueMap * BlockMap) (h' : Heap) :
  IOp_from_mutable_maps o maps None h = Ok ((I, maps'), h') ->
  ioutline I = outline o /\
  length (walk_list I) = length (Operation_walk o) /\
  Forall (fun o' => Forall (fun r => IRegion_blocks r <> []) (IOp_regions o'))
         (walk_list I).
Proof. apply IOp_from_mutable_outline. Qed.

(** X17 (witness): the mirror of [def_first]. *)
Lemma from_mutable_keeps_outline_witness :
  exists I maps' h',
    IOp_from_mutable_maps def_first (∅, ∅) None heap0 = Ok ((I, maps'), h') /\
    ioutline I = outline def_first /\
    length (walk_list I) = 3.
Proof.
  destruct (IOp_from_mutable_maps def_first (∅, ∅) None heap0)
    as [[[I maps'] h']|e] eqn:E; [|by vm_compute in E].
  exists I, maps', h'. split; [done|].
  destruct (from_mutable_keeps_outline def_first (∅, ∅) heap0 I maps' h' E)
    as (Ho & Hl & _).
  by split.
Defined.

Lemma Forall2_Forall_impl {A B} (P : A -> Prop) (Q : B -> Prop) (l : list A) (ys : list B) :
  Forall2 (fun x y => P x -> Q y) l ys -> Forall P l -> Forall Q ys.
Proof.
  induction 1 as [|x y l ys Hxy _ IH]; intros HP; [constructor|].
  apply Forall_cons in HP as [Hx HP]. constructor; auto.
Qed.

(** In a copy every region that had a block has its first block attached. *)
Lemma IOp_get_mutable_copy_attached (o : IOp) :
  forall maps h m maps' h',
    IOp_get_mutable_copy_maps o maps h = Ok ((m, maps'), h') ->
    regions_populated o -> regions_attached m.
Proof.
  unfold regions_populated.
  induction o as [i d operands result_types successors regions IH]
    using IOp_nested_ind.
  intros [vm bm] h m maps' h'. rewrite IOp_get_mutable_copy_maps_eq. cbv zeta.
  intros ([mo u1] & h1 & E1 & E)%bind_Ok.
  apply bind_Ok in E as ([ms u2] & h2 & E2 & E).
  apply bind_Ok in E as ([mr maps1] & h3 & E3 & E).
  apply bind_Ok in E as (new_op & h4 & E4 & [= <- <- <-]).
  rewrite Operation_create_ok in E4. injection E4 as <- <-.
  intros [Hne Hnested]%Forall_walk_list. cbn [IOp_regions] in *.
  cbn [regions_attached Operation_regions].
  change (All region_attached mr). apply All_Forall.
  assert (Forall (fun r => IRegion_blocks r <> [] /\
            Forall (fun b => Forall (fun o' =>
                      Forall (fun o'' => Forall (fun r => IRegion_blocks r <> [])
                                                (IOp_regions o''))
                             (walk_list o')) (IBlock_ops b)) (IRegion_blocks r))
          regions) as Hpop.
  { apply Forall_forall. intros r Hr. rewrite Forall_forall in Hne, Hnested. auto. }
  eapply Forall2_Forall_impl; [|exact Hpop].
  eapply mapS_Forall2; [|exact E3].
  intros r s h5 r' s' h5' Hr Er [Hrne Hrn].
  rewrite Forall_forall in IH. specialize (IH _ Hr).
  unfold IRegion_get_mutable_copy_maps in Er.
  apply bind_Ok in Er as ([bs m1] & h6 & Eb & Er).
  unfold Region_from_block_list, bind, fresh, ret in Er. injection Er as <- <- <-.
  unfold region_attached. cbn [Region_blocks]. split.
  - apply mapS_length in Eb.
    destruct bs as [|[j p a ops] bs]; [by destruct (IRegion_blocks r)|].
    simpl. by do 3 eexists.
  - apply All_Forall. apply Forall_fmap.
    eapply Forall2_Forall_impl; [|exact Hrn].
    eapply mapS_Forall2; [|exact Eb].
    intros [bid bargs bops] [vm0 bm0] h7 b' s0' h7' Hb Eblk Hbn.
    rewrite Forall_forall in IH. specialize (IH _ Hb). simpl in IH, Hbn.
    unfold IBlock_get_mutable_copy_maps, IBlock_get_mutable_copy_with in Eblk.
    simpl in Eblk. rewrite bind_eq, Block_from_arg_types_ok in Eblk.
    cbn [Block_args] in Eblk.
    apply bind_Ok in Eblk as ([ops' maps2] & h8 & Eops & [= <- <- <-]).
    rewrite fold_Block_add_op. simpl. apply All_Forall.
    eapply Forall2_Forall_impl; [|exact Hbn].
    eapply mapS_Forall2; [|exact Eops].
    intros o s1 h9 y s1' h9' Ho Eo Hon. rewrite Forall_forall in IH.
    destruct s1 as [vm1 bm1]. destruct s1' as [vm1' bm1'].
    by eapply (IH o Ho).
Qed.

Lemma copyable_closed_skeleton (o : Operation) :
  forall st, copyable (skeleton o st).1 -> closed (skeleton o st).1.
Proof.
  induction o as [i t operands results successors attributes regions IH]
    using Operation_nested_ind.
  intros st. rewrite skeleton_eq. cbn [fst closed copyable].
  intros (_ & Hops & Hsucc & Hreg). do 2 (split; [done|]).
  revert Hreg. apply (mapfold_All_impl skeleton_region region_copyable region_closed).
  intros r Hr st1. unfold skeleton_region.
  apply (mapfold_All_impl skeleton_block block_copyable block_closed).
  intros [bid p bargs bops] Hb st2. rewrite skeleton_block_eq. cbn [fst].
  apply (mapfold_All_impl skeleton copyable closed).
  intros o Ho. rewrite Forall_forall in IH. specialize (IH r Hr).
  rewrite Forall_forall in IH. specialize (IH _ Hb). simpl in IH.
  rewrite Forall_forall in IH. by apply IH.
Qed.

Lemma InvA_start (h : Heap) : InvA (stdout h) (∅, ∅) empty_numbering empty_numbering h.
Proof. repeat split; done. Qed.

Lemma InvB_start (out : list string) (h : Heap) :
  stdout h = out -> InvB out (∅, ∅) empty_numbering empty_numbering h.
Proof. intros <-. repeat split; done. Qed.

(** X18: the other round trip.  Let [I] be an immutable op in which every
    operand is defined before it is used, no op has a successor, every op is
    named as its kind is and every region has a block.  Then
    [get_mutable_copy] followed by [get_immutable_copy] returns a mirror
    with the skeleton of [I], and nothing is printed. *)
Theorem mirror_round_trip (I : IOp) (h : Heap) :
  copyable (iskeleton I empty_numbering).1 -> regions_populated I ->
  exists m maps h1 I' h2,
    IOp_get_mutable_copy I None None h = Ok ((m, maps), h1) /\
    get_immutable_copy m h1 = Ok (I', h2) /\
    (iskeleton I' empty_numbering).1 = (iskeleton I empty_numbering).1 /\
    length (walk_list I') = length (walk_list I) /\
    stdout h2 = stdout h.
Proof.
  intros Hc Hpop. unfold IOp_get_mutable_copy, get_immutable_copy, IOp_from_mutable.
  cbn [default from_option id].
  pose proof (IOp_get_mutable_copy_ok I (stdout h) (∅, ∅) empty_numbering
                empty_numbering h (InvB_start _ h eq_refl) Hc) as HB.
  destruct (IOp_get_mutable_copy_maps I (∅, ∅) h) as [[[m maps] h1]|e] eqn:EB; [|done].
  destruct HB as [HsB (_ & _ & Hout1 & _)].
  pose proof (IOp_get_mutable_copy_attached I _ _ _ _ _ EB Hpop) as Hatt.
  assert (closed (skeleton m empty_numbering).1) as Hcl.
  { apply copyable_closed_skeleton. by rewrite HsB. }
  pose proof (IOp_from_mutable_ok m (stdout h1) (∅, ∅) empty_numbering
                empty_numbering h1 (InvA_start h1) Hcl Hatt) as HA.
  destruct (IOp_from_mutable_maps m (∅, ∅) None h1) as [[[I' s1] h2]|e] eqn:EA; [|done].
  destruct HA as [HsA (_ & _ & Hout2 & _)].
  exists m, maps, h1, I', h2. split; [done|]. rewrite bind_eq, EA. unfold ret. cbn [fst].
  split; [done|]. split; [congruence|]. split; [|congruence].
  destruct (IOp_from_mutable_outline m _ _ _ _ _ EA) as (_ & Hl & _).
  rewrite Hl. clear -EB.
  assert (forall o maps h m maps' h',
            IOp_get_mutable_copy_maps o maps h = Ok ((m, maps'), h') ->
            length (Operation_walk m) = length (walk_list o)) as Hlen;
    [|by eapply Hlen].
  clear. intros o.
  induction o as [i d operands result_types successors regions IH]
    using IOp_nested_ind.
  intros [vm bm] h m maps' h'. rewrite IOp_get_mutable_copy_maps_eq. cbv zeta.
  intros ([mo u1] & h1 & E1 & E)%bind_Ok.
  apply bind_Ok in E as ([ms u2] & h2 & E2 & E).
  apply bind_Ok in E as ([mr maps1] & h3 & E3 & E).
  apply bind_Ok in E as (new_op & h4 & E4 & [= <- <- <-]).
  rewrite Operation_create_ok in E4. injection E4 as <- <-.
  rewrite walk_list_eq. cbn [Operation_walk Operation_regions IOp_regions length].
  f_equal.
  assert (Forall2 (fun r r' =>
            length (concat (map (fun b => concat (map Operation_walk (Block_ops b)))
                                (Region_blocks r')))
            = length (region_walk_list r)) regions mr) as HQ.
  { eapply mapS_Forall2; [|exact E3].
    intros r s h5 r' s' h5' Hr Er.
    rewrite Forall_forall in IH. specialize (IH _ Hr).
    unfold IRegion_get_mutable_copy_maps in Er.
    apply bind_Ok in Er as ([bs m1] & h6 & Eb & Er).
    unfold Region_from_block_list, bind, fresh, ret in Er. injection Er as <- <- <-.
    cbn [Region_blocks]. rewrite map_map.
    assert (Forall2 (fun b b' =>
              length (concat (map Operation_walk (Block_ops b')))
              = length (block_walk_list b)) (IRegion_blocks r) bs) as HQb.
    { eapply mapS_Forall2; [|exact Eb].
      intros [bid bargs bops] [vm0 bm0] h7 b' s0' h7' Hb Eblk.
      rewrite Forall_forall in IH. specialize (IH _ Hb). simpl in IH.
      unfold IBlock_get_mutable_copy_maps, IBlock_get_mutable_copy_with in Eblk.
      simpl in Eblk. rewrite bind_eq, Block_from_arg_types_ok in Eblk.
      cbn [Block_args] in Eblk.
      apply bind_Ok in Eblk as ([ops' maps2] & h8 & Eops & [= <- <- <-]).
      rewrite fold_Block_add_op. unfold block_walk_list. simpl.
      assert (Forall2 (fun o o' => length (Operation_walk o') = length (walk_list o))
                      bops ops') as Hops.
      { eapply mapS_Forall2; [|exact Eops].
        intros o s1 h9 y s1' h9' Ho Eo. rewrite Forall_forall in IH.
        destruct s1 as [vm1 bm1]. destruct s1' as [vm1' bm1'].
        by eapply (IH o Ho). }
      clear -Hops. induction Hops; simpl; [done|]. rewrite !length_app. congruence. }
    unfold region_walk_list. clear -HQb.
    induction HQb as [|b [j p a ops] ? ? Hl]; simpl; [done|].
    rewrite !length_app. simpl in Hl. congruence. }
  clear -HQ. induction HQ; simpl; [done|]. rewrite !length_app. congruence.
Qed.

(** A module whose second op uses the result of the first. *)
Definition mirror_module : IOp :=
  MkIOp 50 (MkOpData 49 "builtin.module" (OpClass "builtin.module") ∅) [] [] []
        [MkIRegion 48 [MkIBlock 47 [] [const_op; neg_op]]].

(** X18 (witness): [mirror_module] goes there and back. *)
Lemma mirror_round_trip_witness :
  exists m maps h1 I' h2,
    IOp_get_mutable_copy mirror_module None None heap0 = Ok ((m, maps), h1) /\
    get_immutable_copy m h1 = Ok (I', h2) /\
    (iskeleton I' empty_numbering).1 = (iskeleton mirror_module empty_numbering).1 /\
    length (walk_list I') = length (walk_list mirror_module) /\
    stdout h2 = stdout heap0.
Proof.
  apply (mirror_round_trip mirror_module heap0).
  - vm_compute. repeat split.
  - repeat constructor; done.
Defined.

Lemma round_trip_steps (m : Operation) (h : Heap) :
  closed (skeleton m empty_numbering).1 -> regions_attached m ->
  exists m' h',
    round_trip m h = Ok (m', h') /\
    (skeleton m' empty_numbering).1 = (skeleton m empty_numbering).1 /\
    stdout h' = stdout h /\
    regions_attached m'.
Proof.
  intros Hc Hatt.
  unfold round_trip, get_immutable_copy, IOp_from_mutable, IOp_get_mutable_copy.
  cbn [default from_option id]. rewrite !bind_eq.
  pose proof (IOp_from_mutable_ok m (stdout h) (∅, ∅) empty_numbering
                empty_numbering h (InvA_start h) Hc Hatt) as HA.
  destruct (IOp_from_mutable_maps m (∅, ∅) None h) as [[[i s1] h1]|e] eqn:EA; [|done].
  destruct HA as [HsA (_ & _ & Hout1 & _)].
  unfold ret at 1. cbn [fst]. rewrite !bind_eq.
  pose proof (IOp_get_mutable_copy_ok i (stdout h) (∅, ∅) empty_numbering
                empty_numbering h1 (InvB_start _ h1 Hout1)) as HB.
  rewrite HsA in HB. specialize (HB (closed_copyable m _ Hc)).
  destruct (IOp_get_mutable_copy_maps i (∅, ∅) h1) as [[[m' s2] h2]|e] eqn:EB; [|done].
  destruct HB as [HsB (_ & _ & Hout2 & _)].
  exists m', h2. unfold ret. cbn [fst]. split; [done|]. split; [congruence|].
  split; [done|].
  eapply IOp_get_mutable_copy_attached; [exact EB|].
  by destruct (IOp_from_mutable_outline m _ _ _ _ _ EA) as (_ & _ & ?).
Qed.

(** X19: the round trip can be repeated.  When a module meets what the round
    trip needs (operands defined before use, no successors, every region
    with an attached first block), so does the module the round trip
    returns; a second round trip returns once more a module with the
    skeleton of the first one, and still nothing is printed. *)
Theorem round_trip_repeats (m : Operation) (h : Heap) (m' : Operation) (h' : Heap) :
  closed (skeleton m empty_numbering).1 -> regions_attached m ->
  round_trip m h = Ok (m', h') ->
  closed (skeleton m' empty_numbering).1 /\
  regions_attached m' /\
  exists m'' h'',
    round_trip m' h' = Ok (m'', h'') /\
    (skeleton m'' empty_numbering).1 = (skeleton m empty_numbering).1 /\
    stdout h'' = stdout h.
Proof.
  intros Hc Hatt E.
  destruct (round_trip_steps m h Hc Hatt) as (m1 & h1 & E1 & Hs1 & Ho1 & Ha1).
  rewrite E in E1. injection E1 as <- <-.
  assert (closed (skeleton m' empty_numbering).1) as Hc' by (by rewrite Hs1).
  split; [done|]. split; [done|].
  destruct (round_trip_steps m' h' Hc' Ha1) as (m2 & h2 & E2 & Hs2 & Ho2 & _).
  exists m2, h2. split; [done|]. split; congruence.
Qed.

(** X19 (witness): [def_first], twice. *)
Lemma round_trip_repeats_witness :
  exists m' h' m'' h'',
    round_trip def_first heap0 = Ok (m', h') /\
    round_trip m' h' = Ok (m'', h'') /\
    (skeleton m'' empty_numbering).1 = (skeleton def_first empty_numbering).1.
Proof.
  destruct (round_trip def_first heap0) as [[m' h']|e] eqn:E; [|by vm_compute in E].
  assert (closed (skeleton def_first empty_numbering).1) as Hc
    by (vm_compute; repeat split).
  assert (regions_attached def_first) as Ha.
  { simpl. split; [|done].
    split; [by exists (MkBlock 7 (Some 6) [] [X_op; Y_op]), [], 6|]. simpl. done. }
  destruct (round_trip_repeats def_first heap0 m' h' Hc Ha E)
    as (_ & _ & m'' & h'' & E2 & Hs & _).
  by exists m', h', m'', h''.
Defined.

(** ** Successors anywhere in a module *)

(** What the ops of a walk contribute, in walk order. *)
Definition gather {A} (F : IOp -> list A) (o : IOp) : list A :=
  concat (map F (walk_list o)).

Definition gather_block {A} (F : IOp -> list A) (b : IBlock) : list A :=
  concat (map F (block_walk_list b)).

Definition gather_region {A} (F : IOp -> list A) (r : IRegion) : list A :=
  concat (map F (region_walk_list r)).

(** The successors named by the ops of a walk, and the blocks of their
    regions, by identity. *)
Definition own_successor_ids (o : IOp) : list ident :=
  map IBlock_id (IOp_successors o).

Definition own_block_ids (o : IOp) : list ident :=
  concat (map (fun r => map IBlock_id (IRegion_blocks r)) (IOp_regions o)).

Definition successor_ids (o : IOp) : list ident := gather own_successor_ids o.
Definition region_block_ids (o : IOp) : list ident := gather own_block_ids o.

Lemma concat_map_concat {A B} (F : A -> list B) (ls : list (list A)) :
  concat (map F (concat ls)) = concat (map (fun l => concat (map F l)) ls).
Proof.
  induction ls as [|l ls IH]; simpl; [done|].
  by rewrite map_app, concat_app, IH.
Qed.

Lemma gather_eq {A} (F : IOp -> list A) (o : IOp) :
  gather F o = F o ++ concat (map (gather_region F) (IOp_regions o)).
Proof.
  unfold gather. rewrite walk_list_eq. simpl. f_equal.
  by rewrite concat_map_concat, map_map.
Qed.

Lemma gather_region_eq {A} (F : IOp -> list A) (r : IRegion) :
  gather_region F r = concat (map (gather_block F) (IRegion_blocks r)).
Proof.
  unfold gather_region, region_walk_list. by rewrite concat_map_concat, map_map.
Qed.

Lemma gather_block_eq {A} (F : IOp -> list A) (b : IBlock) :
  gather_block F b = concat (map (gather F) (IBlock_ops b)).
Proof.
  unfold gather_block, block_walk_list. by rewrite concat_map_concat, map_map.
Qed.

Lemma elem_of_concat_map {A B} (F : A -> list B) (l : list A) (k : B) :
  k ∈ concat (map F l) <-> exists x, x ∈ l /\ k ∈ F x.
Proof.
  induction l as [|y l IH]; simpl.
  - split; [by intros ?%elem_of_nil | by intros (? & ?%elem_of_nil & _)].
  - rewrite elem_of_app, IH. split.
    + intros [H|(x & Hx & Hk)]; [exists y; split; [left|done] | exists x; split; [by right|done]].
    + intros (x & [->|Hx]%elem_of_cons & Hk); [by left | right; eauto].
Qed.

(** *** What [get_mutable_copy] knows of blocks

    [covers R S bm bm']: the keys of [bm'] are keys of [bm] or in [R]; what
    is in [S] is a key of [bm] or in [R]; no key is lost. *)
Definition covers (R S : ident -> Prop) (bm bm' : BlockMapping) : Prop :=
  (forall k, is_Some (bm' !! k) -> is_Some (bm !! k) \/ R k) /\
  (forall k, S k -> is_Some (bm !! k) \/ R k) /\
  (forall k, is_Some (bm !! k) -> is_Some (bm' !! k)).

Lemma covers_refl (bm : BlockMapping) : covers (fun _ => False) (fun _ => False) bm bm.
Proof. split; [|split]; [by left | done | done]. Qed.

Lemma covers_trans R1 S1 R2 S2 (bm0 bm1 bm2 : BlockMapping) :
  covers R1 S1 bm0 bm1 -> covers R2 S2 bm1 bm2 ->
  covers (fun k => R1 k \/ R2 k) (fun k => S1 k \/ S2 k) bm0 bm2.
Proof.
  intros (A1 & B1 & C1) (A2 & B2 & C2). split; [|split].
  - intros k Hk. destruct (A2 k Hk) as [H|H]; [|by right; right].
    destruct (A1 k H) as [?|?]; [by left | by right; left].
  - intros k [Hk|Hk].
    + destruct (B1 k Hk) as [?|?]; [by left | by right; left].
    + destruct (B2 k Hk) as [H|H]; [|by right; right].
      destruct (A1 k H) as [?|?]; [by left | by right; left].
  - intros k Hk. auto.
Qed.

Lemma covers_ext (R S R' S' : ident -> Prop) (bm bm' : BlockMapping) :
  covers R S bm bm' -> (forall k, R k -> R' k) -> (forall k, S' k -> S k) ->
  covers R' S' bm bm'.
Proof.
  intros (A & B & C) HR HS. split; [|split]; [| |done].
  - intros k Hk. destruct (A k Hk); auto.
  - intros k Hk. destruct (B k (HS k Hk)); auto.
Qed.

Lemma mapS_covers {A B St} (f : A -> St -> M (B * St)) (proj : St -> BlockMapping)
    (R S : A -> ident -> Prop) (l : list A) :
  (forall x s h y s' h', x ∈ l -> f x s h = Ok ((y, s'), h') ->
                         covers (R x) (S x) (proj s) (proj s')) ->
  forall s h ys s' h',
    mapS f l s h = Ok ((ys, s'), h') ->
    covers (fun k => exists x, x ∈ l /\ R x k) (fun k => exists x, x ∈ l /\ S x k)
           (proj s) (proj s').
Proof.
  induction l as [|x l IH]; intros Hf s h ys s' h'; cbn [mapS].
  - intros [= <- <- <-]. eapply covers_ext; [apply covers_refl|done|].
    by intros k (? & ?%elem_of_nil & _).
  - intros ([y s1] & h1 & E1 & E)%bind_Ok.
    apply bind_Ok in E as ([ys' s2] & h2 & E2 & [= <- <- <-]).
    pose proof (Hf x s h y s1 h1 ltac:(left) E1) as H1.
    pose proof (IH ltac:(intros x' s0 h0 y0 s0' h0' Hin; apply Hf; by right)
                   s1 h1 ys' s2 h2 E2) as H2.
    eapply covers_ext; [exact (covers_trans _ _ _ _ _ _ _ H1 H2)| |].
    + intros k [Hk|(x' & Hx' & Hk)]; [exists x; split; [left|done] |
                                       exists x'; split; [by right|done]].
    + intros k (x' & [->|Hx']%elem_of_cons & Hk); [by left | right; eauto].
Qed.

Lemma IOp_get_mutable_copy_covers (o : IOp) :
  forall vm bm h m vm' bm' h',
    IOp_get_mutable_copy_maps o (vm, bm) h = Ok ((m, (vm', bm')), h') ->
    covers (fun k => k ∈ region_block_ids o) (fun k => k ∈ successor_ids o) bm bm'.
Proof.
  induction o as [i d operands result_types successors regions IH]
    using IOp_nested_ind.
  intros vm bm h m vm' bm' h'. rewrite IOp_get_mutable_copy_maps_eq. cbv zeta.
  intros ([mo u1] & h1 & E1 & E)%bind_Ok.
  apply bind_Ok in E as ([ms u2] & h2 & E2 & E).
  apply bind_Ok in E as ([mr maps1] & h3 & E3 & E).
  apply bind_Ok in E as (new_op & h4 & E4 & [= <- <- <-]).
  pose proof (mutable_successors_spec bm successors h1) as Hs. rewrite E2 in Hs.
  destruct Hs as [_ Hs].
  pose (Rr := fun (r : IRegion) (k : ident) =>
                k ∈ map IBlock_id (IRegion_blocks r) \/ k ∈ gather_region own_block_ids r).
  pose (Sr := fun (r : IRegion) (k : ident) => k ∈ gather_region own_successor_ids r).
  opose proof (mapS_covers IRegion_get_mutable_copy_maps snd Rr Sr regions
                 _ _ _ _ _ _ E3) as Hreg.
  { subst Rr Sr. intros r [vm0 bm0] h5 r' [vm0' bm0'] h5' Hr Er. cbn [snd].
    rewrite Forall_forall in IH. specialize (IH _ Hr).
    unfold IRegion_get_mutable_copy_maps in Er.
    apply bind_Ok in Er as ([bs m1] & h6 & Eb & Er).
    unfold Region_from_block_list, bind, fresh, ret in Er. injection Er as _ Hm1 _.
    subst m1.
    pose (Rb := fun (b : IBlock) (k : ident) =>
                  k = IBlock_id b \/ k ∈ gather_block own_block_ids b).
    pose (Sb := fun (b : IBlock) (k : ident) => k ∈ gather_block own_successor_ids b).
    opose proof (mapS_covers IBlock_get_mutable_copy_maps snd Rb Sb (IRegion_blocks r)
                   _ _ _ _ _ _ Eb) as Hblk.
    { subst Rb Sb. intros [bid bargs bops] [vm1 bm1] h7 b' [vm1' bm1'] h7' Hb Eblk. cbn [snd].
      rewrite Forall_forall in IH. specialize (IH _ Hb). simpl in IH.
      unfold IBlock_get_mutable_copy_maps, IBlock_get_mutable_copy_with in Eblk.
      simpl in Eblk. rewrite bind_eq, Block_from_arg_types_ok in Eblk.
      cbn [Block_args] in Eblk.
      apply bind_Ok in Eblk as ([ops' maps2] & h8 & Eops & [= _ -> _]).
      opose proof (mapS_covers IOp_get_mutable_copy_maps snd
                     (fun o k => k ∈ region_block_ids o)
                     (fun o k => k ∈ successor_ids o) bops _ _ _ _ _ _ Eops) as Hops.
      { intros o [vm2 bm2] h9 y [vm2' bm2'] h9' Ho Eo. cbn [snd].
        rewrite Forall_forall in IH. by eapply (IH o Ho). }
      cbn [snd] in Hops.
      assert (covers (fun k => k = bid) (fun _ => False) bm1
                     (<[bid := MkBlock (next_id h7) None
                                  (imap (fun k t => MkBlockArgument (S (next_id h7) + k) t k)
                                        (map arg_typ bargs)) []]> bm1)) as Hins.
      { split; [|split]; [| done |].
        - intros k Hk. destruct (decide (k = bid)) as [->|Hne]; [by right|].
          left. by rewrite lookup_insert_ne in Hk.
        - intros k Hk. destruct (decide (k = bid)) as [->|Hne].
          + by rewrite lookup_insert_eq.
          + by rewrite lookup_insert_ne. }
      eapply covers_ext; [exact (covers_trans _ _ _ _ _ _ _ Hins Hops)| |].
      - cbn [IBlock_id]. intros k [->|(x & Hx & Hk)]; [by left|]. right.
        rewrite gather_block_eq. apply elem_of_concat_map. eauto.
      - intros k Hk. right. rewrite gather_block_eq in Hk.
        by apply elem_of_concat_map in Hk. }
    cbn [snd] in Hblk. eapply covers_ext; [exact Hblk| |]; subst Rb Sb.
    - intros k (b & Hb & [->|Hk]).
      + left. apply list_elem_of_fmap. eauto.
      + right. rewrite gather_region_eq. apply elem_of_concat_map. eauto.
    - intros k Hk. rewrite gather_region_eq in Hk. by apply elem_of_concat_map in Hk. }
  destruct maps1 as [vm1 bm1]. cbn [snd] in *. subst Rr Sr.
  assert (covers (fun _ => False) (fun k => k ∈ map IBlock_id successors) bm bm) as Hsucc.
  { split; [|split]; [by left | | done].
    intros k (s & -> & Hin)%list_elem_of_fmap. left.
    apply list_elem_of_lookup in Hin as [j Hj].
    destruct (Forall2_lookup_l _ _ _ _ _ Hs Hj) as (b & _ & Hb). by rewrite Hb. }
  eapply covers_ext; [exact (covers_trans _ _ _ _ _ _ _ Hsucc Hreg)| |].
  - intros k [[]|(r & Hr & Hk)]. unfold region_block_ids. rewrite gather_eq.
    apply elem_of_app. destruct Hk as [Hk|Hk].
    + left. unfold own_block_ids. cbn [IOp_regions].
      apply elem_of_concat_map. eauto.
    + right. cbn [IOp_regions]. apply elem_of_concat_map. eauto.
  - unfold successor_ids. intros k Hk. rewrite gather_eq in Hk.
    apply elem_of_app in Hk as [Hk|Hk]; [by left|].
    right. cbn [IOp_regions] in Hk. by apply elem_of_concat_map in Hk.
Qed.

(** *** What [from_mutable] puts in [block_map]

    [separated R S bm bm' h h']: between [h] and [h'] objects were only
    added; the blocks in [R] were made in between; a block held by [bm'] is
    held by [bm] or was made in between and is not in [R]; [bm'] extends
    [bm]; and what is in [S] is held by [bm']. *)
Definition held (bm : BlockMap) (k : ident) : Prop :=
  exists k0 b, bm !! k0 = Some b /\ IBlock_id b = k.

Definition separated (R S : ident -> Prop) (bm bm' : BlockMap) (h h' : Heap) : Prop :=
  next_id h <= next_id h' /\
  (forall k, R k -> next_id h <= k < next_id h') /\
  (forall k, held bm' k -> held bm k \/ (next_id h <= k < next_id h' /\ ~ R k)) /\
  bm ⊆ bm' /\
  (forall k, S k -> held bm' k).

Lemma separated_refl (bm : BlockMap) (h : Heap) :
  separated (fun _ => False) (fun _ => False) bm bm h h.
Proof. split; [done|]. split; [done|]. split; [by left|]. by split. Qed.

Lemma separated_trans R1 S1 R2 S2 (bm0 bm1 bm2 : BlockMap) (h0 h1 h2 : Heap) :
  separated R1 S1 bm0 bm1 h0 h1 -> separated R2 S2 bm1 bm2 h1 h2 ->
  separated (fun k => R1 k \/ R2 k) (fun k => S1 k \/ S2 k) bm0 bm2 h0 h2.
Proof.
  intros (L1 & A1 & B1 & C1 & D1) (L2 & A2 & B2 & C2 & D2).
  split; [lia|]. split; [|split; [|split]].
  - intros k [Hk|Hk]; [specialize (A1 k Hk) | specialize (A2 k Hk)]; lia.
  - intros k Hk. destruct (B2 k Hk) as [H|[Hr Hn]].
    + destruct (B1 k H) as [?|[Hr Hn]]; [by left|]. right. split; [lia|].
      intros [?|HR]; [done|]. specialize (A2 k HR). lia.
    + right. split; [lia|]. intros [HR|?]; [|done]. specialize (A1 k HR). lia.
  - by etrans.
  - intros k [Hk|Hk]; [|by apply D2].
    destruct (D1 k Hk) as (k0 & b & Hb & Hid). exists k0, b. split; [|done].
    by eapply lookup_weaken.
Qed.

Lemma separated_ext (R S R' S' : ident -> Prop) (bm bm' : BlockMap) (h h' : Heap) :
  separated R S bm bm' h h' -> (forall k, R' k -> R k) -> (forall k, S' k -> S k) ->
  separated R' S' bm bm' h h'.
Proof.
  intros (L & A & B & C & D) HR HS. split; [done|]. split; [|split; [|split]].
  - intros k Hk. by apply A, HR.
  - intros k Hk. destruct (B k Hk) as [?|[? Hn]]; [by left|]. right. split; [done|].
    intros Hk'. by apply Hn, HR.
  - done.
  - intros k Hk. by apply D, HS.
Qed.

Lemma separated_widen (R S : ident -> Prop) (bm bm' : BlockMap) (h0 h1 h2 h3 : Heap) :
  separated R S bm bm' h1 h2 -> next_id h0 <= next_id h1 -> next_id h2 <= next_id h3 ->
  separated R S bm bm' h0 h3.
Proof.
  intros (L & A & B & C & D) H01 H23. split; [lia|]. split; [|split; [|split]];
    [| |done|done].
  - intros k Hk. specialize (A k Hk). lia.
  - intros k Hk. destruct (B k Hk) as [?|[? Hn]]; [by left|]. right. split; [lia|done].
Qed.

Lemma separated_alloc (R Q : ident -> Prop) (bm bm' : BlockMap) (h h2 h3 : Heap) :
  separated R Q bm bm' h h2 -> next_id h3 = S (next_id h2) ->
  separated (fun k => R k \/ k = next_id h2) Q bm bm' h h3.
Proof.
  intros (L & A & B & C & D) Hn. split; [lia|]. split; [|split; [|split]];
    [| |done|done].
  - intros k [Hk| ->]; [specialize (A k Hk)|]; lia.
  - intros k Hk. destruct (B k Hk) as [?|[? Hnr]]; [by left|]. right. split; [lia|].
    intros [?| ->]; [done|lia].
Qed.

Lemma mapS_separated {A B St} (f : A -> St -> M (B * St)) (proj : St -> BlockMap)
    (R S : B -> ident -> Prop) (l : list A) :
  (forall x s h y s' h', x ∈ l -> f x s h = Ok ((y, s'), h') ->
                         separated (R y) (S y) (proj s) (proj s') h h') ->
  forall s h ys s' h',
    mapS f l s h = Ok ((ys, s'), h') ->
    separated (fun k => exists y, y ∈ ys /\ R y k) (fun k => exists y, y ∈ ys /\ S y k)
              (proj s) (proj s') h h'.
Proof.
  induction l as [|x l IH]; intros Hf s h ys s' h'; cbn [mapS].
  - intros [= <- <- <-]. eapply separated_ext; [apply separated_refl| |];
      by intros k (? & ?%elem_of_nil & _).
  - intros ([y s1] & h1 & E1 & E)%bind_Ok.
    apply bind_Ok in E as ([ys' s2] & h2 & E2 & [= <- <- <-]).
    pose proof (Hf x s h y s1 h1 ltac:(left) E1) as H1.
    pose proof (IH ltac:(intros x' s0 h0 y0 s0' h0' Hin; apply Hf; by right)
                   s1 h1 ys' s2 h2 E2) as H2.
    eapply separated_ext; [exact (separated_trans _ _ _ _ _ _ _ _ _ _ H1 H2)| |];
      intros k (y' & [->|Hy']%elem_of_cons & Hk); (by left) || (right; eauto).
Qed.

Lemma convert_operands_grows (vm : ValueMap) (t : OpType) (operands : list SSAValue)
    (h : Heap) r h' :
  mapS (convert_operand vm t) operands tt h = Ok (r, h') -> grows h h'.
Proof.
  destruct r as [vs u]. apply mapS_grows.
  intros x s hh y s' hh' _ Ex.
  destruct x as [vid typ owner idx|a]; unfold convert_operand in Ex.
  - apply bind_Ok in Ex as (p & h5 & Ep & [= <- <- <-]).
    destruct (vm !! vid) as [[? ? ?|?]|]; try done.
    + unfold ret in Ep. injection Ep as <- <-. apply grows_refl.
    + destruct owner as [owner|]; [|done].
      apply bind_Ok in Ep as ([I1 m1] & h6 & Ep & [= <- <-]).
      eapply made_last_grows. by eapply (IOp_from_mutable_made_last owner).
  - destruct (vm !! barg_id a); [|done].
    unfold ret in Ex. injection Ex as <- <- <-. apply grows_refl.
Qed.

Lemma IBlock_from_mutable_with_separated
    (conv : Operation -> ValueMap * BlockMap -> M (IOp * (ValueMap * BlockMap)))
    (bargs : list BlockArgument) (bops : list Operation) :
  (forall o s h y s' h', o ∈ bops -> conv o s h = Ok ((y, s'), h') ->
     separated (fun k => k ∈ region_block_ids y) (fun k => k ∈ successor_ids y)
               s.2 s'.2 h h') ->
  forall maps h b maps' h',
    IBlock_from_mutable_with conv bargs bops maps h = Ok ((b, maps'), h') ->
    separated (fun k => k = IBlock_id b \/ k ∈ gather_block own_block_ids b)
              (fun k => k ∈ gather_block own_successor_ids b)
              maps.2 maps'.2 h h'.
Proof.
  intros Hc [vm bm] h b maps' h'. unfold IBlock_from_mutable_with.
  intros ([args vm1] & h1 & E1 & E)%bind_Ok.
  apply bind_Ok in E as ([ops maps1] & h2 & E2 & E).
  apply bind_Ok in E as (b0 & h3 & E3 & [= <- <- <-]).
  unfold IBlock_init, bind, fresh, ret in E3. injection E3 as <- <-.
  assert (grows h h1) as [G1 _].
  { eapply (mapS_grows convert_arg bargs); [|exact E1].
    intros x s h0 y s' h0' _ Ex.
    unfold convert_arg, IBlockArg_init, bind, fresh, ret in Ex.
    injection Ex as <- <- <-. split; simpl; [lia|done]. }
  opose proof (mapS_separated conv snd (fun y k => k ∈ region_block_ids y)
                 (fun y k => k ∈ successor_ids y) bops _ _ _ _ _ _ E2) as Hops.
  { intros o s h0 y s' h0' Ho Eo. by eapply Hc. }
  cbn [snd fst] in *.
  eapply separated_ext;
    [eapply (separated_alloc _ _ _ _ h h2);
       [eapply separated_widen; [exact Hops|done|done] | done] | |].
  - cbn [IBlock_id]. intros k [->|Hk]; [by right|]. left.
    rewrite gather_block_eq in Hk. by apply elem_of_concat_map in Hk.
  - intros k Hk. rewrite gather_block_eq in Hk. by apply elem_of_concat_map in Hk.
Qed.

Lemma IBlock_from_mutable_with_last
    (conv : Operation -> ValueMap * BlockMap -> M (IOp * (ValueMap * BlockMap)))
    (bargs : list BlockArgument) (bops : list Operation) :
  (forall o s h y s' h', o ∈ bops -> conv o s h = Ok ((y, s'), h') -> grows h h') ->
  forall maps h b maps' h',
    IBlock_from_mutable_with conv bargs bops maps h = Ok ((b, maps'), h') ->
    next_id h <= IBlock_id b /\ next_id h' = S (IBlock_id b).
Proof.
  intros Hc [vm bm] h b maps' h'. unfold IBlock_from_mutable_with.
  intros ([args vm1] & h1 & E1 & E)%bind_Ok.
  apply bind_Ok in E as ([ops maps1] & h2 & E2 & E).
  apply bind_Ok in E as (b0 & h3 & E3 & [= <- <- <-]).
  unfold IBlock_init, bind, fresh, ret in E3. injection E3 as <- <-.
  assert (grows h h1) as [G1 _].
  { eapply (mapS_grows convert_arg bargs); [|exact E1].
    intros x s h0 y s' h0' _ Ex.
    unfold convert_arg, IBlockArg_init, bind, fresh, ret in Ex.
    injection Ex as <- <- <-. split; simpl; [lia|done]. }
  assert (grows h1 h2) as [G2 _].
  { eapply (mapS_grows conv bops); [|exact E2]. intros; by eapply Hc. }
  simpl. split; [lia|done].
Qed.

Lemma IOp_from_mutable_separated (o : Operation) :
  forall maps h I maps' h',
    IOp_from_mutable_maps o maps None h = Ok ((I, maps'), h') ->
    separated (fun k => k ∈ region_block_ids I) (fun k => k ∈ successor_ids I)
              maps.2 maps'.2 h h'.
Proof.
  induction o as [i t operands results successors attributes regions IH]
    using Operation_nested_ind.
  intros [vm bm] h I maps' h'. cbn [IOp_from_mutable_maps].
  intros (ops & h1 & E1 & E)%bind_Ok.
  apply bind_Ok in E as ([succs bm1] & h2 & E2 & E).
  apply bind_Ok in E as ([regs maps1] & h3 & E3 & E).
  apply bind_Ok in E as (I0 & h4 & E4 & [= <- <- <-]).
  unfold IOp_get, IOp_init, bind, fresh, ret in E4. injection E4 as <- <-.
  apply bind_Ok in E1 as ([vs u] & h0 & E0 & [= <- <-]).
  change (mapS _ operands tt h) with (mapS (convert_operand vm t) operands tt h) in E0.
  apply convert_operands_grows in E0 as [G1 _].
  (* the successors *)
  opose proof (mapS_separated _ (fun bm : BlockMap => bm) (fun _ _ => False)
                 (fun (y : IBlock) k => k = IBlock_id y) successors _ _ _ _ _ _ E2)
    as Hsucc.
  { intros x s hh y s' hh' Hx Ex. cbv beta in Ex.
    destruct (s !! Block_id x) as [b|] eqn:El.
    - unfold ret in Ex. injection Ex as <- <- <-.
      split; [done|]. split; [done|]. split; [by left|]. split; [done|].
      intros k ->. by exists (Block_id x), b.
    - destruct x as [sid p sargs sops].
      apply bind_Ok in Ex as ([nb m1] & h5 & Eb & [= <- <- <-]).
      opose proof (IBlock_from_mutable_with_last _ sargs sops _ _ _ _ _ _ Eb)
        as [Hid Hnext].
      { intros o' s0 h6 y0 s0' h6' _ Eo. eapply made_last_grows.
        by eapply (IOp_from_mutable_made_last o'). }
      split; [lia|]. split; [done|]. split; [|split].
      + intros k (k0 & b & Hb & Hk). destruct (decide (k0 = sid)) as [->|Hne].
        * rewrite lookup_insert_eq in Hb. injection Hb as <-. right. split; [lia|tauto].
        * rewrite lookup_insert_ne in Hb by done. left. by exists k0, b.
      + by apply insert_subseteq.
      + intros k ->. exists sid, nb. by rewrite lookup_insert_eq. }
  assert (separated (fun _ => False) (fun k => k ∈ map IBlock_id succs) bm bm1 h0 h2)
    as Hsucc'.
  { eapply separated_ext; [exact Hsucc| |].
    - by intros k [].
    - intros k (y & -> & Hy)%list_elem_of_fmap. by exists y. }
  clear Hsucc.
  (* the regions *)
  pose (Rr := fun (r : IRegion) (k : ident) =>
                k ∈ map IBlock_id (IRegion_blocks r) \/ k ∈ gather_region own_block_ids r).
  pose (Sr := fun (r : IRegion) (k : ident) => k ∈ gather_region own_successor_ids r).
  opose proof (mapS_separated _ snd Rr Sr regions _ _ _ _ _ _ E3) as Hreg.
  { subst Rr Sr. intros [rid blocks] s h5 r' s' h5' Hr Er. cbv beta in Er.
    rewrite Forall_forall in IH. specialize (IH _ Hr). simpl in IH.
    apply bind_Ok in Er as ([ibs m1] & h6 & Eb & Er).
    pose (Rb := fun (b : IBlock) (k : ident) =>
                  k = IBlock_id b \/ k ∈ gather_block own_block_ids b).
    pose (Sb := fun (b : IBlock) (k : ident) => k ∈ gather_block own_successor_ids b).
    opose proof (mapS_separated _ snd Rb Sb blocks _ _ _ _ _ _ Eb) as Hblk.
    { subst Rb Sb. intros [bid p bargs bops] s0 h7 b' s0' h7' Hb Eblk. cbv beta in Eblk.
      rewrite Forall_forall in IH. specialize (IH _ Hb). simpl in IH.
      eapply IBlock_from_mutable_with_separated; [|exact Eblk].
      intros o' s1 h8 y1 s1' h8' Ho' Eo. rewrite Forall_forall in IH.
      exact (IH o' Ho' _ _ _ _ _ Eo). }
    destruct blocks as [|first rest] eqn:Hblocks; [done|]. rewrite <- Hblocks in *.
    destruct (Block_parent first); [|done].
    unfold IRegion_init, bind, fresh, ret in Er. injection Er as <- <- <-.
    cbn [IRegion_blocks]. subst Rb Sb.
    eapply separated_ext; [eapply separated_widen; [exact Hblk|done|simpl; lia]| |].
    - intros k [Hk|Hk].
      + apply list_elem_of_fmap in Hk as (b & -> & Hb). exists b. split; [done|by left].
      + rewrite gather_region_eq in Hk. apply elem_of_concat_map in Hk as (b & Hb & Hk).
        exists b. split; [done|by right].
    - intros k Hk. rewrite gather_region_eq in Hk. by apply elem_of_concat_map in Hk. }
  cbn [snd fst] in *. subst Rr Sr.
  pose proof (separated_trans _ _ _ _ _ _ _ _ _ _ Hsucc' Hreg) as Hall.
  eapply separated_ext; [eapply separated_widen; [exact Hall|done|simpl; lia]| |].
  - unfold region_block_ids. intros k Hk. rewrite gather_eq in Hk. right.
    cbn [IOp_regions] in Hk. apply elem_of_app in Hk as [Hk|Hk].
    + unfold own_block_ids in Hk. cbn [IOp_regions] in Hk.
      apply elem_of_concat_map in Hk as (r & Hr & Hk). exists r. split; [done|by left].
    + apply elem_of_concat_map in Hk as (r & Hr & Hk). exists r. split; [done|by right].
  - unfold successor_ids. intros k Hk. rewrite gather_eq in Hk.
    cbn [IOp_regions] in Hk. apply elem_of_app in Hk as [Hk|Hk]; [by left|].
    right. by apply elem_of_concat_map in Hk.
Qed.

(** *** Where the mirror has successors *)

Lemma map_eq_elem {A B C} (f : A -> C) (g : B -> C) (l : list A) (l' : list B) (x : A) :
  map g l' = map f l -> x ∈ l -> exists y, y ∈ l' /\ g y = f x.
Proof.
  revert l'. induction l as [|a l IH]; intros [|b l'] E Hx; try done.
  - by apply elem_of_nil in Hx.
  - injection E as E1 E2. apply elem_of_cons in Hx as [->|Hx].
    + exists b. split; [left|done].
    + destruct (IH l' E2 Hx) as (y & Hy & E). exists y. split; [by right|done].
Qed.

Lemma outline_successors (o : Operation) :
  forall I o', ioutline I = outline o -> o' ∈ Operation_walk o ->
               Operation_successors o' <> [] -> exists k, k ∈ successor_ids I.
Proof.
  induction o as [i t operands results successors attributes regions IH]
    using Operation_nested_ind.
  intros [j d iops irts isuccs iregs] o' E Ho' Hs.
  cbn [ioutline outline Operation_op_type Operation_attributes Operation_operands
       Operation_results Operation_successors Operation_regions IOp_op_type
       IOp_attributes IOp_operands IOp_result_types IOp_successors IOp_regions] in E.
  injection E as _ _ _ _ Hn Hr.
  unfold successor_ids. setoid_rewrite gather_eq. cbn [IOp_regions].
  cbn [Operation_walk Operation_regions] in Ho'. apply elem_of_cons in Ho' as [->|Ho'].
  - cbn [Operation_successors] in Hs.
    destruct isuccs as [|b isuccs]; [by destruct successors|].
    exists (IBlock_id b). apply elem_of_app. left. left.
  - apply elem_of_concat_map in Ho' as (r & Hr' & Ho').
    apply elem_of_concat_map in Ho' as (b & Hb & Ho').
    apply elem_of_concat_map in Ho' as (x & Hx & Ho').
    destruct (map_eq_elem _ _ _ _ r Hr Hr') as (ir & Hir & Er).
    destruct (map_eq_elem _ _ _ _ b Er Hb) as (ib & Hib & Eb).
    injection Eb as _ Eops.
    destruct (map_eq_elem _ _ _ _ x Eops Hx) as (ix & Hix & Ex).
    rewrite Forall_forall in IH. specialize (IH r Hr'). rewrite Forall_forall in IH.
    specialize (IH b Hb). rewrite Forall_forall in IH.
    destruct (IH x Hx ix o' Ex Ho' Hs) as (k & Hk).
    exists k. apply elem_of_app. right. apply elem_of_concat_map. exists ir.
    split; [done|]. rewrite gather_region_eq. apply elem_of_concat_map. exists ib.
    split; [done|]. rewrite gather_block_eq. apply elem_of_concat_map. by exists ix.
Qed.

(** *** The one exception of [get_mutable_copy] *)

Lemma mapS_Raise {A B S} (f : A -> S -> M (B * S)) (l : list A) (s : S) (h : Heap)
    (e : PyExc) :
  mapS f l s h = Raise e -> exists x s0 h0, x ∈ l /\ f x s0 h0 = Raise e.
Proof.
  revert s h. induction l as [|x l IH]; intros s h; cbn [mapS]; [done|].
  rewrite bind_eq. destruct (f x s h) as [[[y s1] h1]|e1] eqn:E1.
  - rewrite bind_eq. destruct (mapS f l s1 h1) as [[[ys s2] h2]|e2] eqn:E2; [done|].
    intros [= <-]. destruct (IH _ _ E2) as (x' & s0 & h0 & Hx' & E').
    exists x', s0, h0. split; [by right|done].
  - intros [= <-]. exists x, s, h. split; [left|done].
Qed.

Lemma IOp_get_mutable_copy_Raise (o : IOp) :
  forall maps h e,
    IOp_get_mutable_copy_maps o maps h = Raise e ->
    e = Exception "Block used before definition".
Proof.
  induction o as [i d operands result_types successors regions IH]
    using IOp_nested_ind.
  intros [vm bm] h e. rewrite IOp_get_mutable_copy_maps_eq. cbv zeta.
  destruct (mutable_operands_ok (od_name d) vm operands h) as (vs & h1 & E1 & _).
  rewrite bind_eq, E1, bind_eq.
  pose proof (mutable_successors_spec bm successors h1) as Hs.
  destruct (mapS (mutable_successor bm) successors tt h1) as [[[bs u] h2]|e2];
    [|intros [= <-]; by destruct Hs].
  rewrite bind_eq.
  destruct (mapS IRegion_get_mutable_copy_maps regions (vm, bm) h2)
    as [[[mr maps1] h3]|e3] eqn:E3.
  - by rewrite bind_eq, Operation_create_ok.
  - intros [= <-]. apply mapS_Raise in E3 as (r & s0 & h0 & Hr & Er).
    rewrite Forall_forall in IH. specialize (IH r Hr).
    unfold IRegion_get_mutable_copy_maps in Er. rewrite bind_eq in Er.
    destruct (mapS IBlock_get_mutable_copy_maps (IRegion_blocks r) s0 h0)
      as [[[mb maps2] h4]|e4] eqn:E4; [done|].
    injection Er as <-. apply mapS_Raise in E4 as (b & s1 & h5 & Hb & Eb).
    rewrite Forall_forall in IH. specialize (IH b Hb).
    destruct b as [bid bargs bops], s1 as [vm1 bm1].
    unfold IBlock_get_mutable_copy_maps, IBlock_get_mutable_copy_with in Eb.
    cbn [IBlock_id IBlock_args IBlock_ops] in Eb.
    rewrite bind_eq, Block_from_arg_types_ok, bind_eq in Eb.
    match type of Eb with context [mapS _ bops ?s2 ?h6] =>
      destruct (mapS IOp_get_mutable_copy_maps bops s2 h6)
        as [[[mo maps3] h7]|e5] eqn:E5; [done|]
    end.
    injection Eb as <-. apply mapS_Raise in E5 as (o' & s3 & h8 & Ho' & Eo).
    simpl in IH. rewrite Forall_forall in IH. by eapply (IH o' Ho').
Qed.

(** An op whose region has two blocks, the second branching to the first. *)
Definition two_blocks : IOp :=
  MkIOp 44 (MkOpData 43 "scf.execute" (OpClass "scf.execute") ∅) [] [] []
        [MkIRegion 42 [target_block; MkIBlock 41 [] [br_op]]].

(** X20: [from_mutable] never puts a block of a region in [block_map]: it
    converts every successor it does not find there on its own.  So in the
    immutable op it returns, no successor of any op, at any depth, is one of
    the blocks of the regions, provided [block_map] held only blocks that
    existed before the call. *)
Theorem from_mutable_successors_are_copies (o : Operation)
    (value_map : ValueMap) (block_map : BlockMap) (h : Heap)
    (I : IOp) (maps' : ValueMap * BlockMap) (h' : Heap) :
  (forall k, held block_map k -> k < next_id h) ->
  IOp_from_mutable_maps o (value_map, block_map) None h = Ok ((I, maps'), h') ->
  forall k, k ∈ successor_ids I -> k ∉ region_block_ids I.
Proof.
  intros Hold E k Hk HR.
  destruct (IOp_from_mutable_separated o _ _ _ _ _ E) as (_ & A & B & _ & D).
  cbn [snd] in *. specialize (A k HR).
  destruct (B k (D k Hk)) as [Hb|[_ Hn]]; [|done].
  specialize (Hold k Hb). lia.
Qed.

(** X20 (witness): the mirror of [branching]. *)
Lemma from_mutable_successors_are_copies_witness :
  exists I maps' h',
    IOp_from_mutable_maps branching (∅, ∅) None heap0 = Ok ((I, maps'), h') /\
    successor_ids I <> [] /\
    forall k, k ∈ successor_ids I -> k ∉ region_block_ids I.
Proof.
  destruct (IOp_from_mutable_maps branching (∅, ∅) None heap0)
    as [[[I maps'] h']|e] eqn:E; [|by vm_compute in E].
  exists I, maps', h'. split; [done|]. split.
  - pose proof E as E'. vm_compute in E'. injection E' as <- _ _. by vm_compute.
  - apply (from_mutable_successors_are_copies branching ∅ ∅ heap0 I maps' h'); [|done].
    intros k (k0 & b & Hb & _). by rewrite lookup_empty in Hb.
Defined.

(** X21: when [get_mutable_copy] returns, every successor of every op it
    went through was a key of the [block_mapping] it was given or is a block
    of one of the regions it went through; the keys it leaves in
    [block_mapping] are those it was given and such blocks, and it drops
    none. *)
Theorem get_mutable_copy_needs_known_successors (o : IOp)
    (value_mapping : ValueMapping) (block_mapping : BlockMapping) (h : Heap)
    (m : Operation) (value_mapping' : ValueMapping) (block_mapping' : BlockMapping)
    (h' : Heap) :
  IOp_get_mutable_copy_maps o (value_mapping, block_mapping) h
  = Ok ((m, (value_mapping', block_mapping')), h') ->
  (forall k, k ∈ successor_ids o ->
             is_Some (block_mapping !! k) \/ k ∈ region_block_ids o) /\
  (forall k, is_Some (block_mapping' !! k) ->
             is_Some (block_mapping !! k) \/ k ∈ region_block_ids o) /\
  (forall k, is_Some (block_mapping !! k) -> is_Some (block_mapping' !! k)).
Proof.
  intros E. destruct (IOp_get_mutable_copy_covers o _ _ _ _ _ _ _ E) as (A & B & C).
  by repeat split.
Qed.

(** X21 (witness): the copy of [two_blocks], whose branch goes to the block
    before its own. *)
Lemma get_mutable_copy_needs_known_successors_witness :
  exists m vm' bm' h',
    IOp_get_mutable_copy_maps two_blocks (∅, ∅) heap0 = Ok ((m, (vm', bm')), h') /\
    successor_ids two_blocks = [7] /\
    forall k, k ∈ successor_ids two_blocks ->
              is_Some ((∅ : BlockMapping) !! k) \/ k ∈ region_block_ids two_blocks.
Proof.
  destruct (IOp_get_mutable_copy_maps two_blocks (∅, ∅) heap0)
    as [[[m [vm' bm']] h']|e] eqn:E; [|by vm_compute in E].
  exists m, vm', bm', h'. split; [done|]. split; [done|].
  exact (proj1 (get_mutable_copy_needs_known_successors two_blocks ∅ ∅ heap0
                  m vm' bm' h' E)).
Defined.

(** X22: [get_mutable_copy] raises one exception only, "Block used before
    definition", whatever the op and the dicts: nothing else in the op, its
    operands or its regions makes it fail ([Operation.create],
    [Block.from_arg_types] and [Region.from_block_list] raising nothing). *)
Theorem get_mutable_copy_raises_only_for_blocks (o : IOp)
    (value_mapping : option ValueMapping) (block_mapping : option BlockMapping)
    (h : Heap) (e : PyExc) :
  IOp_get_mutable_copy o value_mapping block_mapping h = Raise e ->
  e = Exception "Block used before definition".
Proof. apply IOp_get_mutable_copy_Raise. Qed.

(** An op whose inner op branches to a block that is in no region. *)
Definition holder_of_branch : IOp :=
  MkIOp 47 (MkOpData 46 "scf.execute" (OpClass "scf.execute") ∅) [] [] []
        [MkIRegion 45 [MkIBlock 41 [] [br_op]]].

(** X22 (witness): [holder_of_branch]. *)
Lemma get_mutable_copy_raises_only_for_blocks_witness :
  exists e,
    IOp_get_mutable_copy holder_of_branch None None heap0 = Raise e /\
    e = Exception "Block used before definition".
Proof.
  destruct (IOp_get_mutable_copy holder_of_branch None None heap0)
    as [r|e] eqn:E; [by vm_compute in E|].
  exists e. split; [done|].
  exact (get_mutable_copy_raises_only_for_blocks _ None None heap0 e E).
Defined.

(** X23: a module that holds an op with a successor, at any depth, does not
    come back from the round trip [get_mutable_copy(get_immutable_copy(M))]:
    the call raises, and when [get_immutable_copy] returns the exception is
    "Block used before definition".  The successors of the immutable copy
    are blocks that [get_mutable_copy] has never seen. *)
Theorem nested_successor_never_round_trips (m : Operation) (h : Heap) :
  (exists o, o ∈ Operation_walk m /\ Operation_successors o <> []) ->
  (exists e, round_trip m h = Raise e) /\
  (forall I h1, get_immutable_copy m h = Ok (I, h1) ->
                round_trip m h = Raise (Exception "Block used before definition")).
Proof.
  intros (o & Ho & Hs).
  assert (forall I s1 h1,
            IOp_from_mutable_maps m (∅, ∅) None h = Ok ((I, s1), h1) ->
            round_trip m h = Raise (Exception "Block used before definition")) as Hrt.
  { intros I s1 h1 EA.
    unfold round_trip, get_immutable_copy, IOp_from_mutable, IOp_get_mutable_copy.
    cbn [default from_option id]. rewrite !bind_eq, EA.
    unfold ret at 1. cbn [fst]. rewrite !bind_eq.
    destruct (IOp_from_mutable_outline m _ _ _ _ _ EA) as (Hout & _ & _).
    destruct (outline_successors m I o Hout Ho Hs) as (k & Hk).
    destruct (IOp_from_mutable_separated m _ _ _ _ _ EA) as (_ & A & B & _ & D).
    cbn [snd] in *.
    assert (k ∉ region_block_ids I) as Hn.
    { destruct (B k (D k Hk)) as [(k0 & b & Hb & _)|[_ Hn]]; [|done].
      by rewrite lookup_empty in Hb. }
    destruct (IOp_get_mutable_copy_maps I (∅, ∅) h1) as [[[m' [vm' bm']] h2]|e] eqn:EB.
    - destruct (IOp_get_mutable_copy_covers I _ _ _ _ _ _ _ EB) as (_ & C & _).
      destruct (C k Hk) as [[? Hb]|HR]; [by rewrite lookup_empty in Hb | done].
    - by apply IOp_get_mutable_copy_Raise in EB as ->. }
  destruct (IOp_from_mutable_maps m (∅, ∅) None h) as [[[I s1] h1]|e] eqn:EA.
  - split; [eexists; by eapply Hrt | intros; by eapply Hrt].
  - split; [exists e|].
    + unfold round_trip, get_immutable_copy, IOp_from_mutable.
      cbn [default from_option id]. by rewrite !bind_eq, EA.
    + intros I h1. unfold get_immutable_copy, IOp_from_mutable.
      cbn [default from_option id]. by rewrite bind_eq, EA.
Qed.

(** X23 (witness): [branching], whose branch goes from the second block of
    the region to the first. *)
Lemma nested_successor_never_round_trips_witness :
  round_trip branching heap0 = Raise (Exception "Block used before definition").
Proof.
  destruct (get_immutable_copy branching heap0) as [[I h1]|e] eqn:E;
    [|by vm_compute in E].
  apply (proj2 (nested_successor_never_round_trips branching heap0
    ltac:(exists (MkOperation 2 (OpClass "cf.br") [] [] [MkBlock 7 (Some 6) [] []] ∅ []);
          split; [right; left | done])) I h1 E).
Defined.
